(** * minidav: the WebDAV method engine, its lock manager and the in-memory
      file system, embedded in Rocq.

    The development follows the TypeScript sources:
    - [JS] and [Posix]: the JavaScript and Node built-ins the sources call
      (string methods, [parseInt], [decodeURIComponent], the regular
      expressions written in the sources, [path.posix.normalize]);
    - [LockManager]: class LockManager of src/webdav/lock-manager.ts;
    - [MemFs] and [MemoryFileSystem]: the memfs volume and class
      MemoryFileSystem of src/filesystem/types.ts;
    - [MemoryFs]: its [copy], [move] and property methods;
    - [WebDAVServer]: class WebDAVServer (the request handlers);
    - [WebDAVMethods]: its constructor, the Basic authentication
      middleware and the handlers of OPTIONS, COPY, MOVE and UNLOCK.

    A JavaScript string is a sequence of UTF-16 code units, so it is a
    [list N] here; [js "..."] writes an ASCII literal.  A JavaScript number
    that holds an integer is a [Z] (exact for safe integers). *)

From Stdlib Require Import ZArith NArith List Ascii String Lia Bool.
From stdpp Require Import base option list gmap sets.

Open Scope Z_scope.

Abbreviation jsstring := (list N).

(** An ASCII literal as a JavaScript string. *)
Definition js (s : string) : jsstring :=
  map N_of_ascii (list_ascii_of_string s).
Arguments js : simpl never.

(* ===================================================================== *)
(** ** JavaScript built-ins *)
(* ===================================================================== *)
Module JS.

Definition SLASH : N := 47.
Definition DOT : N := 46.
Definition PERCENT : N := 37.
Definition HYPHEN : N := 45.
Definition PLUS : N := 43.
Definition STAR : N := 42.
Definition GT : N := 62.
Definition QUOTE : N := 34.
Definition NEWLINE : N := 10.

(** [a === b] on strings. *)
Definition eqb (a b : jsstring) : bool := bool_decide (a = b).

(** [s.startsWith(p)] *)
Fixpoint startsWith (s p : jsstring) {struct p} : bool :=
  match p, s with
  | [], _ => true
  | _ :: _, [] => false
  | c :: p', d :: s' => N.eqb c d && startsWith s' p'
  end.

(** [s.endsWith(p)] *)
Definition endsWith (s p : jsstring) : bool :=
  startsWith (rev s) (rev p).

(** [s.includes(p)] *)
Fixpoint includes (s p : jsstring) : bool :=
  startsWith s p ||
  match s with
  | [] => false
  | _ :: s' => includes s' p
  end.

(** [s.indexOf(c)] for a one-character needle; [None] is JavaScript's -1. *)
Fixpoint indexOf (s : jsstring) (c : N) : option nat :=
  match s with
  | [] => None
  | d :: s' => if N.eqb d c then Some O else S <$> indexOf s' c
  end.

(** [s.substring(a, b)] for [a <= b], and [s.substring(a)]. *)
Definition substring (s : jsstring) (a b : nat) : jsstring :=
  take (b - a) (drop a s).
Definition substringFrom (s : jsstring) (a : nat) : jsstring := drop a s.

(** [s.slice(0, -1)] *)
Definition slice_0_m1 (s : jsstring) : jsstring := removelast s.

(** [s.split(c)] for a one-character separator: never the empty array. *)
Fixpoint split (c : N) (s : jsstring) : list jsstring :=
  match s with
  | [] => [[]]
  | d :: s' =>
      if N.eqb d c then [] :: split c s'
      else match split c s' with
           | [] => [[d]]
           | w :: ws => (d :: w) :: ws
           end
  end.

(** [a.join(sep)] *)
Fixpoint join (sep : jsstring) (a : list jsstring) : jsstring :=
  match a with
  | [] => []
  | w :: ws =>
      match ws with
      | [] => w
      | _ :: _ => w ++ sep ++ join sep ws
      end
  end.

(** [a.pop()] read as the last element, [None] for [undefined]. *)
Definition pop (a : list jsstring) : option jsstring := last a.

(** [x || y] on strings: the empty string is falsy. *)
Definition or_else (x y : jsstring) : jsstring :=
  match x with [] => y | _ :: _ => x end.

(** WhiteSpace and LineTerminator code units (ECMA-262 StrWhiteSpaceChar,
    also the class [\s] of regular expressions). *)
Definition is_line_terminator (c : N) : bool :=
  (N.eqb c 10 || N.eqb c 13 || N.eqb c 8232 || N.eqb c 8233)%N.

Definition is_white_space (c : N) : bool :=
  (N.eqb c 9 || N.eqb c 11 || N.eqb c 12 || N.eqb c 32 || N.eqb c 160
   || N.eqb c 5760 || (N.leb 8192 c && N.leb c 8202) || N.eqb c 8239
   || N.eqb c 8287 || N.eqb c 12288 || N.eqb c 65279
   || is_line_terminator c)%N.

Definition is_digit (c : N) : bool := (N.leb 48 c && N.leb c 57)%N.

Definition digit_value (c : N) : Z := Z.of_N (c - 48).

(** The value of a run of decimal digits read left to right. *)
Fixpoint digits_value (acc : Z) (s : jsstring) : Z :=
  match s with
  | [] => acc
  | c :: s' => digits_value (10 * acc + digit_value c) s'
  end.

(** The longest prefix of decimal digits, and what follows it. *)
Fixpoint span_digits (s : jsstring) : jsstring * jsstring :=
  match s with
  | [] => ([], [])
  | c :: s' =>
      if is_digit c then let '(d, r) := span_digits s' in (c :: d, r)
      else ([], s)
  end.

Fixpoint skip_white_space (s : jsstring) : jsstring :=
  match s with
  | [] => []
  | c :: s' => if is_white_space c then skip_white_space s' else s
  end.

(** [parseInt(s, 10)]: leading white space is skipped, one sign is read,
    then the longest run of decimal digits; what follows is ignored.
    [None] is NaN. *)
Definition parseInt (s : jsstring) : option Z :=
  let s1 := skip_white_space s in
  let '(sign, s2) :=
    match s1 with
    | c :: r => if N.eqb c HYPHEN then (-1, r)
                else if N.eqb c PLUS then (1, r) else (1, s1)
    | [] => (1, s1)
    end in
  match fst (span_digits s2) with
  | [] => None
  | d => Some (sign * digits_value 0 d)
  end.

(** Decimal digits of a positive number, least significant first; the
    fuel is the number of binary digits, which bounds the decimal ones. *)
Fixpoint rev_digits (fuel : nat) (n : Z) : jsstring :=
  match fuel with
  | O => []
  | S fuel' =>
      if n <? 10 then [Z.to_N (48 + n)]
      else Z.to_N (48 + n mod 10) :: rev_digits fuel' (n / 10)
  end.

(** [n.toString()] for an integer below 10^21. *)
Definition toString (n : Z) : jsstring :=
  if n <? 0 then HYPHEN :: rev (rev_digits (S (Z.to_nat (Z.log2 (- n)))) (- n))
  else rev (rev_digits (S (Z.to_nat (Z.log2 n))) n).

Definition hex_value (c : N) : option N :=
  (if N.leb 48 c && N.leb c 57 then Some (c - 48)
   else if N.leb 65 c && N.leb c 70 then Some (c - 55)
   else if N.leb 97 c && N.leb c 102 then Some (c - 87)
   else None)%N.

(** The input of [decodeURIComponent] cut into literal code units and
    escaped octets [%XX]; [None] when a [%] is not followed by two
    hexadecimal digits. *)
Inductive uri_item := Lit (c : N) | Octet (b : N).

Fixpoint uri_items (s : jsstring) : option (list uri_item) :=
  match s with
  | [] => Some []
  | c :: s' =>
      if N.eqb c PERCENT then
        match s' with
        | h1 :: h2 :: s'' =>
            match hex_value h1, hex_value h2 with
            | Some a, Some b =>
                cons (Octet (16 * a + b)%N) <$> uri_items s''
            | _, _ => None
            end
        | _ => None
        end
      else cons (Lit c) <$> uri_items s'
  end.

Definition is_continuation (b : N) : bool := (N.leb 128 b && N.leb b 191)%N.

(** The code point as UTF-16. *)
Definition utf16 (v : N) : jsstring :=
  (if N.ltb v 65536 then [v]
   else [55296 + N.shiftr (v - 65536) 10; 56320 + N.land (v - 65536) 1023])%N.

(** ECMA-262 Decode with an empty reserved set: an octet below 128 is its
    character; a larger one starts a UTF-8 sequence whose continuation
    octets must all be escapes and which must encode a code point in its
    shortest form, outside the surrogate range. *)
Fixpoint decode_items (l : list uri_item) : option jsstring :=
  match l with
  | [] => Some []
  | Lit c :: l' => cons c <$> decode_items l'
  | Octet b :: l' =>
      (if N.ltb b 128 then cons b <$> decode_items l'
       else if N.leb 192 b && N.leb b 223 then
         match l' with
         | Octet b1 :: l1 =>
             let v := N.lor (N.shiftl (N.land b 31) 6) (N.land b1 63) in
             if is_continuation b1 && N.leb 128 v
             then app (utf16 v) <$> decode_items l1 else None
         | _ => None
         end
       else if N.leb 224 b && N.leb b 239 then
         match l' with
         | Octet b1 :: Octet b2 :: l2 =>
             let v := N.lor (N.shiftl (N.land b 15) 12)
                        (N.lor (N.shiftl (N.land b1 63) 6) (N.land b2 63)) in
             if is_continuation b1 && is_continuation b2 && N.leb 2048 v
                && negb (N.leb 55296 v && N.leb v 57343)
             then app (utf16 v) <$> decode_items l2 else None
         | _ => None
         end
       else if N.leb 240 b && N.leb b 247 then
         match l' with
         | Octet b1 :: Octet b2 :: Octet b3 :: l3 =>
             let v := N.lor (N.shiftl (N.land b 7) 18)
                        (N.lor (N.shiftl (N.land b1 63) 12)
                           (N.lor (N.shiftl (N.land b2 63) 6) (N.land b3 63))) in
             if is_continuation b1 && is_continuation b2 && is_continuation b3
                && N.leb 65536 v && N.leb v 1114111
             then app (utf16 v) <$> decode_items l3 else None
         | _ => None
         end
       else None)%N
  end.

(** [decodeURIComponent(s)]; [None] is the URIError it throws. *)
Definition decodeURIComponent (s : jsstring) : option jsstring :=
  uri_items s ≫= decode_items.

End JS.

(* ===================================================================== *)
(** ** Node's [path.posix] *)
(* ===================================================================== *)
Module Posix.
Import JS.

Definition dotdot : jsstring := [DOT; DOT].

(** Node's [normalizeString], one path segment at a time: [res] is the
    stack of segments kept so far, innermost first.  Empty segments and
    [.] are dropped; [..] removes the segment before it, and where there
    is none to remove it is kept only when [allowAboveRoot]. *)
Fixpoint normalizeString (allowAboveRoot : bool) (res segs : list jsstring)
  : list jsstring :=
  match segs with
  | [] => rev res
  | s :: segs' =>
      if eqb s [] || eqb s [DOT] then normalizeString allowAboveRoot res segs'
      else if eqb s dotdot then
        match res with
        | top :: res' =>
            if eqb top dotdot then
              normalizeString allowAboveRoot
                (if allowAboveRoot then dotdot :: res else res) segs'
            else normalizeString allowAboveRoot res' segs'
        | [] =>
            normalizeString allowAboveRoot
              (if allowAboveRoot then [dotdot] else []) segs'
        end
      else normalizeString allowAboveRoot (s :: res) segs'
  end.

(** [path.posix.normalize(p)] *)
Definition normalize (p : jsstring) : jsstring :=
  match p with
  | [] => [DOT]
  | _ :: _ =>
      let isAbsolute := startsWith p [SLASH] in
      let trailingSeparator := endsWith p [SLASH] in
      let r := join [SLASH]
                 (normalizeString (negb isAbsolute) [] (split SLASH p)) in
      match r with
      | [] =>
          if isAbsolute then [SLASH]
          else if trailingSeparator then [DOT; SLASH] else [DOT]
      | _ :: _ =>
          let r' := if trailingSeparator then r ++ [SLASH] else r in
          if isAbsolute then SLASH :: r' else r'
      end
  end.

(** The scan of [path.posix.dirname] over the characters after the first,
    last to first: trailing slashes are passed, then the last segment; the
    result is how many characters are left before the slash that is found
    ([None] when there is none). *)
Fixpoint dirname_end (matchedSlash : bool) (rev_rest : jsstring) : option nat :=
  match rev_rest with
  | [] => None
  | c :: r =>
      if N.eqb c SLASH then
        if matchedSlash then dirname_end true r else Some (length r)
      else dirname_end false r
  end.

(** [path.posix.dirname(p)] *)
Definition dirname (p : jsstring) : jsstring :=
  match p with
  | [] => [DOT]
  | c :: rest =>
      let hasRoot := N.eqb c SLASH in
      match dirname_end true (rev rest) with
      | None => if hasRoot then [SLASH] else [DOT]
      | Some n =>
          (* the slash found is at index [n + 1] of [p] *)
          if hasRoot && (n =? 0)%nat then [SLASH; SLASH]
          else take (S n) p
      end
  end.

(** [path.posix.join(a, b)] for two non-empty arguments. *)
Definition join2 (a b : jsstring) : jsstring := normalize (a ++ [SLASH] ++ b).

End Posix.

(* ===================================================================== *)
(** ** server.ts: the path normalizer of the method engine *)
(* ===================================================================== *)
Module PathNormalizer.
Import JS.

(** "Ensure path starts with forward slash" *)
Definition ensure_leading_slash (normalized : jsstring) : jsstring :=
  if negb (startsWith normalized [SLASH]) then SLASH :: normalized
  else normalized.

(** "Remove trailing slash except for root" *)
Definition strip_trailing_slash (normalized : jsstring) : jsstring :=
  if (1 <? length normalized)%nat && endsWith normalized [SLASH]
  then slice_0_m1 normalized else normalized.

(** "Prevent directory traversal by ensuring path doesn't escape root" *)
Definition strip_dotdot (normalized : jsstring) : jsstring :=
  if includes normalized Posix.dotdot then
    or_else
      (join [SLASH]
         (filter (fun segment => segment <> Posix.dotdot) (split SLASH normalized)))
      [SLASH]
  else normalized.

(** The steps of [WebDAVServer.normalizePath] after the percent-decoding. *)
Definition sanitize (decoded : jsstring) : jsstring :=
  strip_dotdot
    (strip_trailing_slash (ensure_leading_slash (Posix.normalize decoded))).

(** [WebDAVServer.normalizePath(requestPath)]; [None] when
    [decodeURIComponent] throws. *)
Definition normalizePath (requestPath : jsstring) : option jsstring :=
  sanitize <$> decodeURIComponent requestPath.

End PathNormalizer.


(* ===================================================================== *)
(** ** State passing *)
(* ===================================================================== *)

(** A method that reads and updates the fields of [this]. *)
Definition M (S A : Type) : Type := S -> A * S.

Definition ret {S A} (a : A) : M S A := fun s => (a, s).

Definition bind {S A B} (m : M S A) (k : A -> M S B) : M S B :=
  fun s => let '(a, s') := m s in k a s'.

Definition gets {S A} (f : S -> A) : M S A := fun s => (f s, s).

Definition modify {S} (f : S -> S) : M S unit := fun s => (tt, f s).

Notation "'let*' x ':=' m 'in' k" := (bind m (fun x => k))
  (at level 10, x name, m at level 100, k at level 200).

(** [for (const x of l) { if (f x) return true } return false] *)
Fixpoint anyM {S A} (f : A -> M S bool) (l : list A) : M S bool :=
  match l with
  | [] => ret false
  | x :: l' => let* b := f x in if b then ret true else anyM f l'
  end.

(** [for (const x of l) { const y = f(x); if (y) out.push(y) }] *)
Fixpoint collectM {S A B} (f : A -> M S (option B)) (l : list A) : M S (list B) :=
  match l with
  | [] => ret []
  | x :: l' =>
      let* y := f x in
      let* ys := collectM f l' in
      ret (match y with Some b => b :: ys | None => ys end)
  end.

(** [for (const x of l) f(x)] *)
Fixpoint forM_ {S A B} (f : A -> M S B) (l : list A) : M S unit :=
  match l with
  | [] => ret tt
  | x :: l' => let* _ := f x in forM_ f l'
  end.

(** What a call gives back: a value, or the [Error] it throws with its
    message. *)
Inductive result (A : Type) : Type :=
| Ok (a : A)
| Throw (message : jsstring).
Arguments Ok {A} a.
Arguments Throw {A} message.

(** [result] with state: a call that may throw after it has changed the
    fields of [this]. *)
Definition E (S A : Type) : Type := M S (result A).

Definition bindE {S A B} (m : E S A) (k : A -> E S B) : E S B :=
  fun s => match m s with
           | (Ok a, s') => k a s'
           | (Throw e, s') => (Throw e, s')
           end.

Definition retE {S A} (a : A) : E S A := ret (Ok a).
Definition throw {S A} (message : jsstring) : E S A := ret (Throw message).

Notation "'let!' x ':=' m 'in' k" := (bindE m (fun x => k))
  (at level 10, x name, m at level 100, k at level 200).

(** Bytes of a file or of a message body. *)
Abbreviation bytes := (list N).

(* ===================================================================== *)
(** ** filesystem/types.ts: the interface the engine consumes *)
(* ===================================================================== *)

Inductive ResourceType := file | collection.

#[global] Instance ResourceType_eq_dec : EqDecision ResourceType.
Proof. solve_decision. Defined.

(** [range?: { start; end?; total? }] *)
Record Range := mkRange {
  range_start : Z;
  range_end : option Z;
  range_total : option Z
}.

(** [interface VirtualFileSystem], the methods the handlers below call.  A
    stream is the byte sequence it carries.  [now] is the clock reading and
    [uuid] the value [uuidv4()] returns where an implementation draws one. *)
Class VirtualFileSystem (FS : Type) := {
  vfs_create : Z -> jsstring -> jsstring -> ResourceType -> E FS unit;
  vfs_delete : jsstring -> E FS unit;
  vfs_exists : jsstring -> E FS bool;
  vfs_getMembers : jsstring -> E FS (list jsstring);
  vfs_getType : jsstring -> E FS (option ResourceType);
  vfs_getStream : jsstring -> option Range -> E FS bytes;
  vfs_setStream : Z -> jsstring -> jsstring -> bytes -> option Range -> E FS unit;
  vfs_getSize : jsstring -> E FS Z;
  vfs_getEtag : jsstring -> jsstring -> E FS jsstring
}.

(* ===================================================================== *)
(** ** The memfs volume *)
(* ===================================================================== *)

(** memfs is a dependency, not a source file; this is the part of Node's
    [fs] interface that memory-fs.ts calls, over a volume that maps the
    list of segments of an absolute path to a directory or to the bytes of
    a file.  An error carries its code as message. *)
Module MemFs.
Import JS.

Inductive node := Dir | File (data : bytes).

Abbreviation vol := (gmap (list jsstring) node).

(** The volume after [mkdirSync('/')]. *)
Definition empty : vol := {[ [] := Dir ]}.

(** A path resolved against the root: its segments. *)
Definition steps (p : jsstring) : list jsstring :=
  Posix.normalizeString false [] (split SLASH p).

Definition existsSync (p : jsstring) (v : vol) : bool :=
  bool_decide (is_Some (v !! steps p)).

(** [statSync(p).isDirectory()] *)
Definition isDirectory (p : jsstring) (v : vol) : result bool :=
  match v !! steps p with
  | Some Dir => Ok true
  | Some (File _) => Ok false
  | None => Throw (js "ENOENT")
  end.

(** [statSync(p).size] *)
Definition size (p : jsstring) (v : vol) : result Z :=
  match v !! steps p with
  | Some Dir => Ok 0
  | Some (File data) => Ok (Z.of_nat (length data))
  | None => Throw (js "ENOENT")
  end.

(** [mkdirSync(p, { recursive: true })]: the missing directories are made
    from the root down; a file on the way stops it, with the directories
    made so far left in place. *)
Fixpoint mkdirp (done todo : list jsstring) : E vol unit :=
  match todo with
  | [] => retE tt
  | s :: todo' =>
      let key := done ++ [s] in
      fun v =>
        match v !! key with
        | Some Dir => mkdirp key todo' v
        | Some (File _) => (Throw (js "ENOTDIR"), v)
        | None => mkdirp key todo' (<[key := Dir]> v)
        end
  end.

Definition mkdirSync_recursive (p : jsstring) : E vol unit :=
  mkdirp [] (steps p).

(** [writeFileSync(p, data)], also what a write stream opened on [p] leaves
    when the piped bytes are [data]. *)
Definition writeFileSync (p : jsstring) (data : bytes) : E vol unit :=
  fun v =>
    let key := steps p in
    match key with
    | [] => (Throw (js "EISDIR"), v)
    | _ :: _ =>
        match v !! removelast key with
        | Some Dir =>
            match v !! key with
            | Some Dir => (Throw (js "EISDIR"), v)
            | _ => (Ok tt, <[key := File data]> v)
            end
        | Some (File _) => (Throw (js "ENOTDIR"), v)
        | None => (Throw (js "ENOENT"), v)
        end
    end.

Definition readFileSync (p : jsstring) (v : vol) : result bytes :=
  match v !! steps p with
  | Some (File data) => Ok data
  | Some Dir => Throw (js "EISDIR")
  | None => Throw (js "ENOENT")
  end.

(** [rmSync(p, { recursive: true, force: true })] *)
Definition rmSync_recursive (p : jsstring) : E vol unit :=
  fun v => (Ok tt, filter (fun entry => ~ (steps p `prefix_of` entry.1)) v).

Definition unlinkSync (p : jsstring) : E vol unit :=
  fun v =>
    match v !! steps p with
    | Some (File _) => (Ok tt, delete (steps p) v)
    | Some Dir => (Throw (js "EISDIR"), v)
    | None => (Throw (js "ENOENT"), v)
    end.

(** [readdirSync(p, { encoding: 'utf8' })]: the names directly under [p], in
    the order of the volume's keys. *)
Definition readdirSync (p : jsstring) (v : vol) : result (list jsstring) :=
  match v !! steps p with
  | Some Dir =>
      Ok (omap (fun entry : list jsstring * node =>
                  if bool_decide (removelast entry.1 = steps p) then last entry.1
                  else None)
            (map_to_list v))
  | Some (File _) => Throw (js "ENOTDIR")
  | None => Throw (js "ENOENT")
  end.

(** The bytes a read stream yields: all of them, or those from [start] to
    [end] inclusive. *)
Definition createReadStream (p : jsstring) (start : Z) (end_ : option Z)
  (v : vol) : result bytes :=
  match readFileSync p v with
  | Ok data =>
      Ok (match end_ with
          | Some e => take (Z.to_nat (e + 1 - start)) (drop (Z.to_nat start) data)
          | None => drop (Z.to_nat start) data
          end)
  | Throw e => Throw e
  end.

End MemFs.

(* ===================================================================== *)
(** ** filesystem/memory-fs.ts *)
(* ===================================================================== *)
Module MemoryFileSystem.
Import JS.

(** A value of the property store: a [Date] or a string. *)
Inductive propval := PDate (t : Z) | PString (s : jsstring).

(** The memfs volume (a module-level singleton in the source) and the
    [properties] map. *)
Record t := mk {
  fs : MemFs.vol;
  properties : gmap jsstring (gmap jsstring propval)
}.

Definition liftFs {A} (m : E MemFs.vol A) : E t A :=
  fun s => let '(r, v) := m (fs s) in (r, mk v (properties s)).

Definition readFs {A} (f : MemFs.vol -> result A) : E t A :=
  fun s => (f (fs s), s).

(** [private generateEtag()] with [uuid] the value drawn. *)
Definition generateEtag (uuid : jsstring) : jsstring :=
  [QUOTE] ++ uuid ++ [QUOTE].

(** [private setPropertyInternal(filePath, property, value)] *)
Definition setPropertyInternal (filePath property : jsstring) (value : propval)
  : E t unit :=
  fun s =>
    (Ok tt,
     mk (fs s)
        (<[filePath := <[property := value]> (default ∅ (properties s !! filePath))]>
           (properties s))).

(** [private getPropertyInternal(filePath, property)] *)
Definition getPropertyInternal (filePath property : jsstring) (s : t)
  : option propval :=
  properties s !! filePath ≫= fun m => m !! property.

(** The constructor. *)
Definition new (now : Z) (uuid : jsstring) : t :=
  snd ((let! _ := setPropertyInternal [SLASH] (js "created") (PDate now) in
        let! _ := setPropertyInternal [SLASH] (js "lastModified") (PDate now) in
        setPropertyInternal [SLASH] (js "etag") (PString (generateEtag uuid)))
         (mk MemFs.empty ∅)).

(** [create(filePath, type)] *)
Definition create (now : Z) (uuid : jsstring) (filePath : jsstring)
  (type : ResourceType) : E t unit :=
  let! _ :=
    match type with
    | collection => liftFs (MemFs.mkdirSync_recursive filePath)
    | file =>
        let parentDir := Posix.dirname filePath in
        let! _ := if negb (eqb parentDir [SLASH])
                  then liftFs (MemFs.mkdirSync_recursive parentDir)
                  else retE tt in
        liftFs (MemFs.writeFileSync filePath [])
    end in
  let! _ := setPropertyInternal filePath (js "created") (PDate now) in
  let! _ := setPropertyInternal filePath (js "lastModified") (PDate now) in
  setPropertyInternal filePath (js "etag") (PString (generateEtag uuid)).

(** [delete(filePath)] *)
Definition delete (filePath : jsstring) : E t unit :=
  let! _ :=
    fun s =>
      if MemFs.existsSync filePath (fs s) then
        (let! isDir := readFs (MemFs.isDirectory filePath) in
         if isDir then liftFs (MemFs.rmSync_recursive filePath)
         else liftFs (MemFs.unlinkSync filePath)) s
      else (Ok tt, s) in
  fun s => (Ok tt, mk (fs s) (base.delete filePath (properties s))).

(** [exists(filePath)] *)
Definition exists_ (filePath : jsstring) : E t bool :=
  fun s => (Ok (MemFs.existsSync filePath (fs s)), s).

(** [getMembers(filePath)] *)
Definition getMembers (filePath : jsstring) : E t (list jsstring) :=
  fun s =>
    if negb (MemFs.existsSync filePath (fs s)) then
      (Throw (js "Path does not exist: " ++ filePath), s)
    else
      (let! isDir := readFs (MemFs.isDirectory filePath) in
       if negb isDir then throw (js "Path is not a collection: " ++ filePath)
       else
         let! items := readFs (MemFs.readdirSync filePath) in
         retE (map (fun item => Posix.join2 filePath item) items)) s.

(** [getType(filePath)] *)
Definition getType (filePath : jsstring) : E t (option ResourceType) :=
  fun s =>
    if negb (MemFs.existsSync filePath (fs s)) then (Ok None, s)
    else
      (let! isDir := readFs (MemFs.isDirectory filePath) in
       retE (Some (if isDir then collection else file))) s.

(** [getStream(filePath, range?)] *)
Definition getStream (filePath : jsstring) (range : option Range) : E t bytes :=
  fun s =>
    if negb (MemFs.existsSync filePath (fs s)) then
      (Throw (js "File does not exist: " ++ filePath), s)
    else
      match range with
      | Some r =>
          readFs (MemFs.createReadStream filePath (range_start r) (range_end r)) s
      | None => readFs (MemFs.createReadStream filePath 0 None) s
      end.

(** [x || y] on numbers: [undefined] and [0] are falsy. *)
Definition num_or (x : option Z) (y : Z) : Z :=
  match x with
  | Some n => if n =? 0 then y else n
  | None => y
  end.

(** [setStream(filePath, stream, range?)] with [incomingData] the bytes the
    stream delivers. *)
Definition setStream (now : Z) (uuid : jsstring) (filePath : jsstring)
  (incomingData : bytes) (range : option Range) : E t unit :=
  let parentDir := Posix.dirname filePath in
  let! _ := if negb (eqb parentDir [SLASH])
            then liftFs (MemFs.mkdirSync_recursive parentDir)
            else retE tt in
  match range with
  | Some range =>
      let! existingData :=
        fun s =>
          if MemFs.existsSync filePath (fs s)
          then readFs (MemFs.readFileSync filePath) s
          else (Ok [], s) in
      let totalSize :=
        num_or (range_total range)
          (Z.max (Z.of_nat (length existingData))
             (num_or (range_end range) (range_start range) + 1)) in
      let existingData :=
        if Z.of_nat (length existingData) <? totalSize
        then existingData
             ++ replicate (Z.to_nat totalSize - length existingData) 0%N
        else existingData in
      let endPos :=
        match range_end range with
        | Some e => e
        | None => range_start range + Z.of_nat (length incomingData) - 1
        end in
      let actualEndPos := Z.min endPos (Z.of_nat (length existingData) - 1) in
      let writeLength :=
        Z.min (Z.of_nat (length incomingData))
          (actualEndPos - range_start range + 1) in
      (* incomingData.copy(existingData, range.start, 0, writeLength) *)
      if writeLength <? 0 then throw (js "ERR_OUT_OF_RANGE")
      else
        let start := Z.to_nat (range_start range) in
        let n := Nat.min (Z.to_nat writeLength) (length existingData - start) in
        let existingData :=
          take start existingData ++ take n incomingData
          ++ drop (start + n) existingData in
        let! _ := liftFs (MemFs.writeFileSync filePath existingData) in
        let! _ := setPropertyInternal filePath (js "lastModified") (PDate now) in
        setPropertyInternal filePath (js "etag") (PString (generateEtag uuid))
  | None =>
      let! _ := liftFs (MemFs.writeFileSync filePath incomingData) in
      let! _ := setPropertyInternal filePath (js "lastModified") (PDate now) in
      setPropertyInternal filePath (js "etag") (PString (generateEtag uuid))
  end.

(** [getSize(filePath)] *)
Definition getSize (filePath : jsstring) : E t Z :=
  fun s =>
    if negb (MemFs.existsSync filePath (fs s)) then
      (Throw (js "File does not exist: " ++ filePath), s)
    else readFs (MemFs.size filePath) s.

(** [getEtag(filePath)]: the stored string, or a fresh one when there is
    none (or an empty one). *)
Definition getEtag (uuid : jsstring) (filePath : jsstring) : E t jsstring :=
  fun s =>
    (Ok (match getPropertyInternal filePath (js "etag") s with
         | Some (PString ((_ :: _) as etag)) => etag
         | Some (PDate _) => []
         | _ => generateEtag uuid
         end), s).

#[global] Instance vfs : VirtualFileSystem t := {
  vfs_create := create;
  vfs_delete := delete;
  vfs_exists := exists_;
  vfs_getMembers := getMembers;
  vfs_getType := getType;
  vfs_getStream := getStream;
  vfs_setStream := setStream;
  vfs_getSize := getSize;
  vfs_getEtag := getEtag
}.

End MemoryFileSystem.

(* ===================================================================== *)
(** ** webdav/lock-manager.ts *)
(* ===================================================================== *)
Module LockManager.
Import JS.

Inductive Scope := exclusive | shared.

#[global] Instance Scope_eq_dec : EqDecision Scope.
Proof. solve_decision. Defined.

(** [WebDAVLock] of webdav/types.ts; [type] is always ['write'].  [depth]
    is declared ['infinity' | '0'] but holds whatever string the caller
    passes; [created] is in milliseconds, [timeout] in seconds. *)
Record WebDAVLock := mkLock {
  token : jsstring;
  path : jsstring;
  owner : jsstring;
  timeout : Z;
  created : Z;
  depth : jsstring;
  scope : Scope
}.

Definition infinity : jsstring := js "infinity".
Definition depth0 : jsstring := js "0".

Inductive StreamType := read | write.

#[global] Instance StreamType_eq_dec : EqDecision StreamType.
Proof. solve_decision. Defined.

Record ActiveStream := mkStream {
  type : StreamType;
  count : Z;
  lockToken : option jsstring
}.

(** The fields of the class.  The interval timer is not a field here: its
    callback is [cleanupExpiredLocks], which may run between any two
    requests. *)
Record t := mk {
  locks : gmap jsstring WebDAVLock;
  pathLocks : gmap jsstring (gset jsstring);
  activeStreams : gmap jsstring ActiveStream;
  defaultTimeout : Z
}.

Definition new (defaultTimeout : option Z) : t :=
  mk ∅ ∅ ∅ (default 3600 defaultTimeout).

Definition set_locks (f : gmap jsstring WebDAVLock -> gmap jsstring WebDAVLock)
  (lm : t) : t :=
  mk (f (locks lm)) (pathLocks lm) (activeStreams lm) (defaultTimeout lm).

Definition set_pathLocks
  (f : gmap jsstring (gset jsstring) -> gmap jsstring (gset jsstring))
  (lm : t) : t :=
  mk (locks lm) (f (pathLocks lm)) (activeStreams lm) (defaultTimeout lm).

Definition set_activeStreams
  (f : gmap jsstring ActiveStream -> gmap jsstring ActiveStream) (lm : t) : t :=
  mk (locks lm) (pathLocks lm) (f (activeStreams lm)) (defaultTimeout lm).

(** [private normalizePath(path)] *)
Definition normalizePath (path : jsstring) : jsstring :=
  let normalized :=
    if negb (startsWith path [SLASH]) then SLASH :: path else path in
  if (1 <? length normalized)%nat && endsWith normalized [SLASH]
  then slice_0_m1 normalized else normalized.

(** [private isExpired(lock)] at the clock reading [now] (milliseconds). *)
Definition isExpired (now : Z) (lock : WebDAVLock) : bool :=
  created lock + timeout lock * 1000 <? now.

(** [timeout || this.defaultTimeout]: [undefined] and [0] are falsy. *)
Definition timeout_or_default (timeout : option Z) (lm : t) : Z :=
  match timeout with
  | Some n => if n =? 0 then defaultTimeout lm else n
  | None => defaultTimeout lm
  end.

(** [removeLock(token)] *)
Definition removeLock (token : jsstring) : M t bool :=
  fun lm =>
    match locks lm !! token with
    | None => (false, lm)
    | Some lock =>
        let lm := set_locks (delete token) lm in
        let lm :=
          match pathLocks lm !! path lock with
          | Some pathLockSet =>
              let pathLockSet := pathLockSet ∖ {[token]} in
              if bool_decide (size pathLockSet = 0%nat)
              then set_pathLocks (delete (path lock)) lm
              else set_pathLocks (<[path lock := pathLockSet]>) lm
          | None => lm
          end in
        (true, lm)
    end.

(** [getLock(token)]: an expired lock is removed on sight. *)
Definition getLock (now : Z) (token : jsstring) : M t (option WebDAVLock) :=
  let* lock := gets (fun lm => locks lm !! token) in
  match lock with
  | Some l =>
      if isExpired now l then let* _ := removeLock token in ret None
      else ret (Some l)
  | None => ret None
  end.

(** [getLocksForPath(path)]: the tokens of the set are visited in the order
    of [elements]. *)
Definition getLocksForPath (now : Z) (path : jsstring) : M t (list WebDAVLock) :=
  let normalizedPath := normalizePath path in
  let* lockTokens := gets (fun lm => pathLocks lm !! normalizedPath) in
  match lockTokens with
  | None => ret []
  | Some lockTokens => collectM (getLock now) (elements lockTokens)
  end.

(** [!excludeToken || lock.token !== excludeToken] *)
Definition not_excluded (excludeToken : option jsstring) (lock : WebDAVLock)
  : bool :=
  match excludeToken with
  | None | Some [] => true
  | Some e => negb (eqb (token lock) e)
  end.

(** The paths the loop of [isLocked] visits, nearest parent first:
    ['/' + pathParts.slice(0, i).join('/')] for [i] from
    [pathParts.length - 1] down to [0]. *)
Definition parentPaths (pathParts : list jsstring) : list jsstring :=
  map (fun i => SLASH :: join [SLASH] (take i pathParts))
    (rev (seq 0 (length pathParts))).

(** [isLocked(path, excludeToken?)] *)
Definition isLocked (now : Z) (path : jsstring) (excludeToken : option jsstring)
  : M t bool :=
  let normalizedPath := normalizePath path in
  let* locks := getLocksForPath now normalizedPath in
  let directLocks :=
    List.filter (fun lock => eqb (LockManager.path lock) normalizedPath
                             && not_excluded excludeToken lock) locks in
  if (0 <? length directLocks)%nat then ret true
  else
    let pathParts :=
      List.filter (fun part => (0 <? length part)%nat) (split SLASH normalizedPath) in
    anyM (fun parentPath =>
            let* ls := getLocksForPath now parentPath in
            let parentLocks :=
              List.filter (fun lock => eqb (depth lock) infinity
                                       && not_excluded excludeToken lock) ls in
            ret (0 <? length parentLocks)%nat)
      (parentPaths pathParts).

(** [canLock(path, scope)] *)
Definition canLock (now : Z) (path : jsstring) (scope : Scope) : M t bool :=
  let normalizedPath := normalizePath path in
  match scope with
  | exclusive =>
      let* b := isLocked now normalizedPath None in ret (negb b)
  | shared =>
      let* locks := getLocksForPath now normalizedPath in
      let exclusiveLocks :=
        List.filter (fun lock => bool_decide (LockManager.scope lock = exclusive))
          locks in
      ret (length exclusiveLocks =? 0)%nat
  end.

(** [hasValidLockToken(path, token)] *)
Definition hasValidLockToken (now : Z) (path token : jsstring) : M t bool :=
  let* lock := getLock now token in
  match lock with
  | None => ret false
  | Some lock =>
      let normalizedPath := normalizePath path in
      if eqb (LockManager.path lock) normalizedPath then ret true
      else if eqb (depth lock) infinity
              && startsWith normalizedPath (LockManager.path lock)
      then ret true
      else ret false
  end.

(** [createLock(path, owner, scope, depth, timeout?)]; [tok] is the value
    [uuidv4()] returns for this call and [now] the clock reading. *)
Definition createLock (now : Z) (tok : jsstring)
  (path owner : jsstring) (scope : Scope) (depth : jsstring)
  (timeout : option Z) : M t (result WebDAVLock) :=
  let normalizedPath := normalizePath path in
  let* ok := canLock now normalizedPath scope in
  if negb ok then ret (Throw (js "Resource is already locked"))
  else
    let* dflt := gets (timeout_or_default timeout) in
    let lock := mkLock tok normalizedPath owner dflt now depth scope in
    let* _ := modify (set_locks (<[tok := lock]>)) in
    let* _ := modify (set_pathLocks (fun pl =>
                 <[normalizedPath := default ∅ (pl !! normalizedPath) ∪ {[tok]}]> pl)) in
    ret (Ok lock).

(** [refreshLock(token, timeout?)] *)
Definition refreshLock (now : Z) (token : jsstring) (timeout : option Z)
  : M t (result WebDAVLock) :=
  let* lock := gets (fun lm => locks lm !! token) in
  match lock with
  | None => ret (Throw (js "Lock not found"))
  | Some lock =>
      if isExpired now lock then
        let* _ := removeLock token in ret (Throw (js "Lock has expired"))
      else
        let* dflt := gets (timeout_or_default timeout) in
        let lock' := mkLock (LockManager.token lock) (path lock) (owner lock)
                       dflt now (depth lock) (scope lock) in
        let* _ := modify (set_locks (<[token := lock']>)) in
        ret (Ok lock')
  end.

(** [private cleanupExpiredLocks()], the callback of the 60 s timer. *)
Definition cleanupExpiredLocks (now : Z) : M t unit :=
  let* expiredTokens :=
    gets (fun lm =>
            map fst (List.filter (fun entry => isExpired now (snd entry))
                       (map_to_list (locks lm)))) in
  forM_ removeLock expiredTokens.

(** [removeLocksForPath(path)] *)
Definition removeLocksForPath (path : jsstring) : M t unit :=
  let normalizedPath := normalizePath path in
  let* pathLockSet := gets (fun lm => pathLocks lm !! normalizedPath) in
  match pathLockSet with
  | Some pathLockSet =>
      let* _ := forM_ (fun token => modify (set_locks (delete token)))
                  (elements pathLockSet) in
      modify (set_pathLocks (delete normalizedPath))
  | None => ret tt
  end.

(** [moveLocksForPath(fromPath, toPath)] *)
Definition moveLocksForPath (fromPath toPath : jsstring) : M t unit :=
  let normalizedFromPath := normalizePath fromPath in
  let normalizedToPath := normalizePath toPath in
  let* pathLockSet := gets (fun lm => pathLocks lm !! normalizedFromPath) in
  match pathLockSet with
  | Some pathLockSet =>
      let* _ :=
        forM_ (fun token =>
                 modify (set_locks (fun ls =>
                   match ls !! token with
                   | Some lock =>
                       <[token := mkLock (LockManager.token lock) normalizedToPath
                                    (owner lock) (timeout lock) (created lock)
                                    (depth lock) (scope lock)]> ls
                   | None => ls
                   end)))
          (elements pathLockSet) in
      let* _ := modify (set_pathLocks (<[normalizedToPath := pathLockSet]>)) in
      modify (set_pathLocks (delete normalizedFromPath))
  | None => ret tt
  end.

(** [acquireStreamLock(path, type, lockToken?)] *)
Definition acquireStreamLock (path : jsstring) (type : StreamType)
  (lockToken : option jsstring) : M t bool :=
  let normalizedPath := normalizePath path in
  let* activeStream := gets (fun lm => activeStreams lm !! normalizedPath) in
  match activeStream with
  | None =>
      let* _ := modify (set_activeStreams
                          (<[normalizedPath := mkStream type 1 lockToken]>)) in
      ret true
  | Some activeStream =>
      if bool_decide (type = write)
         || bool_decide (LockManager.type activeStream = write)
      then ret false
      else if bool_decide (type = read)
              && bool_decide (LockManager.type activeStream = read)
      then
        let* _ := modify (set_activeStreams
                   (<[normalizedPath :=
                        mkStream (LockManager.type activeStream)
                          (count activeStream + 1) (LockManager.lockToken activeStream)]>)) in
        ret true
      else ret false
  end.

(** [releaseStreamLock(path)] *)
Definition releaseStreamLock (path : jsstring) : M t unit :=
  let normalizedPath := normalizePath path in
  let* activeStream := gets (fun lm => activeStreams lm !! normalizedPath) in
  match activeStream with
  | Some activeStream =>
      let n := count activeStream - 1 in
      if n <=? 0 then modify (set_activeStreams (delete normalizedPath))
      else modify (set_activeStreams
                     (<[normalizedPath :=
                          mkStream (LockManager.type activeStream) n
                            (LockManager.lockToken activeStream)]>))
  | None => ret tt
  end.

(** [hasWebDAVLock(path, type?)] *)
Definition hasWebDAVLock (now : Z) (path : jsstring) (type : option Scope)
  : M t bool :=
  let normalizedPath := normalizePath path in
  let* l := isLocked now normalizedPath None in
  if negb l then ret false
  else
    match type with
    | Some ty =>
        let* locks := getLocksForPath now normalizedPath in
        ret (existsb (fun lock => bool_decide (scope lock = ty)) locks)
    | None => ret true
    end.

(** [hasStreamingConflict(path, operation)] *)
Definition hasStreamingConflict (path : jsstring) (operation : StreamType)
  : M t bool :=
  let normalizedPath := normalizePath path in
  let* activeStream := gets (fun lm => activeStreams lm !! normalizedPath) in
  match activeStream with
  | None => ret false
  | Some activeStream =>
      if bool_decide (operation = write) then ret true
      else if bool_decide (operation = read)
              && bool_decide (LockManager.type activeStream = write)
      then ret true
      else ret false
  end.

End LockManager.

(* ===================================================================== *)
(** ** The regular expressions of server.ts *)
(* ===================================================================== *)
Module Regex.
Import JS.

(** [h.match(/^bytes=(.+)$/)], group 1: [.] matches no line terminator. *)
Definition bytes_spec (h : jsstring) : option jsstring :=
  if startsWith h (js "bytes=") then
    let spec := drop 6 h in
    if (0 <? length spec)%nat && forallb (fun c => negb (is_line_terminator c)) spec
    then Some spec else None
  else None.

(** [\s+] then the rest; [None] when no white space is there. *)
Definition white_space_plus (s : jsstring) : option jsstring :=
  match s with
  | c :: _ => if is_white_space c then Some (skip_white_space s) else None
  | [] => None
  end.

(** [(\d+)] then the rest. *)
Definition digits_plus (s : jsstring) : option (jsstring * jsstring) :=
  match span_digits s with
  | ([], _) => None
  | (d, r) => Some (d, r)
  end.

(** One given character then the rest. *)
Definition char (c : N) (s : jsstring) : option jsstring :=
  match s with
  | d :: r => if N.eqb d c then Some r else None
  | [] => None
  end.

(** The first pattern of [parseContentRange], groups 1 to 3: [bytes], white
    space, digits, a hyphen, digits, a slash, then digits or a star. *)
Definition content_range (h : jsstring)
  : option (jsstring * jsstring * jsstring) :=
  if startsWith h (js "bytes") then
    r ← white_space_plus (drop 5 h);
    '(g1, r) ← digits_plus r;
    r ← char HYPHEN r;
    '(g2, r) ← digits_plus r;
    r ← char SLASH r;
    match digits_plus r with
    | Some (g3, []) => Some (g1, g2, g3)
    | _ => if eqb r [STAR] then Some (g1, g2, [STAR]) else None
    end
  else None.

(** [h.match(/^bytes\s+\*\/(\d+)$/)], group 1. *)
Definition content_range_total (h : jsstring) : option jsstring :=
  if startsWith h (js "bytes") then
    r ← white_space_plus (drop 5 h);
    r ← char STAR r;
    r ← char SLASH r;
    match digits_plus r with
    | Some (g1, []) => Some g1
    | _ => None
    end
  else None.

(** The longest prefix without [>]. *)
Fixpoint until_gt (s : jsstring) : jsstring :=
  match s with
  | [] => []
  | c :: s' => if N.eqb c GT then [] else c :: until_gt s'
  end.

(** [h.match(/opaquelocktoken:([^>]+)/)], group 1 of the leftmost match. *)
Fixpoint opaquelocktoken (h : jsstring) : option jsstring :=
  match
    (if startsWith h (js "opaquelocktoken:") then
       match until_gt (drop 16 h) with
       | [] => None
       | tok => Some tok
       end
     else None)
  with
  | Some tok => Some tok
  | None => match h with
            | [] => None
            | _ :: h' => opaquelocktoken h'
            end
  end.

(** Canonicalize of a case-insensitive match, on the letters a to z. *)
Definition upper (c : N) : N :=
  (if N.leb 97 c && N.leb c 122 then c - 32 else c)%N.

Fixpoint startsWith_ci (s p : jsstring) {struct p} : bool :=
  match p, s with
  | [], _ => true
  | _ :: _, [] => false
  | c :: p', d :: s' => N.eqb (upper c) (upper d) && startsWith_ci s' p'
  end.

(** [h.match(/Second-(\d+)/i)], group 1 of the leftmost match. *)
Fixpoint second (h : jsstring) : option jsstring :=
  match
    (if startsWith_ci h (js "Second-") then fst <$> digits_plus (drop 7 h)
     else None)
  with
  | Some d => Some d
  | None => match h with
            | [] => None
            | _ :: h' => second h'
            end
  end.

End Regex.

(* ===================================================================== *)
(** ** webdav/xml.ts, over the object the XML parser returns *)
(* ===================================================================== *)
Module WebDAVXML.
Import JS.

(** What [XMLParser.parse] yields: text, or an object keyed by tag. *)
#[warnings="-register-all"]
Inductive jsval :=
| VUndefined
| VString (s : jsstring)
| VObject (fields : list (jsstring * jsval)).

Definition truthy (v : jsval) : bool :=
  match v with
  | VUndefined | VString [] => false
  | _ => true
  end.

(** [v[k]]: [None] is the TypeError of reading a property of [undefined]. *)
Definition get (v : jsval) (k : jsstring) : option jsval :=
  match v with
  | VUndefined => None
  | VString _ => Some VUndefined
  | VObject fields =>
      Some (default VUndefined
              (snd <$> List.find (fun f => eqb (fst f) k) fields))
  end.

(** [a || b] *)
Definition or (a b : jsval) : jsval := if truthy a then a else b.

(** [v['D:' + k] || v['d:' + k] || v[k]] *)
Definition get3 (v : jsval) (k : jsstring) : option jsval :=
  a ← get v (js "D:" ++ k);
  b ← get v (js "d:" ++ k);
  c ← get v k;
  Some (or a (or b c)).

Record LockRequest := mkLockRequest {
  lr_owner : jsstring;
  lr_scope : LockManager.Scope
}.

Definition type_error : jsstring := js "TypeError".

(** [t || 'unknown'] for a text node [t], which is a string when present. *)
Definition text_or_unknown (t : jsval) : jsstring :=
  match t with
  | VString (c :: s) => c :: s
  | _ => js "unknown"
  end.

(** The owner of [parseLockRequest]: a string, the text of its [href], or
    its own text. *)
Definition ownerValue (owner : jsval) : option jsstring :=
  match owner with
  | VString s => Some s
  | _ =>
      href ← get3 owner (js "href");
      if truthy href then
        match href with
        | VString s => Some s
        | _ => text_or_unknown <$> get href (js "#text")
        end
      else text_or_unknown <$> get owner (js "#text")
  end.

(** [parseLockRequest(xml)] on the parsed document. *)
Definition parseLockRequest (parsed : jsval) : result LockRequest :=
  match get3 parsed (js "lockinfo") with
  | None => Throw type_error
  | Some lockinfo =>
      if negb (truthy lockinfo) then Throw (js "Invalid lock request")
      else
        match get3 lockinfo (js "lockscope"), get3 lockinfo (js "locktype"),
              get3 lockinfo (js "owner") with
        | Some lockscope, Some locktype, Some owner =>
            match get3 lockscope (js "shared") with
            | None => Throw type_error
            | Some sh =>
                let scope := if truthy sh then LockManager.shared
                             else LockManager.exclusive in
                match ownerValue (or owner (VString (js "unknown"))) with
                | Some o => Ok (mkLockRequest o scope)
                | None => Throw type_error
                end
            end
        | _, _, _ => Throw type_error
        end
  end.

End WebDAVXML.

(* ===================================================================== *)
(** ** webdav/server.ts: the request handlers *)
(* ===================================================================== *)
Module WebDAVServer.
Import JS.

(** The part of an Express request the handlers read.  [req_body] is the
    buffer the raw-body middleware leaves for XML content types, [None]
    when it left none; [req_stream] is what the request stream delivers. *)
Record Request := mkRequest {
  req_path : jsstring;
  req_headers : gmap jsstring jsstring;
  req_body : option bytes;
  req_stream : bytes
}.

Inductive Body := NoBody | Text (s : jsstring) | Stream (b : bytes).

(** What the handler has written to [res] when it returns. *)
Record Response := mkResponse {
  status : Z;
  headers : list (jsstring * jsstring);
  body : Body
}.

(** [res.status(n).end()] *)
Definition end_ (n : Z) : Response := mkResponse n [] NoBody.

(** The clock reading of the request and the values [uuidv4()] returns,
    numbered by call site. *)
Record Env := mkEnv {
  now : Z;
  uuid : nat -> jsstring
}.

(** A header that is absent or empty is falsy. *)
Definition header (req : Request) (name : jsstring) : option jsstring :=
  match req_headers req !! name with
  | Some (c :: h) => Some (c :: h)
  | _ => None
  end.

(** [private extractLockToken(req)] *)
Definition extractLockToken (req : Request) : option jsstring :=
  match header req (js "lock-token") with
  | Some lockTokenHeader => Regex.opaquelocktoken lockTokenHeader
  | None =>
      match header req (js "if") with
      | Some ifHeader => Regex.opaquelocktoken ifHeader
      | None => None
      end
  end.

(** The three forms of [parseRangeHeader]: [-n], [a-] and [a-b], before the
    bounds are checked against the size. *)
Definition rangeBounds (startStr endStr : jsstring) (fileSize : Z)
  : option (Z * Z) :=
  match startStr, endStr with
  | [], [] => None
  | [], _ :: _ =>
      match parseInt endStr with
      | None => None
      | Some suffix =>
          if suffix <=? 0 then None
          else Some (Z.max 0 (fileSize - suffix), fileSize - 1)
      end
  | _ :: _, [] =>
      match parseInt startStr with
      | None => None
      | Some start =>
          if start <? 0 then None else Some (start, fileSize - 1)
      end
  | _ :: _, _ :: _ =>
      match parseInt startStr, parseInt endStr with
      | Some start, Some end_ =>
          if (start <? 0) || (end_ <? start) then None
          else Some (start, end_)
      | _, _ => None
      end
  end.

(** [private parseRangeHeader(rangeHeader, fileSize)] *)
Definition parseRangeHeader (rangeHeader : jsstring) (fileSize : Z)
  : option (Z * Z) :=
  match Regex.bytes_spec rangeHeader with
  | None => None
  | Some rangeSpec =>
      match indexOf rangeSpec HYPHEN with
      | None => None
      | Some hyphenIndex =>
          let startStr := substring rangeSpec 0 hyphenIndex in
          let endStr := substringFrom rangeSpec (hyphenIndex + 1) in
          match rangeBounds startStr endStr fileSize with
          | None => None
          | Some (start, end_) =>
              if fileSize <=? start then None
              else Some (start, Z.min end_ (fileSize - 1))
          end
      end
  end.

(** [private parseContentRange(contentRangeHeader)] *)
Definition parseContentRange (contentRangeHeader : jsstring) : option Range :=
  match Regex.content_range_total contentRangeHeader with
  | Some total => Some (mkRange 0 None (parseInt total))
  | None =>
      match Regex.content_range contentRangeHeader with
      | None => None
      | Some (g1, g2, g3) =>
          match parseInt g1, parseInt g2 with
          | Some start, Some end_ =>
              let total := if eqb g3 [STAR] then None else parseInt g3 in
              if (start <? 0) || (end_ <? start) then None
              else Some (mkRange start (Some end_) total)
          | _, _ => None
          end
      end
  end.

(** [private parseTimeout(timeoutHeader)] *)
Definition parseTimeout (timeoutHeader : option jsstring) : option Z :=
  match timeoutHeader with
  | None => None
  | Some h => Regex.second h ≫= parseInt
  end.

(** One row of the listing. *)
Definition listing_row (member : jsstring) : jsstring :=
  let name := or_else (default [] (pop (split SLASH member))) member in
  js "<tr><td><a href=" ++ [QUOTE] ++ member ++ [QUOTE] ++ js ">" ++ name
  ++ js "</a></td></tr>".

(** [private generateDirectoryListing(path, members)] *)
Definition generateDirectoryListing (path : jsstring) (members : list jsstring)
  : jsstring :=
  let title := js "Directory listing for " ++ path in
  let rows := join [NEWLINE] (map listing_row members) in
  js "
<!DOCTYPE html>
<html>
<head>
    <title>" ++ title ++ js "</title>
    <style>
        body { font-family: Arial, sans-serif; margin: 40px; }
        table { border-collapse: collapse; width: 100%; }
        th, td { text-align: left; padding: 8px; border-bottom: 1px solid #ddd; }
        a { text-decoration: none; color: #0066cc; }
        a:hover { text-decoration: underline; }
    </style>
</head>
<body>
    <h1>" ++ title ++ js "</h1>
    <table>
        <thead>
            <tr><th>Name</th></tr>
        </thead>
        <tbody>
            " ++ rows ++ js "
        </tbody>
    </table>
</body>
</html>".

Section Handlers.
Context {FS : Type} `{VirtualFileSystem FS}.

(** The XML library: [XMLParser.parse], and the text [XMLBuilder.build]
    gives for the [prop/lockdiscovery] answer that lists a lock. *)
Variable xml_parse : jsstring -> result WebDAVXML.jsval.
Variable xml_lock_response : LockManager.WebDAVLock -> result jsstring.

(** The fields of the server that the handlers use. *)
Record t := mk {
  filesystem : FS;
  lockManager : LockManager.t
}.

Definition fsE {A} (m : E FS A) : E t A :=
  fun s => let '(r, f) := m (filesystem s) in (r, mk f (lockManager s)).

Definition lm {A} (m : M LockManager.t A) : E t A :=
  fun s => let '(a, l) := m (lockManager s) in (Ok a, mk (filesystem s) l).

Definition ofResult {A} (r : result A) : E t A := ret r.

(** [this.normalizePath(req.path)], which throws where
    [decodeURIComponent] does. *)
Definition normalizePath (requestPath : jsstring) : E t jsstring :=
  match PathNormalizer.normalizePath requestPath with
  | Some p => retE p
  | None => throw (js "URI malformed")
  end.

(** [try { body } catch (error) { handler(error) }] *)
Definition try_catch {A} (body : E t A) (handler : jsstring -> E t A) : E t A :=
  fun s => match body s with
           | (Ok a, s') => (Ok a, s')
           | (Throw e, s') => handler e s'
           end.

(** [try { body } finally { cleanup }] *)
Definition try_finally {A} (body : E t A) (cleanup : E t unit) : E t A :=
  fun s => match body s with
           | (r, s') => match cleanup s' with
                        | (Ok _, s'') => (r, s'')
                        | (Throw e, s'') => (Throw e, s'')
                        end
           end.

Definition retry_later : Response :=
  mkResponse 503 [(js "Retry-After", js "1")] NoBody.

(** [private async handleGet(req, res)].  The response is returned when the
    stream is piped; the listeners it leaves on [finish] and [close] each
    call [releaseStreamLock(path)]. *)
Definition handleGet (env : Env) (req : Request) : E t Response :=
  let! path := normalizePath (req_path req) in
  let! ex := fsE (vfs_exists path) in
  if negb ex then retE (end_ 404)
  else
    let! type := fsE (vfs_getType path) in
    if bool_decide (type = Some collection) then
      let! members := fsE (vfs_getMembers path) in
      let html := generateDirectoryListing path members in
      retE (mkResponse 200 [(js "Content-Type", js "text/html")] (Text html))
    else
      let! locked := lm (LockManager.hasWebDAVLock (now env) path
                           (Some LockManager.exclusive)) in
      if locked then retE (end_ 423)
      else
        let! conflict := lm (LockManager.hasStreamingConflict path LockManager.read) in
        if conflict then retE retry_later
        else
          let! acquired := lm (LockManager.acquireStreamLock path LockManager.read None) in
          if negb acquired then retE retry_later
          else
            try_catch
              (let! size := fsE (vfs_getSize path) in
               let! etag := fsE (vfs_getEtag (uuid env 0) path) in
               match header req (js "range") with
               | Some rangeHeader =>
                   match parseRangeHeader rangeHeader size with
                   | None =>
                       retE (mkResponse 416
                               [(js "Content-Range", js "bytes */" ++ toString size);
                                (js "Accept-Ranges", js "bytes")] NoBody)
                   | Some (start, end_) =>
                       let contentLength := end_ - start + 1 in
                       let! stream :=
                         fsE (vfs_getStream path
                                (Some (mkRange start (Some end_) None))) in
                       retE (mkResponse 206
                               [(js "Content-Range",
                                 js "bytes " ++ toString start ++ js "-"
                                 ++ toString end_ ++ js "/" ++ toString size);
                                (js "Content-Length", toString contentLength);
                                (js "Accept-Ranges", js "bytes");
                                (js "ETag", etag)] (Stream stream))
                   end
               | None =>
                   let! stream := fsE (vfs_getStream path None) in
                   retE (mkResponse 200
                           [(js "Content-Length", toString size);
                            (js "ETag", etag);
                            (js "Accept-Ranges", js "bytes")] (Stream stream))
               end)
              (fun error =>
                 let! _ := lm (LockManager.releaseStreamLock path) in
                 throw error).

(** [private async handlePut(req, res)] *)
Definition handlePut (env : Env) (req : Request) : E t Response :=
  let! path := normalizePath (req_path req) in
  let lockToken := extractLockToken req in
  let! locked := lm (LockManager.hasWebDAVLock (now env) path None) in
  let! refused :=
    if locked then
      match lockToken with
      | None => retE true
      | Some tok =>
          let! valid := lm (LockManager.hasValidLockToken (now env) path tok) in
          retE (negb valid)
      end
    else retE false in
  if refused then retE (end_ 423)
  else
    let! conflict := lm (LockManager.hasStreamingConflict path LockManager.write) in
    if conflict then retE retry_later
    else
      let! acquired :=
        lm (LockManager.acquireStreamLock path LockManager.write lockToken) in
      if negb acquired then retE retry_later
      else
        let! ex := fsE (vfs_exists path) in
        let contentRange := header req (js "content-range") in
        let parsedRange := contentRange ≫= parseContentRange in
        if bool_decide (contentRange <> None) && bool_decide (parsedRange = None)
        then
          let! _ := lm (LockManager.releaseStreamLock path) in
          retE (mkResponse 416 [(js "Accept-Ranges", js "bytes")] NoBody)
        else
          let range := parsedRange in
          let stream := default (req_stream req) (req_body req) in
          try_finally
            (let! _ :=
               if negb ex && bool_decide (range = None) then
                 try_catch (fsE (vfs_create (now env) (uuid env 0) path file))
                   (fun _ => retE tt)
               else retE tt in
             let! _ := fsE (vfs_setStream (now env) (uuid env 1) path stream range) in
             let! etag := fsE (vfs_getEtag (uuid env 2) path) in
             retE (mkResponse (if ex then 204 else 201) [(js "ETag", etag)] NoBody))
            (lm (LockManager.releaseStreamLock path)).

(** [private async handleDelete(req, res)] *)
Definition handleDelete (env : Env) (req : Request) : E t Response :=
  let! path := normalizePath (req_path req) in
  let! ex := fsE (vfs_exists path) in
  if negb ex then retE (end_ 404)
  else if eqb path [SLASH] then retE (end_ 403)
  else
    let! locked := lm (LockManager.isLocked (now env) path None) in
    let! refused :=
      if locked then
        match extractLockToken req with
        | None => retE true
        | Some tok =>
            let! valid := lm (LockManager.hasValidLockToken (now env) path tok) in
            retE (negb valid)
        end
      else retE false in
    if refused then retE (end_ 423)
    else
      let! _ := fsE (vfs_delete path) in
      let! _ := lm (LockManager.removeLocksForPath path) in
      retE (end_ 204).

(** [private async handleMkCol(req, res)] *)
Definition handleMkCol (env : Env) (req : Request) : E t Response :=
  let! path := normalizePath (req_path req) in
  let! ex := fsE (vfs_exists path) in
  if ex then retE (end_ 405)
  else
    let! _ := fsE (vfs_create (now env) (uuid env 0) path collection) in
    retE (end_ 201).

(** [private async handleLock(req, res)] *)
Definition handleLock (env : Env) (req : Request) : E t Response :=
  let! path := normalizePath (req_path req) in
  let depth := default (js "infinity") (header req (js "depth")) in
  let timeout := parseTimeout (header req (js "timeout")) in
  let! ex := fsE (vfs_exists path) in
  if negb ex then retE (end_ 404)
  else
    let body := default [] (req_body req) in
    match body with
    | [] => retE (mkResponse 400 [] (Text (js "Lock request body required")))
    | _ :: _ =>
        let! parsed := ofResult (xml_parse body) in
        let! lockRequest := ofResult (WebDAVXML.parseLockRequest parsed) in
        try_catch
          (let! lock :=
             bindE (lm (LockManager.createLock (now env) (uuid env 0) path
                          (WebDAVXML.lr_owner lockRequest)
                          (WebDAVXML.lr_scope lockRequest) depth timeout))
               ofResult in
           let! xml := ofResult (xml_lock_response lock) in
           retE (mkResponse 200
                   [(js "Content-Type", js "application/xml; charset=utf-8");
                    (js "Lock-Token",
                     js "<opaquelocktoken:" ++ LockManager.token lock ++ js ">")]
                   (Text xml)))
          (fun error => retE (mkResponse 500 [] (Text error)))
    end.

(** The [catch] of the main request handler in [createMiddleware]. *)
Definition respond (handler : E t Response) : M t Response :=
  fun s => match handler s with
           | (Ok r, s') => (r, s')
           | (Throw e, s') => (mkResponse 500 [] (Text e), s')
           end.

End Handlers.

End WebDAVServer.

(* ===================================================================== *)
(** ** The lock rules in the words of the specification *)
(* ===================================================================== *)
Module LockRules.
Import JS LockManager.

(** The segments of a path. *)
Definition segments (p : jsstring) : list jsstring :=
  List.filter (fun part => (0 <? length part)%nat) (split SLASH p).

(** [L] is a proper ancestor of [P]: its segments are a proper prefix of
    those of [P], so [/a] is above [/a/b] and not above [/ab]. *)
Definition is_ancestor (L P : jsstring) : bool :=
  bool_decide (segments L `prefix_of` segments P)
  && negb (bool_decide (segments L = segments P)).

(** "A lock on path L with depth dL overlaps an operation on path P iff
    L == P, or (dL == infinity AND P is a descendant of L)." *)
Definition overlaps (lock : WebDAVLock) (P : jsstring) : bool :=
  eqb (path lock) P || (eqb (depth lock) infinity && is_ancestor (path lock) P).

(** "True iff token resolves to a non-expired lock whose path == path or
    whose path is an ancestor with depth infinity." *)
Definition spec_hasValidLockToken (now : Z) (lm : t) (p token : jsstring) : bool :=
  match locks lm !! token with
  | Some lock => negb (isExpired now lock) && overlaps lock p
  | None => false
  end.

(** The locks of the manager that have not expired. *)
Definition live_locks (now : Z) (lm : t) : list WebDAVLock :=
  List.filter (fun lock => negb (isExpired now lock))
    (map snd (map_to_list (locks lm))).

(** "Exclusive succeeds iff no overlapping lock exists.  Shared succeeds iff
    no overlapping exclusive lock exists." *)
Definition spec_canLock (now : Z) (lm : t) (p : jsstring) (sc : Scope) : bool :=
  match sc with
  | exclusive => forallb (fun lock => negb (overlaps lock p)) (live_locks now lm)
  | shared =>
      forallb (fun lock => negb (overlaps lock p
                                 && bool_decide (scope lock = exclusive)))
        (live_locks now lm)
  end.

(** Invariant (i): every token in [byPath[p]] resolves via [byToken] to a
    lock with [path == p]. *)
Definition inv_i (lm : t) : Prop :=
  forall p (S : gset jsstring) tok,
    pathLocks lm !! p = Some S -> tok ∈ S ->
    exists lock, locks lm !! tok = Some lock /\ path lock = p.

(** The token is listed in the secondary index. *)
Definition in_byPath (lm : t) (tok : jsstring) : Prop :=
  exists p (S : gset jsstring), pathLocks lm !! p = Some S /\ tok ∈ S.

(** Invariant (ii): a non-expired lock is in both indexes or in neither. *)
Definition inv_ii (now : Z) (lm : t) : Prop :=
  forall tok,
    (forall lock, locks lm !! tok = Some lock -> isExpired now lock = false ->
                  in_byPath lm tok)
    /\ (in_byPath lm tok -> is_Some (locks lm !! tok)).

(** The operations of the lock manager that change the indexes. *)
Inductive op :=
| CreateLock (now : Z) (tok path owner : jsstring) (scope : Scope)
    (depth : jsstring) (timeout : option Z)
| RefreshLock (now : Z) (tok : jsstring) (timeout : option Z)
| RemoveLock (tok : jsstring)
| GetLock (now : Z) (tok : jsstring)
| RemoveLocksForPath (path : jsstring)
| MoveLocksForPath (fromPath toPath : jsstring)
| CleanupExpiredLocks (now : Z).

Definition run (o : op) (lm : t) : t :=
  match o with
  | CreateLock now tok path owner scope depth timeout =>
      snd (createLock now tok path owner scope depth timeout lm)
  | RefreshLock now tok timeout => snd (refreshLock now tok timeout lm)
  | RemoveLock tok => snd (removeLock tok lm)
  | GetLock now tok => snd (getLock now tok lm)
  | RemoveLocksForPath path => snd (removeLocksForPath path lm)
  | MoveLocksForPath fromPath toPath => snd (moveLocksForPath fromPath toPath lm)
  | CleanupExpiredLocks now => snd (cleanupExpiredLocks now lm)
  end.

(** [uuidv4()] gives a token that no lock holds. *)
Definition fresh (o : op) (lm : t) : Prop :=
  match o with
  | CreateLock _ tok _ _ _ _ _ => locks lm !! tok = None
  | _ => True
  end.

(** The states a lock manager goes through. *)
Inductive reachable : t -> Prop :=
| reachable_new d : reachable (new d)
| reachable_run o lm : reachable lm -> fresh o lm -> reachable (run o lm).

End LockRules.


(* ===================================================================== *)
(** ** What the statements below speak of *)
(* ===================================================================== *)
Section PathShapes.
Import JS.

(** A path segment: not empty, no slash. *)
Definition seg (w : jsstring) : Prop := w <> [] /\ SLASH ∉ w.

(** A segment of a canonical path: neither [.] nor [..]. *)
Definition clean (w : jsstring) : Prop :=
  seg w /\ w <> [DOT] /\ w <> Posix.dotdot.

End PathShapes.

Section DecimalShapes.
Import JS.

(** The value of decimal digits given least significant first. *)
Fixpoint value_rev (l : jsstring) : Z :=
  match l with
  | [] => 0
  | c :: l' => digit_value c + 10 * value_rev l'
  end.

(** What may follow a number: nothing, or a character that is no digit. *)
Definition no_digit_ahead (r : jsstring) : Prop :=
  match r with
  | [] => True
  | c :: _ => is_digit c = false
  end.

End DecimalShapes.

Section LockPredicates.
Import JS LockManager LockRules.

(** A property of the manager that a method keeps. *)
Definition preserves {A} (P : LockManager.t -> Prop) (m : M LockManager.t A)
  : Prop :=
  forall s, P s -> P (snd (m s)).

(** Every lock of [byToken] is listed in [byPath] under its own path. *)
Definition indexed (lm : LockManager.t) : Prop :=
  forall tok lock,
    locks lm !! tok = Some lock ->
    exists S : gset jsstring, pathLocks lm !! path lock = Some S /\ tok ∈ S.

(** [indexed], computed. *)
Definition indexedb (lm : LockManager.t) : bool :=
  forallb (fun entry : jsstring * WebDAVLock =>
             match pathLocks lm !! path (snd entry) with
             | Some toks => bool_decide (fst entry ∈ toks)
             | None => false
             end)
    (map_to_list (locks lm)).

End LockPredicates.

Section RangeAnswers.
Import JS WebDAVServer.

(** The range headers that have no range in a file of [fileSize] bytes: not
    a [bytes=] header; no hyphen; nothing around the hyphen; a suffix
    length that is no number or not positive, or any suffix of an empty
    file; a start or an end that is no number; an end before the start; a
    start at or past the size.  A number is what [parseInt] reads. *)
Inductive unsatisfiable (fileSize : Z) (h : jsstring) : Prop :=
| not_bytes :
    Regex.bytes_spec h = None -> unsatisfiable fileSize h
| no_hyphen spec :
    Regex.bytes_spec h = Some spec -> indexOf spec HYPHEN = None ->
    unsatisfiable fileSize h
| only_hyphen :
    Regex.bytes_spec h = Some [HYPHEN] -> unsatisfiable fileSize h
| suffix_not_a_number b :
    Regex.bytes_spec h = Some (HYPHEN :: b) -> parseInt b = None ->
    unsatisfiable fileSize h
| suffix_not_positive b n :
    Regex.bytes_spec h = Some (HYPHEN :: b) -> parseInt b = Some n -> n <= 0 ->
    unsatisfiable fileSize h
| suffix_of_empty_file b :
    Regex.bytes_spec h = Some (HYPHEN :: b) -> fileSize <= 0 ->
    unsatisfiable fileSize h
| start_not_a_number a b :
    Regex.bytes_spec h = Some (a ++ HYPHEN :: b) ->
    Forall (fun d => N.eqb d HYPHEN = false) a -> a <> [] ->
    parseInt a = None -> unsatisfiable fileSize h
| end_not_a_number a b :
    Regex.bytes_spec h = Some (a ++ HYPHEN :: b) ->
    Forall (fun d => N.eqb d HYPHEN = false) a -> a <> [] -> b <> [] ->
    parseInt b = None -> unsatisfiable fileSize h
| end_before_start a b x y :
    Regex.bytes_spec h = Some (a ++ HYPHEN :: b) ->
    Forall (fun d => N.eqb d HYPHEN = false) a ->
    parseInt a = Some x -> parseInt b = Some y -> y < x ->
    unsatisfiable fileSize h
| start_past_size a b x :
    Regex.bytes_spec h = Some (a ++ HYPHEN :: b) ->
    Forall (fun d => N.eqb d HYPHEN = false) a -> a <> [] ->
    parseInt a = Some x -> fileSize <= x -> unsatisfiable fileSize h.

(** The header [bytes=a-b] written with [toString]. *)
Definition range_header (a b : Z) : jsstring :=
  js "bytes=" ++ toString a ++ js "-" ++ toString b.

(** The answer of GET to a range request when [parseRangeHeader] finds no
    range. *)
Definition range_not_satisfiable (size : Z) : Response :=
  mkResponse 416
    [(js "Content-Range", js "bytes */" ++ toString size);
     (js "Accept-Ranges", js "bytes")] NoBody.

(** The answer of GET to the range [start-end] of a file. *)
Definition partial_content (start end_ size : Z) (etag : jsstring)
  (data : bytes) : Response :=
  mkResponse 206
    [(js "Content-Range",
      js "bytes " ++ toString start ++ js "-" ++ toString end_ ++ js "/"
      ++ toString size);
     (js "Content-Length", toString (end_ - start + 1));
     (js "Accept-Ranges", js "bytes");
     (js "ETag", etag)]
    (Stream (take (Z.to_nat (end_ + 1 - start)) (drop (Z.to_nat start) data))).

End RangeAnswers.

(* ===================================================================== *)
(** ** Servers and requests to run the handlers on *)
(* ===================================================================== *)
Section Fixtures.
Import JS LockManager LockRules.

(** A manager that holds one exclusive depth-infinity lock on [/a], taken
    at time 0 for 60 seconds. *)
Definition lm_a : LockManager.t :=
  run (CreateLock 0 (js "t1") (js "/a") (js "u") exclusive infinity (Some 60))
    (LockManager.new None).

(** The same, after a second lock was taken on [/b] and the locks of [/a]
    were moved to [/b]. *)
Definition lm_moved : LockManager.t :=
  run (MoveLocksForPath (js "/a") (js "/b"))
    (run (CreateLock 0 (js "t2") (js "/b") (js "u") exclusive infinity (Some 60))
       lm_a).

(** A request environment: the clock at 1000 ms, one uuid. *)
Definition env0 : WebDAVServer.Env := WebDAVServer.mkEnv 1000 (fun _ => js "uuid").

(** A server over an empty volume, with no lock. *)
Definition st_empty : @WebDAVServer.t MemoryFileSystem.t :=
  WebDAVServer.mk (MemoryFileSystem.new 0 (js "root")) (LockManager.new None).

(** A request with the given path, headers, buffered body and stream. *)
Definition request (path : string) (hs : list (jsstring * jsstring))
  (body : option bytes) (stream : bytes) : WebDAVServer.Request :=
  WebDAVServer.mkRequest (js path) (list_to_map hs) body stream.

(** The volume holds the collection [/a] and the file [/a/b]; no lock. *)
Definition st_tree : @WebDAVServer.t MemoryFileSystem.t :=
  snd (WebDAVServer.handlePut env0 (request "/a/b" [] None (js "hi")) st_empty).

(** The volume holds the file [/f] with the five bytes of "hello". *)
Definition st_file : @WebDAVServer.t MemoryFileSystem.t :=
  snd (WebDAVServer.handlePut env0 (request "/f" [] None (js "hello")) st_empty).

(** The lock manager of a server replaced by what an operation leaves. *)
Definition with_lock (o : op) (st : @WebDAVServer.t MemoryFileSystem.t)
  : @WebDAVServer.t MemoryFileSystem.t :=
  WebDAVServer.mk (WebDAVServer.filesystem st) (run o (WebDAVServer.lockManager st)).

(** [st_tree] with an exclusive lock on the collection [/a]. *)
Definition st_locked_a : @WebDAVServer.t MemoryFileSystem.t :=
  with_lock (CreateLock 0 (js "t0") (js "/a") (js "u") exclusive infinity (Some 3600))
    st_tree.

(** [st_tree] with an exclusive lock on the file [/a/b]. *)
Definition st_locked_ab : @WebDAVServer.t MemoryFileSystem.t :=
  with_lock (CreateLock 0 (js "t1") (js "/a/b") (js "u") exclusive depth0 (Some 3600))
    st_tree.

(** [st_locked_a], whose collection [/a] holds an exclusive depth-infinity
    lock, with a write stream active on [/a] as well. *)
Definition st_busy_a : @WebDAVServer.t MemoryFileSystem.t :=
  WebDAVServer.mk (WebDAVServer.filesystem st_locked_a)
    (LockManager.set_activeStreams
       (<[js "/a" := LockManager.mkStream LockManager.write 1 None]>)
       (WebDAVServer.lockManager st_locked_a)).

(** The lockinfo document of the integration test as the XML parser
    returns it: an exclusive write lock owned by "Integration Test". *)
Definition lockinfo_parsed : WebDAVXML.jsval :=
  WebDAVXML.VObject
    [(js "d:lockinfo",
      WebDAVXML.VObject
        [(js "d:lockscope",
          WebDAVXML.VObject [(js "d:exclusive", WebDAVXML.VString [])]);
         (js "d:locktype",
          WebDAVXML.VObject [(js "d:write", WebDAVXML.VString [])]);
         (js "d:owner", WebDAVXML.VString (js "Integration Test"))])].

(** A parser that reads every body as that document. *)
Definition parse_lockinfo (xml : jsstring) : result WebDAVXML.jsval :=
  Ok lockinfo_parsed.

(** A builder that answers every lock with the same text. *)
Definition build_prop (lock : LockManager.WebDAVLock) : result jsstring :=
  Ok (js "<d:prop/>").

(** A LOCK request on [/a/b] that carries a body. *)
Definition lock_request : WebDAVServer.Request :=
  request "/a/b" [(js "timeout", js "Second-60")] (Some (js "<d:lockinfo/>")) [].

End Fixtures.

Section LiveLocks.
Import JS LockManager.

(** The lock a token resolves to at the clock reading [now], when it has
    not expired. *)
Definition live (now : Z) (lm : LockManager.t) (tok : jsstring)
  : option WebDAVLock :=
  match locks lm !! tok with
  | Some lock => if isExpired now lock then None else Some lock
  | None => None
  end.

(** The token is in the set that [pathLocks] holds for the path. *)
Definition listed (lm : LockManager.t) (p tok : jsstring) : Prop :=
  exists S : gset jsstring, pathLocks lm !! p = Some S /\ tok ∈ S.

(** [lm'] is [lm] with some locks that had expired at [now] removed from
    the two indexes, and nothing else changed. *)
Definition pruned (now : Z) (lm lm' : LockManager.t) : Prop :=
  (forall tok, locks lm' !! tok = locks lm !! tok
               \/ (locks lm' !! tok = None /\ live now lm tok = None)) /\
  (forall p tok, listed lm' p tok -> listed lm p tok) /\
  (forall p tok, listed lm p tok -> is_Some (live now lm tok) -> listed lm' p tok) /\
  activeStreams lm' = activeStreams lm /\
  defaultTimeout lm' = defaultTimeout lm.

End LiveLocks.

Section LockInvariants.
Import JS LockManager.

(** An exclusive lock is the only token of the set that lists it. *)
Definition exclusive_alone (lm : LockManager.t) : Prop :=
  forall p (S : gset jsstring) tok lock,
    pathLocks lm !! p = Some S -> tok ∈ S ->
    locks lm !! tok = Some lock -> scope lock = exclusive ->
    S = {[ tok ]}.

(** Every stream entry counts at least one stream, and a write stream
    exactly one. *)
Definition streams_counted (lm : LockManager.t) : Prop :=
  forall p a,
    activeStreams lm !! p = Some a ->
    1 <= count a /\ (type a = write -> count a = 1).

End LockInvariants.

Section ReachableNormal.
Import JS LockManager LockRules.

(** The path given to [createLock] does not end with two slashes, so that
    [normalizePath] gives back what it returned. *)
Definition normal_path (o : op) : Prop :=
  match o with
  | CreateLock _ _ path _ _ _ _ => endsWith path [SLASH; SLASH] = false
  | _ => True
  end.

(** The states a lock manager goes through when it is given such paths. *)
Inductive reachable_normal : LockManager.t -> Prop :=
| reachable_normal_new d : reachable_normal (LockManager.new d)
| reachable_normal_run o lm :
    reachable_normal lm -> fresh o lm -> normal_path o ->
    reachable_normal (run o lm).

End ReachableNormal.

(* ===================================================================== *)
(** ** MemoryFileSystem: copying, moving and the property store *)
(* ===================================================================== *)
Module MemoryFs.
Import JS MemoryFileSystem.

(** [for (const x of l) f(x)] where [f] may throw. *)
Fixpoint forE_ {S A} (f : A -> E S unit) (l : list A) : E S unit :=
  match l with
  | [] => retE tt
  | x :: l' => let! _ := f x in forE_ f l'
  end.

(** [private copyRecursive(from, to)].  [fuel] bounds the depth of the
    recursion, as the call stack does: the copy of a collection into
    itself finds what it has just copied and does not stop by itself. *)
Fixpoint copyRecursive (fuel : nat) (from to : jsstring) : E MemFs.vol unit :=
  match fuel with
  | O => throw (js "Maximum call stack size exceeded")
  | S fuel' =>
      let! _ := MemFs.mkdirSync_recursive to in
      let! items := fun v => (MemFs.readdirSync from v, v) in
      forE_ (fun item =>
               let srcPath := Posix.join2 from item in
               let destPath := Posix.join2 to item in
               let! isDir := fun v => (MemFs.isDirectory srcPath v, v) in
               if isDir then copyRecursive fuel' srcPath destPath
               else
                 let! data := fun v => (MemFs.readFileSync srcPath v, v) in
                 MemFs.writeFileSync destPath data)
        items
  end.

(** [copy(from, to)] *)
Definition copy (now : Z) (uuid : jsstring) (fuel : nat) (from to : jsstring)
  : E t unit :=
  fun s =>
    if negb (MemFs.existsSync from (fs s)) then
      (Throw (js "Source path does not exist: " ++ from), s)
    else
      (let! isDir := readFs (MemFs.isDirectory from) in
       let! _ :=
         if isDir then liftFs (copyRecursive fuel from to)
         else
           let parentDir := Posix.dirname to in
           let! _ := liftFs (MemFs.mkdirSync_recursive parentDir) in
           let! data := readFs (MemFs.readFileSync from) in
           liftFs (MemFs.writeFileSync to data) in
       fun s =>
         match properties s !! from with
         | Some sourceProps =>
             let newProps :=
               <[js "created" := PDate now]>
                 (<[js "etag" := PString (generateEtag uuid)]> sourceProps) in
             (Ok tt, mk (fs s) (<[to := newProps]> (properties s)))
         | None => (Ok tt, s)
         end) s.

(** [move(from, to)] *)
Definition move (now : Z) (uuid : jsstring) (fuel : nat) (from to : jsstring)
  : E t unit :=
  let! _ := copy now uuid fuel from to in
  MemoryFileSystem.delete from.

(** [getProperty(filePath, property)]; [None] is [undefined]. *)
Definition getProperty (filePath property : jsstring) : E t (option propval) :=
  fun s => (Ok (getPropertyInternal filePath property s), s).

(** [setProperty(filePath, property, value)] *)
Definition setProperty (filePath property : jsstring) (value : propval)
  : E t unit :=
  setPropertyInternal filePath property value.

(** [removeProperty(filePath, property)] *)
Definition removeProperty (filePath property : jsstring) : E t unit :=
  fun s =>
    match properties s !! filePath with
    | Some pathProps =>
        if bool_decide (is_Some (pathProps !! property)) then
          let pathProps := base.delete property pathProps in
          if bool_decide (size pathProps = 0%nat)
          then (Ok tt, mk (fs s) (base.delete filePath (properties s)))
          else (Ok tt, mk (fs s) (<[filePath := pathProps]> (properties s)))
        else (Ok tt, s)
    | None => (Ok tt, s)
    end.

End MemoryFs.

Section FileSystemShapes.

(** A file can be written at the segments [L ++ [w]] of the volume: the
    root is a directory, no file stands where a parent directory is
    needed, and the target is not a directory. *)
Definition writable (v : MemFs.vol) (L : list jsstring) (w : jsstring) : Prop :=
  v !! [] = Some MemFs.Dir /\
  (forall j data, (1 <= j <= length L)%nat ->
                  v !! take j L <> Some (MemFs.File data)) /\
  v !! (L ++ [w]) <> Some MemFs.Dir.

(** The canonical path with the given segments. *)
Definition path_of (L : list jsstring) : jsstring :=
  JS.SLASH :: JS.join [JS.SLASH] L.

End FileSystemShapes.

(* ===================================================================== *)
(** ** webdav/server.ts: authentication, COPY, MOVE and UNLOCK *)
(* ===================================================================== *)
Module WebDAVMethods.
Import JS WebDAVServer.

Definition COLON : N := 58.

(** [WebDAVUser] and the fields of [WebDAVOptions] that the constructor
    reads; [None] is a field left out. *)
Record WebDAVUser := mkUser {
  username : jsstring;
  password : jsstring
}.

Record WebDAVOptions := mkOptions {
  realm : option jsstring;
  users : option (list WebDAVUser);
  lockTimeout : option Z;
  authentication : option bool
}.

(** The [users] map the constructor leaves. *)
Definition users_of (options : WebDAVOptions) : gmap jsstring jsstring :=
  let users :=
    if bool_decide (authentication options <> Some false) then
      match WebDAVMethods.users options with
      | Some l => foldl (fun m user => <[username user := password user]> m) ∅ l
      | None => ∅
      end
    else ∅ in
  if bool_decide (authentication options = Some false) then ∅ else users.

(** [options.realm || 'WebDAV Server'] *)
Definition realm_of (options : WebDAVOptions) : jsstring :=
  match realm options with
  | Some (c :: r) => c :: r
  | _ => js "WebDAV Server"
  end.

(** The lock manager the constructor makes. *)
Definition lockManager_of (options : WebDAVOptions) : LockManager.t :=
  LockManager.new (lockTimeout options).

(** [private sendAuthChallenge(res)] *)
Definition sendAuthChallenge (realm : jsstring) : Response :=
  mkResponse 401
    [(js "WWW-Authenticate", js "Basic realm=" ++ [QUOTE] ++ realm ++ [QUOTE])]
    (Text (js "Unauthorized")).

Section Authentication.

(** [Buffer.from(s, 'base64').toString()] *)
Variable base64_decode : jsstring -> jsstring.

(** The Basic authentication middleware of [createMiddleware]: [None] is
    the call of [next()].  It is installed only when [users] is not
    empty. *)
Definition authenticate (users : gmap jsstring jsstring) (realm : jsstring)
  (req : Request) : option Response :=
  if bool_decide (0 < size users)%nat then
    match header req (js "authorization") with
    | None => Some (sendAuthChallenge realm)
    | Some auth =>
        if negb (startsWith auth (js "Basic ")) then Some (sendAuthChallenge realm)
        else
          let credentials := base64_decode (drop 6 auth) in
          match split COLON credentials with
          | (c :: u) :: (d :: p) :: _ =>
              let username := c :: u in
              let password := d :: p in
              match users !! username with
              | Some (e :: s) =>
                  if negb (eqb (e :: s) password)
                  then Some (sendAuthChallenge realm)
                  else None
              | _ => Some (sendAuthChallenge realm)
              end
          | _ => Some (sendAuthChallenge realm)
          end
    end
  else None.

End Authentication.

(** [copy] and [move] of [interface VirtualFileSystem], with the clock
    reading and the [uuidv4()] value an implementation may draw. *)
Class VirtualFileSystemCopy (FS : Type) := {
  vfs_copy : Z -> jsstring -> jsstring -> jsstring -> E FS unit;
  vfs_move : Z -> jsstring -> jsstring -> jsstring -> E FS unit
}.

(** The in-memory file system, with the depth its recursion can reach. *)
Definition memory_copy (fuel : nat) : VirtualFileSystemCopy MemoryFileSystem.t := {|
  vfs_copy now uuid := MemoryFs.copy now uuid fuel;
  vfs_move now uuid := MemoryFs.move now uuid fuel
|}.

Section Handlers.
Context {FS : Type} `{VirtualFileSystem FS} `{VirtualFileSystemCopy FS}.

(** [new URL(destination).pathname]; [None] when the constructor throws. *)
Variable url_pathname : jsstring -> option jsstring.

(** [private handleOptions(req, res)] *)
Definition handleOptions (req : Request) : E (@WebDAVServer.t FS) Response :=
  retE (mkResponse 200
          [(js "DAV", js "1, 2");
           (js "Allow",
            js "OPTIONS, GET, HEAD, POST, PUT, DELETE, TRACE, PROPFIND, PROPPATCH, COPY, MOVE, LOCK, UNLOCK");
           (js "MS-Author-Via", js "DAV");
           (js "Accept-Ranges", js "bytes");
           (js "Cache-Control", js "no-cache");
           (js "Server", js "WebDAV/1.0")] NoBody).

(** The destination path of COPY and MOVE: the normalized path name of
    the Destination URL, or the 400 answer. *)
Definition destination (req : Request) : Response + jsstring :=
  match header req (js "destination") with
  | None => inl (mkResponse 400 [] (Text (js "Destination header required")))
  | Some destination =>
      match url_pathname destination ≫= PathNormalizer.normalizePath with
      | Some destPath => inr destPath
      | None => inl (mkResponse 400 [] (Text (js "Invalid destination URL")))
      end
  end.

(** [req.headers.overwrite !== 'F'] *)
Definition overwrite (req : Request) : bool :=
  negb (bool_decide (req_headers req !! js "overwrite" = Some (js "F"))).

(** [private async handleCopy(req, res)] *)
Definition handleCopy (env : Env) (req : Request)
  : E (@WebDAVServer.t FS) Response :=
  let! sourcePath := normalizePath (req_path req) in
  match destination req with
  | inl bad => retE bad
  | inr destPath =>
      let! ex := fsE (vfs_exists sourcePath) in
      if negb ex then retE (end_ 404)
      else
        let! exists_ := fsE (vfs_exists destPath) in
        if exists_ && negb (overwrite req) then retE (end_ 412)
        else
          let! _ := fsE (vfs_copy (now env) (uuid env 0) sourcePath destPath) in
          retE (end_ (if exists_ then 204 else 201))
  end.

(** [private async handleMove(req, res)] *)
Definition handleMove (env : Env) (req : Request)
  : E (@WebDAVServer.t FS) Response :=
  let! sourcePath := normalizePath (req_path req) in
  match destination req with
  | inl bad => retE bad
  | inr destPath =>
      let! ex := fsE (vfs_exists sourcePath) in
      if negb ex then retE (end_ 404)
      else
        let! locked := lm (LockManager.isLocked (now env) sourcePath None) in
        let! refused :=
          if locked then
            match extractLockToken req with
            | None => retE true
            | Some tok =>
                let! valid :=
                  lm (LockManager.hasValidLockToken (now env) sourcePath tok) in
                retE (negb valid)
            end
          else retE false in
        if refused then retE (end_ 423)
        else
          let! exists_ := fsE (vfs_exists destPath) in
          if exists_ && negb (overwrite req) then retE (end_ 412)
          else
            let! _ := fsE (vfs_move (now env) (uuid env 0) sourcePath destPath) in
            let! _ := lm (LockManager.moveLocksForPath sourcePath destPath) in
            retE (end_ (if exists_ then 204 else 201))
  end.

(** [private async handleUnlock(req, res)] *)
Definition handleUnlock (env : Env) (req : Request)
  : E (@WebDAVServer.t FS) Response :=
  let! path := normalizePath (req_path req) in
  match extractLockToken req with
  | None => retE (mkResponse 400 [] (Text (js "Lock-Token header required")))
  | Some lockToken =>
      let! ex := fsE (vfs_exists path) in
      if negb ex then retE (end_ 404)
      else
        let! valid := lm (LockManager.hasValidLockToken (now env) path lockToken) in
        if negb valid then retE (end_ 409)
        else
          let! removed := lm (LockManager.removeLock lockToken) in
          retE (end_ (if removed then 204 else 409))
  end.

End Handlers.

End WebDAVMethods.

Section AuthenticationFixtures.
Import JS.

(** [Buffer.from(s, 'base64').toString()] on the base64 text of the two
    credentials [admin:changeme] and [bob:a:b]. *)
Definition decode_two (s : jsstring) : jsstring :=
  if eqb s (js "YWRtaW46Y2hhbmdlbWU=") then js "admin:changeme"
  else if eqb s (js "Ym9iOmE6Yg==") then js "bob:a:b"
  else [].

End AuthenticationFixtures.

(* ===================================================================== *)
(** ** Facts about the string built-ins *)
(* ===================================================================== *)
Section StringFacts.
Import JS.

Lemma eqb_true (a b : jsstring) : eqb a b = true <-> a = b.
Proof. unfold eqb. apply bool_decide_eq_true. Qed.

Lemma eqb_false (a b : jsstring) : eqb a b = false <-> a <> b.
Proof. unfold eqb. apply bool_decide_eq_false. Qed.

Lemma split_not_nil c s : split c s <> [].
Proof.
  destruct s as [|d s]; simpl; [discriminate|].
  destruct (N.eqb d c); [discriminate|].
  destruct (split c s); discriminate.
Qed.

Lemma join_cons sep w v ws :
  join sep (w :: v :: ws) = w ++ sep ++ join sep (v :: ws).
Proof. reflexivity. Qed.

Lemma join_cons_ne sep w ws :
  ws <> [] -> join sep (w :: ws) = w ++ sep ++ join sep ws.
Proof. destruct ws; [congruence | reflexivity]. Qed.

Lemma join_split c s : join [c] (split c s) = s.
Proof.
  induction s as [|d s IH]; [reflexivity|].
  pose proof (split_not_nil c s) as Hn.
  cbn [split]. destruct (N.eqb_spec d c) as [->|Hne].
  - rewrite join_cons_ne by exact Hn. rewrite IH. reflexivity.
  - destruct (split c s) as [|v ws]; [congruence|].
    destruct ws as [|v' ws].
    + cbn in *. congruence.
    + rewrite join_cons. rewrite join_cons in IH.
      rewrite <- IH. reflexivity.
Qed.

Lemma split_no_sep c s : Forall (fun w => c ∉ w) (split c s).
Proof.
  induction s as [|d s IH]; cbn [split].
  - repeat constructor. apply not_elem_of_nil.
  - destruct (N.eqb_spec d c) as [->|Hne].
    + constructor; [apply not_elem_of_nil | exact IH].
    + destruct (split c s) as [|v ws].
      * repeat constructor. intros Hin%list_elem_of_singleton. congruence.
      * inversion IH; subst. constructor; [|assumption].
        intros [Heq|Hin]%elem_of_cons; [congruence | contradiction].
Qed.

Lemma split_word c w : c ∉ w -> split c w = [w].
Proof.
  induction w as [|d w IH]; intros Hc; cbn [split]; [reflexivity|].
  apply not_elem_of_cons in Hc as [Hcd Hc].
  destruct (N.eqb_spec d c) as [->|Hne]; [congruence|].
  rewrite IH by exact Hc. reflexivity.
Qed.

Lemma split_app_sep c w s :
  c ∉ w -> split c (w ++ c :: s) = w :: split c s.
Proof.
  induction w as [|d w IH]; intros Hc; cbn [split app].
  - rewrite N.eqb_refl. reflexivity.
  - apply not_elem_of_cons in Hc as [Hcd Hc].
    destruct (N.eqb_spec d c) as [->|Hne]; [congruence|].
    rewrite IH by exact Hc. reflexivity.
Qed.

Lemma split_join c ws :
  ws <> [] -> Forall (fun w => c ∉ w) ws -> split c (join [c] ws) = ws.
Proof.
  induction ws as [|w ws IH]; intros Hn Hall; [congruence|].
  inversion Hall as [|? ? Hw Hws]; subst.
  destruct ws as [|v ws].
  - cbn [join]. apply split_word. exact Hw.
  - rewrite join_cons.
    change ([c] ++ join [c] (v :: ws)) with (c :: join [c] (v :: ws)).
    rewrite split_app_sep by exact Hw.
    f_equal. apply IH; [discriminate | exact Hws].
Qed.

Lemma startsWith_cons c s : startsWith (c :: s) [c] = true.
Proof. cbn [startsWith]. rewrite N.eqb_refl. reflexivity. Qed.

Lemma startsWith_slash_inv s :
  startsWith s [SLASH] = true -> exists s', s = SLASH :: s'.
Proof.
  destruct s as [|d s]; cbn [startsWith]; [discriminate|].
  rewrite andb_true_r. intros H%N.eqb_eq. subst. eauto.
Qed.

Lemma endsWith_snoc s d c : endsWith (s ++ [d]) [c] = N.eqb c d.
Proof.
  unfold endsWith. rewrite rev_app_distr. cbn [rev app startsWith].
  apply andb_true_r.
Qed.

Lemma removelast_snoc (s : jsstring) d : removelast (s ++ [d]) = s.
Proof. apply removelast_last. Qed.

End StringFacts.

(* ===================================================================== *)
(** ** The path normalizer: canonical form and idempotence *)
(* ===================================================================== *)
Section NormalizerFacts.
Import JS.

Lemma seg_of_clean L : Forall clean L -> Forall seg L.
Proof. intros Hc. eapply Forall_impl; [exact Hc|]. intros ? [H _]. exact H. Qed.

Lemma no_slash_of_seg L : Forall seg L -> Forall (fun w => SLASH ∉ w) L.
Proof. intros Hc. eapply Forall_impl; [exact Hc|]. intros ? [_ H]. exact H. Qed.

Lemma seg_dotdot : seg Posix.dotdot.
Proof.
  split; [discriminate|].
  intros H. repeat (apply elem_of_cons in H as [H|H]; [discriminate|]).
  apply elem_of_nil in H. exact H.
Qed.

Lemma seg_dot : seg [DOT].
Proof.
  split; [discriminate|].
  intros H. repeat (apply elem_of_cons in H as [H|H]; [discriminate|]).
  apply elem_of_nil in H. exact H.
Qed.

Lemma normalizeString_seg_out a segs : forall res,
  Forall (fun w => SLASH ∉ w) segs -> Forall seg res ->
  Forall seg (Posix.normalizeString a res segs).
Proof.
  induction segs as [|s segs IH]; intros res Hs Hres; cbn [Posix.normalizeString].
  - apply Forall_rev. exact Hres.
  - inversion Hs as [|? ? Hs1 Hs2]; subst.
    destruct (eqb s [] || eqb s [DOT]) eqn:E1; [apply IH; assumption|].
    apply orb_false_iff in E1 as [E1 E2]. apply eqb_false in E1.
    destruct (eqb s Posix.dotdot) eqn:E3.
    + destruct res as [|top res'].
      * apply IH; [assumption|]. destruct a; repeat constructor; apply seg_dotdot.
      * inversion Hres; subst.
        destruct (eqb top Posix.dotdot); [|apply IH; assumption].
        apply IH; [assumption|]. destruct a; [|assumption].
        constructor; [apply seg_dotdot | assumption].
    + apply IH; [assumption|]. constructor; [|assumption]. split; assumption.
Qed.

Lemma normalizeString_clean_out segs : forall res,
  Forall (fun w => SLASH ∉ w) segs -> Forall clean res ->
  Forall clean (Posix.normalizeString false res segs).
Proof.
  induction segs as [|s segs IH]; intros res Hs Hres; cbn [Posix.normalizeString].
  - apply Forall_rev. exact Hres.
  - inversion Hs as [|? ? Hs1 Hs2]; subst.
    destruct (eqb s [] || eqb s [DOT]) eqn:E1; [apply IH; assumption|].
    apply orb_false_iff in E1 as [E1 E2].
    apply eqb_false in E1. apply eqb_false in E2.
    destruct (eqb s Posix.dotdot) eqn:E3.
    + destruct res as [|top res']; [apply IH; [assumption|constructor]|].
      inversion Hres; subst.
      destruct (eqb top Posix.dotdot); apply IH; assumption.
    + apply eqb_false in E3. apply IH; [assumption|].
      constructor; [|assumption]. repeat split; assumption.
Qed.

Lemma normalizeString_clean_id a segs : forall res,
  Forall clean segs -> Posix.normalizeString a res segs = rev res ++ segs.
Proof.
  induction segs as [|s segs IH]; intros res Hs; cbn [Posix.normalizeString].
  - rewrite app_nil_r. reflexivity.
  - inversion Hs as [|? ? ((H1 & H4) & H2 & H3) Hs2]; subst.
    apply eqb_false in H1. apply eqb_false in H2. apply eqb_false in H3.
    rewrite H1, H2, H3. cbn [orb].
    rewrite IH by assumption. cbn [rev]. rewrite <- app_assoc. reflexivity.
Qed.

(** A joined list of segments ends with a character that is not a slash,
    and starts with one. *)
Lemma join_seg_snoc L :
  L <> [] -> Forall seg L ->
  exists s' x, join [SLASH] L = s' ++ [x] /\ x <> SLASH.
Proof.
  induction L as [|w L IH]; intros Hn Hall; [congruence|].
  inversion Hall as [|? ? (H1 & H4) HL]; subst.
  destruct L as [|v L].
  - cbn [join]. destruct (exists_last H1) as (s' & x & ->).
    exists s', x. split; [reflexivity|].
    intros ->. apply H4. apply elem_of_app. right. apply list_elem_of_singleton.
    reflexivity.
  - destruct IH as (s' & x & Hj & Hx); [discriminate | assumption |].
    rewrite join_cons, Hj. exists (w ++ [SLASH] ++ s'), x.
    split; [|assumption]. rewrite <- !app_assoc. reflexivity.
Qed.

Lemma join_seg_head L :
  L <> [] -> Forall seg L ->
  exists x s', join [SLASH] L = x :: s' /\ x <> SLASH.
Proof.
  intros Hn Hall. destruct L as [|w L]; [congruence|].
  inversion Hall as [|? ? (H1 & H4) HL]; subst.
  destruct w as [|x w]; [congruence|].
  exists x. destruct L as [|v L]; cbn [join app]; eexists; (split; [reflexivity|]);
    intros ->; apply H4; apply elem_of_cons; left; reflexivity.
Qed.

Lemma ensure_leading_slash_absolute r :
  PathNormalizer.ensure_leading_slash (SLASH :: r) = SLASH :: r.
Proof.
  unfold PathNormalizer.ensure_leading_slash. rewrite startsWith_cons.
  reflexivity.
Qed.

Lemma strip_trailing_slash_canonical L :
  Forall seg L ->
  PathNormalizer.strip_trailing_slash (SLASH :: join [SLASH] L)
  = SLASH :: join [SLASH] L.
Proof.
  intros Hc. unfold PathNormalizer.strip_trailing_slash.
  destruct L as [|w L']; [reflexivity|].
  destruct (join_seg_snoc (w :: L')) as (s' & x & Hj & Hx);
    [discriminate | exact Hc |].
  rewrite Hj. change (SLASH :: s' ++ [x]) with ((SLASH :: s') ++ [x]).
  rewrite endsWith_snoc.
  destruct (N.eqb_spec SLASH x) as [E|_]; [congruence|].
  rewrite andb_false_r. reflexivity.
Qed.

Lemma strip_trailing_slash_trailing L :
  L <> [] ->
  PathNormalizer.strip_trailing_slash (SLASH :: join [SLASH] L ++ [SLASH])
  = SLASH :: join [SLASH] L.
Proof.
  intros Hn. unfold PathNormalizer.strip_trailing_slash, slice_0_m1.
  change (SLASH :: join [SLASH] L ++ [SLASH])
    with ((SLASH :: join [SLASH] L) ++ [SLASH]).
  rewrite endsWith_snoc, N.eqb_refl, removelast_snoc, andb_true_r.
  assert (Hlen : (1 <? length ((SLASH :: join [SLASH] L) ++ [SLASH]))%nat = true).
  { apply Nat.ltb_lt. rewrite length_app. cbn [length]. lia. }
  rewrite Hlen. reflexivity.
Qed.

Lemma filter_clean L :
  Forall clean L -> filter (fun segment => segment <> Posix.dotdot) L = L.
Proof.
  induction 1 as [|w L (H1 & H2 & H3) HL IH]; [reflexivity|].
  rewrite filter_cons_True by exact H3. rewrite IH. reflexivity.
Qed.

(** Dropping the [..] segments of a path made of segments. *)
Lemma strip_dotdot_segments L :
  Forall seg L ->
  PathNormalizer.strip_dotdot (SLASH :: join [SLASH] L) = SLASH :: join [SLASH] L
  \/ PathNormalizer.strip_dotdot (SLASH :: join [SLASH] L)
     = SLASH :: join [SLASH] (filter (fun segment => segment <> Posix.dotdot) L).
Proof.
  intros Hc. unfold PathNormalizer.strip_dotdot.
  destruct (includes (SLASH :: join [SLASH] L) Posix.dotdot); [right | left; reflexivity].
  destruct L as [|w L']; [reflexivity|].
  cbn [split]. rewrite N.eqb_refl.
  rewrite split_join; [| discriminate | apply no_slash_of_seg; exact Hc].
  rewrite filter_cons_True by discriminate.
  destruct (filter (fun segment => segment <> Posix.dotdot) (w :: L')) as [|v F];
    reflexivity.
Qed.

Lemma strip_dotdot_canonical L :
  Forall clean L ->
  PathNormalizer.strip_dotdot (SLASH :: join [SLASH] L) = SLASH :: join [SLASH] L.
Proof.
  intros Hc.
  destruct (strip_dotdot_segments L (seg_of_clean L Hc)) as [E|E]; rewrite E;
    [reflexivity|].
  rewrite filter_clean by exact Hc. reflexivity.
Qed.

(** After the slash is put in front, the normalized path is a slash, the
    segments joined, and maybe one more slash. *)
Lemma normalize_segments d :
  exists L, Forall seg L /\
    (startsWith d [SLASH] = true -> Forall clean L) /\
    (PathNormalizer.ensure_leading_slash (Posix.normalize d)
       = SLASH :: join [SLASH] L
     \/ (L <> [] /\
         PathNormalizer.ensure_leading_slash (Posix.normalize d)
           = SLASH :: join [SLASH] L ++ [SLASH])).
Proof.
  destruct d as [|c d'].
  { exists [[DOT]]. split; [repeat constructor; apply seg_dot|].
    split; [discriminate | left; reflexivity]. }
  set (d := c :: d').
  set (abs := startsWith d [SLASH]).
  set (L := Posix.normalizeString (negb abs) [] (split SLASH d)).
  assert (Hseg : Forall seg L).
  { apply normalizeString_seg_out; [apply split_no_sep | constructor]. }
  assert (Hclean : abs = true -> Forall clean L).
  { intros E. subst L. rewrite E. apply normalizeString_clean_out;
      [apply split_no_sep | constructor]. }
  unfold Posix.normalize. fold d. fold abs. fold L.
  destruct L as [|w L'] eqn:EL.
  - cbn [join]. destruct abs.
    + exists []. split; [constructor|]. split; [constructor | left; reflexivity].
    + exists [[DOT]]. split; [repeat constructor; apply seg_dot|].
      split; [discriminate|].
      destruct (endsWith d [SLASH]); [right | left; reflexivity].
      split; [discriminate | reflexivity].
  - exists (w :: L'). split; [exact Hseg|]. split; [exact Hclean|].
    destruct (join_seg_head (w :: L')) as (x & s' & Hj & Hx);
      [discriminate | exact Hseg |].
    rewrite Hj.
    assert (Hrel : forall r, PathNormalizer.ensure_leading_slash (x :: r)
                             = SLASH :: x :: r).
    { intros r. unfold PathNormalizer.ensure_leading_slash.
      cbn [startsWith]. destruct (N.eqb_spec SLASH x) as [E|_]; [congruence|].
      reflexivity. }
    destruct abs, (endsWith d [SLASH]).
    + right. split; [discriminate|]. apply ensure_leading_slash_absolute.
    + left. apply ensure_leading_slash_absolute.
    + right. split; [discriminate|]. apply Hrel.
    + left. apply Hrel.
Qed.

(** The shape of every normalized path: a slash, then segments joined by
    slashes, none of them [..]. *)
Lemma sanitize_segments d :
  exists L, Forall seg L /\
    (startsWith d [SLASH] = true -> Forall clean L) /\
    PathNormalizer.sanitize d = SLASH :: join [SLASH] L.
Proof.
  destruct (normalize_segments d) as (L & Hseg & Hclean & Hn).
  assert (Hb : PathNormalizer.strip_trailing_slash
                 (PathNormalizer.ensure_leading_slash (Posix.normalize d))
               = SLASH :: join [SLASH] L).
  { destruct Hn as [-> | [Hne ->]].
    - apply strip_trailing_slash_canonical. exact Hseg.
    - apply (strip_trailing_slash_trailing L Hne). }
  unfold PathNormalizer.sanitize. rewrite Hb.
  destruct (strip_dotdot_segments L Hseg) as [E|E]; rewrite E.
  - exists L. auto.
  - exists (filter (fun segment => segment <> Posix.dotdot) L).
    split.
    { apply Forall_forall. intros w [_ Hw]%list_elem_of_filter.
      revert w Hw. apply Forall_forall. exact Hseg. }
    split; [|reflexivity].
    intros Habs. rewrite filter_clean by auto. auto.
Qed.

Lemma sanitize_absolute d :
  startsWith d [SLASH] = true ->
  exists L, Forall clean L /\ PathNormalizer.sanitize d = SLASH :: join [SLASH] L.
Proof.
  intros Habs. destruct (sanitize_segments d) as (L & _ & Hc & E).
  exists L. auto.
Qed.

Lemma segments_canonical L :
  Forall clean L ->
  Posix.normalizeString false [] (split SLASH (SLASH :: join [SLASH] L)) = L.
Proof.
  intros Hc. destruct L as [|w L']; [reflexivity|].
  cbn [split]. rewrite N.eqb_refl.
  rewrite split_join;
    [| discriminate | apply no_slash_of_seg, seg_of_clean; exact Hc].
  change (Posix.normalizeString false [] ([] :: w :: L'))
    with (Posix.normalizeString false [] (w :: L')).
  apply (normalizeString_clean_id false (w :: L') []). exact Hc.
Qed.

Lemma normalize_canonical L :
  Forall clean L ->
  Posix.normalize (SLASH :: join [SLASH] L) = SLASH :: join [SLASH] L.
Proof.
  intros Hc. unfold Posix.normalize. rewrite startsWith_cons. cbn [negb].
  rewrite segments_canonical by exact Hc.
  destruct L as [|w L']; [reflexivity|].
  destruct (join_seg_snoc (w :: L')) as (s' & x & Hj & Hx);
    [discriminate | apply seg_of_clean; exact Hc |].
  rewrite Hj. change (SLASH :: s' ++ [x]) with ((SLASH :: s') ++ [x]).
  rewrite endsWith_snoc.
  destruct (N.eqb_spec SLASH x) as [E|_]; [congruence|].
  destruct s'; reflexivity.
Qed.

(** A canonical path is a fixed point of the steps after the decoding. *)
Lemma sanitize_canonical L :
  Forall clean L ->
  PathNormalizer.sanitize (SLASH :: join [SLASH] L) = SLASH :: join [SLASH] L.
Proof.
  intros Hc. unfold PathNormalizer.sanitize.
  rewrite normalize_canonical, ensure_leading_slash_absolute by exact Hc.
  rewrite strip_trailing_slash_canonical by (apply seg_of_clean; exact Hc).
  apply strip_dotdot_canonical. exact Hc.
Qed.

(** The lock manager's own normalizer leaves the engine's paths as they
    are. *)
Lemma lock_normalizePath_engine x p :
  PathNormalizer.normalizePath x = Some p -> LockManager.normalizePath p = p.
Proof.
  unfold PathNormalizer.normalizePath. intros Hx.
  destruct (decodeURIComponent x) as [d|]; [|discriminate].
  injection Hx as <-.
  destruct (sanitize_segments d) as (L & Hseg & _ & ->).
  change (LockManager.normalizePath (SLASH :: join [SLASH] L))
    with (PathNormalizer.strip_trailing_slash
            (PathNormalizer.ensure_leading_slash (SLASH :: join [SLASH] L))).
  rewrite ensure_leading_slash_absolute.
  apply strip_trailing_slash_canonical. exact Hseg.
Qed.

Lemma uri_items_no_percent y :
  PERCENT ∉ y -> uri_items y = Some (map Lit y).
Proof.
  induction y as [|c y IH]; intros Hp; [reflexivity|].
  apply not_elem_of_cons in Hp as [Hc Hy].
  cbn [uri_items map]. destruct (N.eqb_spec c PERCENT) as [E|_]; [congruence|].
  rewrite IH by exact Hy. reflexivity.
Qed.

Lemma decode_items_lit y : decode_items (map Lit y) = Some y.
Proof.
  induction y as [|c y IH]; [reflexivity|].
  cbn [decode_items map]. rewrite IH. reflexivity.
Qed.

(** Without a [%] there is nothing to decode. *)
Lemma decodeURIComponent_no_percent y :
  PERCENT ∉ y -> decodeURIComponent y = Some y.
Proof.
  intros Hp. unfold decodeURIComponent.
  rewrite uri_items_no_percent by exact Hp. apply decode_items_lit.
Qed.

End NormalizerFacts.

(** C7 (as amended): the two worked examples hold, and the normalizer is
    idempotent on every request path whose decoded form is absolute and
    whose normal form holds no [%]: normalizing the normal form again
    returns it unchanged. *)
Theorem normalizePath_idempotent_decoded (x d y : jsstring)
  (Hdec : JS.decodeURIComponent x = Some d)
  (Habs : JS.startsWith d [JS.SLASH] = true)
  (Hx : PathNormalizer.normalizePath x = Some y)
  (Hpct : JS.PERCENT ∉ y) :
  PathNormalizer.normalizePath y = Some y /\
  PathNormalizer.normalizePath (js "/a/./b/../c") = Some (js "/a/c") /\
  PathNormalizer.normalizePath (js "/..") = Some (js "/").
Proof.
  split; [| split; reflexivity].
  unfold PathNormalizer.normalizePath in *.
  rewrite Hdec in Hx. cbn in Hx. injection Hx as <-.
  rewrite decodeURIComponent_no_percent by exact Hpct. cbn [fmap option_fmap option_map].
  destruct (sanitize_absolute d Habs) as (L & Hc & E).
  rewrite E. rewrite sanitize_canonical by exact Hc. reflexivity.
Qed.

Lemma normalizePath_idempotent_decoded_witness :
  PathNormalizer.normalizePath (js "/docs/%41b/../x%20y/") = Some (js "/docs/x y")
  /\ PathNormalizer.normalizePath (js "/docs/x y") = Some (js "/docs/x y").
Proof.
  split; [reflexivity|].
  apply (normalizePath_idempotent_decoded
           (js "/docs/%41b/../x%20y/") (js "/docs/Ab/../x y/") (js "/docs/x y")).
  - reflexivity.
  - reflexivity.
  - reflexivity.
  - vm_compute. intros H. repeat (apply elem_of_cons in H as [H|H]; [discriminate|]).
    apply elem_of_nil in H. exact H.
Defined.

(** C7, counterexample: a doubly escaped path is decoded once per pass, so
    the second pass changes it; a relative path that normalizes to [.]
    becomes [/.] and then [/]. *)
Lemma normalizePath_not_idempotent :
  PathNormalizer.normalizePath (js "/%2561") = Some (js "/%61") /\
  PathNormalizer.normalizePath (js "/%61") = Some (js "/a") /\
  (PathNormalizer.normalizePath (js "/%2561") ≫= PathNormalizer.normalizePath)
    <> PathNormalizer.normalizePath (js "/%2561").
Proof. repeat split; try reflexivity. vm_compute. discriminate. Qed.

(* ===================================================================== *)
(** ** The lock manager against the lock rules *)
(* ===================================================================== *)
Section LockFacts.
Import JS LockManager LockRules.

(** What [hasValidLockToken] computes: the ancestor test is a test on the
    characters of the two paths. *)
Lemma hasValidLockToken_true now p tok lm :
  fst (hasValidLockToken now p tok lm) = true <->
  exists lock,
    locks lm !! tok = Some lock /\ isExpired now lock = false /\
    (path lock = normalizePath p \/
     (depth lock = infinity /\ startsWith (normalizePath p) (path lock) = true)).
Proof.
  unfold hasValidLockToken, getLock, bind, gets, ret.
  destruct (locks lm !! tok) as [lock|] eqn:El; cbn [fst snd].
  2:{ split; [discriminate | intros (? & ? & _); discriminate]. }
  destruct (isExpired now lock) eqn:Ee; cbn [fst snd].
  { destruct (removeLock tok lm). cbn [fst snd].
    split; [discriminate | intros (l & Hl & He & _); congruence]. }
  destruct (eqb (path lock) (normalizePath p)) eqn:E1; cbn [fst snd].
  { apply eqb_true in E1. split; [|reflexivity]. intros _. exists lock. auto. }
  apply eqb_false in E1.
  destruct (eqb (depth lock) infinity) eqn:E2; cbn [fst snd andb].
  - apply eqb_true in E2.
    destruct (startsWith (normalizePath p) (path lock)) eqn:E3; cbn [fst snd].
    + split; [|reflexivity]. intros _. exists lock. auto.
    + split; [discriminate|]. intros (l & Hl & _ & [Hp | [_ Hs]]);
        injection Hl as <-; congruence.
  - apply eqb_false in E2. split; [discriminate|].
    intros (l & Hl & _ & [Hp | [Hd _]]); injection Hl as <-; congruence.
Qed.

(** C2, at the failing input: the token of a depth-infinity lock on [/a] is
    accepted for [/ab], which [/a] is not an ancestor of; the rule of the
    specification rejects it.  For [/a/b] the two agree. *)
Theorem hasValidLockToken_sibling_prefix :
  fst (hasValidLockToken 1000 (js "/ab") (js "t1") lm_a) = true /\
  spec_hasValidLockToken 1000 lm_a (js "/ab") (js "t1") = false /\
  is_ancestor (js "/a") (js "/ab") = false /\
  fst (hasValidLockToken 1000 (js "/a/b") (js "t1") lm_a) = true /\
  spec_hasValidLockToken 1000 lm_a (js "/a/b") (js "t1") = true.
Proof. repeat split; vm_compute; reflexivity. Qed.

(** C3, at the failing input: under a live exclusive depth-infinity lock on
    [/a], a shared lock on [/a/b/c] is allowed, and [createLock] takes it;
    the rule of the specification refuses it.  The exclusive branch refuses,
    as the rule does. *)
Theorem canLock_shared_ignores_ancestors :
  fst (canLock 1000 (js "/a/b/c") shared lm_a) = true /\
  spec_canLock 1000 lm_a (js "/a/b/c") shared = false /\
  (exists lock,
     fst (createLock 1000 (js "t2") (js "/a/b/c") (js "v") shared infinity None lm_a)
     = Ok lock) /\
  fst (canLock 1000 (js "/a/b/c") exclusive lm_a) = false /\
  spec_canLock 1000 lm_a (js "/a/b/c") exclusive = false.
Proof.
  repeat split; try (vm_compute; reflexivity).
  eexists. vm_compute. reflexivity.
Qed.

(** C5, at the failing input: after [createLock] on [/a] and on [/b],
    [moveLocksForPath('/a', '/b')] leaves the lock [t2] of [/b] in [byToken],
    not expired, and in no set of [byPath]: a reachable state where
    invariant (ii) fails. *)
Theorem moveLocksForPath_orphans_destination_locks :
  reachable lm_moved /\
  (exists lock, locks lm_moved !! js "t2" = Some lock /\
                path lock = js "/b" /\ isExpired 1000 lock = false) /\
  pathLocks lm_moved = {[ js "/b" := {[ js "t1" ]} ]} /\
  ~ in_byPath lm_moved (js "t2") /\
  ~ inv_ii 1000 lm_moved.
Proof.
  assert (Hpl : pathLocks lm_moved = {[ js "/b" := {[ js "t1" ]} ]})
    by (vm_compute; reflexivity).
  assert (Hno : ~ in_byPath lm_moved (js "t2")).
  { intros (p & S & Hp & Hin). rewrite Hpl in Hp.
    apply lookup_singleton_Some in Hp as [_ <-].
    apply elem_of_singleton in Hin. discriminate. }
  split; [|split; [|split; [|split]]].
  - unfold lm_moved, lm_a. repeat apply reachable_run; try exact I.
    + apply reachable_new.
    + reflexivity.
    + vm_compute. reflexivity.
  - eexists. split; [vm_compute; reflexivity|]. split; reflexivity.
  - exact Hpl.
  - exact Hno.
  - intros Hinv. destruct (Hinv (js "t2")) as [H1 _].
    apply Hno. eapply H1; [vm_compute; reflexivity | reflexivity].
Qed.

End LockFacts.

(* ===================================================================== *)
(** ** Facts about the memfs volume and the in-memory file system *)
(* ===================================================================== *)
Section FileSystemFacts.
Import JS.

Lemma bindE_ok {S A B} (m : E S A) (k : A -> E S B) s a s' :
  m s = (Ok a, s') -> bindE m k s = k a s'.
Proof. intros Hm. unfold bindE. rewrite Hm. reflexivity. Qed.

Lemma bindE_throw {S A B} (m : E S A) (k : A -> E S B) s e s' :
  m s = (Throw e, s') -> bindE m k s = (Throw e, s').
Proof. intros Hm. unfold bindE. rewrite Hm. reflexivity. Qed.

(** [mkdirSync(p, { recursive: true })] succeeds when no file lies on the
    way; then every directory on the way exists and nothing else changes. *)
Lemma mkdirp_ok todo : forall done (v : MemFs.vol),
  (forall j data, (1 <= j <= length todo)%nat ->
                  v !! (done ++ take j todo) <> Some (MemFs.File data)) ->
  exists v',
    MemFs.mkdirp done todo v = (Ok tt, v') /\
    (forall j, (1 <= j <= length todo)%nat ->
               v' !! (done ++ take j todo) = Some MemFs.Dir) /\
    (forall k, (forall j, (1 <= j <= length todo)%nat -> k <> done ++ take j todo) ->
               v' !! k = v !! k).
Proof.
  induction todo as [|s todo IH]; intros done v Hfile.
  - exists v. cbn [MemFs.mkdirp length]. split; [reflexivity|].
    split; [intros j Hj; lia | reflexivity].
  - cbn [MemFs.mkdirp].
    assert (Hstep : forall j, done ++ take (S j) (s :: todo)
                              = (done ++ [s]) ++ take j todo).
    { intros j. cbn [take]. rewrite <- app_assoc. reflexivity. }
    assert (Hkey : done ++ take 1 (s :: todo) = done ++ [s]).
    { rewrite Hstep. cbn [take]. destruct todo; apply app_nil_r. }
    set (v1 := match v !! (done ++ [s]) with
               | Some _ => v
               | None => <[done ++ [s] := MemFs.Dir]> v
               end).
    assert (Hv1 : v1 !! (done ++ [s]) = Some MemFs.Dir).
    { subst v1. destruct (v !! (done ++ [s])) as [[|data]|] eqn:E;
        [exact E | | apply lookup_insert_eq].
      exfalso. apply (Hfile 1%nat data); [cbn [length]; lia|].
      rewrite Hkey. exact E. }
    assert (Hother : forall k, k <> done ++ [s] -> v1 !! k = v !! k).
    { intros k Hk. subst v1. destruct (v !! (done ++ [s]));
        [reflexivity | apply lookup_insert_ne; congruence]. }
    assert (Hlonger : forall j, (1 <= j)%nat ->
                                (done ++ [s]) ++ take j todo <> done ++ [s] \/ todo = []).
    { intros j Hj. destruct todo as [|s' todo]; [right; reflexivity | left].
      intros E. apply (f_equal length) in E. rewrite !length_app in E.
      destruct j; [lia|]. cbn [take length] in E. lia. }
    destruct (IH (done ++ [s]) v1) as (v' & Hrun & Hdirs & Hrest).
    { intros j data Hj. destruct (Hlonger j) as [Hne | ->]; [lia | | cbn [length] in Hj; lia].
      rewrite Hother by exact Hne. rewrite <- Hstep.
      apply Hfile. cbn [length]. lia. }
    exists v'. split; [|split].
    + destruct (v !! (done ++ [s])) as [[|data]|] eqn:E.
      * exact Hrun.
      * exfalso. apply (Hfile 1%nat data); [cbn [length]; lia|].
        rewrite Hkey. exact E.
      * exact Hrun.
    + intros j Hj. destruct j as [|j]; [lia|]. rewrite Hstep.
      destruct j as [|j].
      * cbn [take]. rewrite app_nil_r. rewrite Hrest; [exact Hv1|].
        intros j Hj'. destruct (Hlonger j) as [Hne | ->]; [lia | congruence |].
        cbn [length] in Hj'. lia.
      * apply Hdirs. cbn [length] in Hj. lia.
    + intros k Hk. rewrite Hrest.
      * apply Hother. rewrite <- Hkey. apply Hk. cbn [length]. lia.
      * intros j Hj. rewrite <- Hstep. apply Hk. cbn [length]. lia.
Qed.

End FileSystemFacts.

Section MkColFacts.
Import JS WebDAVServer.

Lemma normalizePath_ok {FS} x p (s : @WebDAVServer.t FS) :
  PathNormalizer.normalizePath x = Some p ->
  WebDAVServer.normalizePath x s = (Ok p, s).
Proof. intros Hp. unfold WebDAVServer.normalizePath. rewrite Hp. reflexivity. Qed.

(** [handleMkCol] over the in-memory file system, step by step. *)
Lemma handleMkCol_eq env req (st : @WebDAVServer.t MemoryFileSystem.t) p :
  PathNormalizer.normalizePath (req_path req) = Some p ->
  handleMkCol env req st =
  if MemFs.existsSync p (MemoryFileSystem.fs (filesystem st))
  then (Ok (end_ 405), st)
  else
    match MemoryFileSystem.create (now env) (uuid env 0) p collection
            (filesystem st) with
    | (Ok _, f') => (Ok (end_ 201), mk f' (lockManager st))
    | (Throw e, f') => (Throw e, mk f' (lockManager st))
    end.
Proof.
  intros Hp. unfold handleMkCol.
  rewrite (bindE_ok _ _ _ _ _ (normalizePath_ok _ _ st Hp)).
  destruct st as [f l].
  unfold bindE, fsE, retE, ret. cbn [vfs_exists vfs_create MemoryFileSystem.vfs].
  unfold MemoryFileSystem.exists_. cbn [filesystem lockManager].
  destruct (MemFs.existsSync p (MemoryFileSystem.fs f)); [reflexivity|].
  cbn [filesystem lockManager].
  destruct (MemoryFileSystem.create (now env) (uuid env 0) p collection f)
    as [[[]|e] f']; reflexivity.
Qed.

Lemma create_collection_ok now uuid p (f : MemoryFileSystem.t) :
  (forall j data, (1 <= j <= length (MemFs.steps p))%nat ->
     MemoryFileSystem.fs f !! take j (MemFs.steps p) <> Some (MemFs.File data)) ->
  exists f',
    MemoryFileSystem.create now uuid p collection f = (Ok tt, f') /\
    (forall j, (1 <= j <= length (MemFs.steps p))%nat ->
       MemoryFileSystem.fs f' !! take j (MemFs.steps p) = Some MemFs.Dir) /\
    (forall k, (forall j, (1 <= j <= length (MemFs.steps p))%nat ->
                  k <> take j (MemFs.steps p)) ->
       MemoryFileSystem.fs f' !! k = MemoryFileSystem.fs f !! k).
Proof.
  intros Hfile.
  destruct (mkdirp_ok (MemFs.steps p) [] (MemoryFileSystem.fs f))
    as (v' & Hrun & Hdirs & Hrest); [exact Hfile|].
  unfold MemoryFileSystem.create, bindE, MemoryFileSystem.liftFs,
    MemFs.mkdirSync_recursive, MemoryFileSystem.setPropertyInternal.
  rewrite Hrun. cbn [MemoryFileSystem.fs]. eexists.
  split; [reflexivity|]. cbn [MemoryFileSystem.fs]. auto.
Qed.


End MkColFacts.



(* ===================================================================== *)
(** ** What the queries of the lock manager leave unchanged *)
(* ===================================================================== *)
Section LockManagerFacts.
Import JS LockManager LockRules.

Lemma preserves_ret {A} P (a : A) : preserves P (ret a).
Proof. intros s Hs. exact Hs. Qed.

Lemma preserves_gets {A} P (f : LockManager.t -> A) : preserves P (gets f).
Proof. intros s Hs. exact Hs. Qed.

Lemma preserves_bind {A B} P (m : M LockManager.t A) (k : A -> M LockManager.t B) :
  preserves P m -> (forall a, preserves P (k a)) -> preserves P (bind m k).
Proof.
  intros Hm Hk s Hs. unfold bind. specialize (Hm s Hs).
  destruct (m s) as [a s']. apply Hk. exact Hm.
Qed.

Lemma preserves_anyM {A} P (f : A -> M LockManager.t bool) l :
  (forall a, preserves P (f a)) -> preserves P (anyM f l).
Proof.
  intros Hf. induction l as [|x l IH]; cbn [anyM]; [apply preserves_ret|].
  apply preserves_bind; [apply Hf|]. intros []; [apply preserves_ret | exact IH].
Qed.

Lemma preserves_collectM {A B} P (f : A -> M LockManager.t (option B)) l :
  (forall a, preserves P (f a)) -> preserves P (collectM f l).
Proof.
  intros Hf. induction l as [|x l IH]; cbn [collectM]; [apply preserves_ret|].
  apply preserves_bind; [apply Hf|]. intros y.
  apply preserves_bind; [exact IH|]. intros ys. apply preserves_ret.
Qed.

Lemma preserves_forM_ {A B} P (f : A -> M LockManager.t B) l :
  (forall a, preserves P (f a)) -> preserves P (forM_ f l).
Proof.
  intros Hf. induction l as [|x l IH]; cbn [forM_]; [apply preserves_ret|].
  apply preserves_bind; [apply Hf|]. intros _. exact IH.
Qed.

(** Every method built from [removeLock] keeps what [removeLock] keeps. *)
Section Queries.
Variable P : LockManager.t -> Prop.
Hypothesis removeLock_keeps : forall tok, preserves P (removeLock tok).

Lemma getLock_keeps now tok : preserves P (getLock now tok).
Proof.
  unfold getLock. apply preserves_bind; [apply preserves_gets|].
  intros [l|]; [|apply preserves_ret].
  destruct (isExpired now l); [|apply preserves_ret].
  apply preserves_bind; [apply removeLock_keeps|]. intros _. apply preserves_ret.
Qed.

Lemma getLocksForPath_keeps now p : preserves P (getLocksForPath now p).
Proof.
  unfold getLocksForPath. apply preserves_bind; [apply preserves_gets|].
  intros [S|]; [|apply preserves_ret].
  apply preserves_collectM. intros tok. apply getLock_keeps.
Qed.

Lemma isLocked_keeps now p ex : preserves P (isLocked now p ex).
Proof.
  unfold isLocked. apply preserves_bind; [apply getLocksForPath_keeps|].
  intros ls. match goal with |- preserves _ (if ?c then _ else _) => destruct c end;
    [apply preserves_ret|].
  apply preserves_anyM. intros q.
  apply preserves_bind; [apply getLocksForPath_keeps|]. intros ?. apply preserves_ret.
Qed.

Lemma canLock_keeps now p sc : preserves P (canLock now p sc).
Proof.
  unfold canLock. destruct sc.
  - apply preserves_bind; [apply isLocked_keeps|]. intros ?. apply preserves_ret.
  - apply preserves_bind; [apply getLocksForPath_keeps|]. intros ?. apply preserves_ret.
Qed.

Lemma hasValidLockToken_keeps now p tok : preserves P (hasValidLockToken now p tok).
Proof.
  unfold hasValidLockToken. apply preserves_bind; [apply getLock_keeps|].
  intros [l|]; [|apply preserves_ret].
  repeat match goal with |- preserves _ (if ?c then _ else _) => destruct c end;
    apply preserves_ret.
Qed.

Lemma hasWebDAVLock_keeps now p ty : preserves P (hasWebDAVLock now p ty).
Proof.
  unfold hasWebDAVLock. apply preserves_bind; [apply isLocked_keeps|].
  intros b. destruct (negb b); [apply preserves_ret|].
  destruct ty; [|apply preserves_ret].
  apply preserves_bind; [apply getLocksForPath_keeps|]. intros ?. apply preserves_ret.
Qed.

End Queries.

(** [removeLock] does not touch the stream table. *)
Lemma removeLock_activeStreams X tok :
  preserves (fun s => activeStreams s = X) (removeLock tok).
Proof.
  intros s Hs. unfold removeLock.
  destruct (locks s !! tok) as [l|]; [|exact Hs]. cbn [snd].
  cbn [set_locks pathLocks].
  destruct (pathLocks s !! path l) as [S|]; [|exact Hs].
  destruct (bool_decide _); exact Hs.
Qed.

Lemma removeLock_indexed tok : preserves indexed (removeLock tok).
Proof.
  intros s Hs. unfold removeLock.
  destruct (locks s !! tok) as [l0|] eqn:E0; [|exact Hs]. cbn [snd].
  intros t l Hl.
  assert (Ht : t <> tok /\ locks s !! t = Some l).
  { destruct (pathLocks (set_locks (delete tok) s) !! path l0) as [S0|];
      [destruct (bool_decide _)|]; cbn [locks set_locks set_pathLocks] in Hl;
      apply lookup_delete_Some in Hl as [? ?]; split; congruence. }
  destruct Ht as [Hne Hold]. clear Hl.
  destruct (Hs t l Hold) as (S & HS & Hin).
  cbn [set_locks pathLocks].
  destruct (pathLocks s !! path l0) as [S0|] eqn:ES0.
  2:{ exists S. cbn [pathLocks]. auto. }
  destruct (decide (path l = path l0)) as [Ep|Np].
  - rewrite Ep in HS. rewrite ES0 in HS. injection HS as <-.
    assert (Hin' : t ∈ S0 ∖ {[tok]}).
    { apply elem_of_difference. split; [exact Hin|].
      intros Heq%elem_of_singleton. congruence. }
    case_bool_decide as Hsz.
    + apply size_empty_inv in Hsz. apply Hsz in Hin'.
      apply elem_of_empty in Hin'. contradiction.
    + exists (S0 ∖ {[tok]}). cbn [pathLocks set_pathLocks]. rewrite Ep.
      rewrite lookup_insert_eq. auto.
  - exists S. split; [|exact Hin].
    case_bool_decide; cbn [pathLocks set_pathLocks].
    + rewrite lookup_delete_ne by congruence. exact HS.
    + rewrite lookup_insert_ne by congruence. exact HS.
Qed.

Lemma forM__modify_cons {A} (g : A -> LockManager.t -> LockManager.t) x l s :
  forM_ (fun a => modify (g a)) (x :: l) s = forM_ (fun a => modify (g a)) l (g x s).
Proof. reflexivity. Qed.

(** Dropping the tokens of a list from [byToken]. *)
Lemma forM_delete_locks l : forall s,
  let s' := snd (forM_ (fun token => modify (set_locks (delete token))) l s) in
  pathLocks s' = pathLocks s /\ activeStreams s' = activeStreams s /\
  forall tok, locks s' !! tok = if decide (tok ∈ l) then None else locks s !! tok.
Proof.
  induction l as [|x l IH]; intros s.
  - cbn [forM_ ret snd]. split; [reflexivity|]. split; [reflexivity|].
    intros tok. rewrite decide_False; [reflexivity | apply not_elem_of_nil].
  - rewrite (forM__modify_cons (fun token => set_locks (delete token))).
    cbn zeta.
    destruct (IH (set_locks (delete x) s)) as (H1 & H2 & H3).
    cbn zeta in H1, H2, H3. rewrite H1, H2. repeat split.
    intros tok. rewrite H3. cbn [locks set_locks].
    destruct (decide (tok ∈ l)) as [Hl|Hl].
    + rewrite decide_True by (apply elem_of_cons; auto). reflexivity.
    + destruct (decide (tok = x)) as [->|Hx].
      * rewrite decide_True by (apply elem_of_cons; auto). apply lookup_delete_eq.
      * rewrite decide_False by (intros [?|?]%elem_of_cons; contradiction).
        apply lookup_delete_ne. congruence.
Qed.

(** [removeLocksForPath(p)]: the entry of [p] goes, with the locks it
    lists; where every lock was listed under its path, no lock is left on
    [p]. *)
Lemma removeLocksForPath_purges p s :
  let s' := snd (removeLocksForPath p s) in
  pathLocks s' !! normalizePath p = None /\
  (forall (S : gset jsstring) tok,
     pathLocks s !! normalizePath p = Some S -> tok ∈ S -> locks s' !! tok = None) /\
  (forall tok lock, locks s' !! tok = Some lock -> locks s !! tok = Some lock) /\
  (indexed s ->
   forall tok lock, locks s' !! tok = Some lock -> path lock <> normalizePath p).
Proof.
  unfold removeLocksForPath, bind, gets.
  destruct (pathLocks s !! normalizePath p) as [S|] eqn:ES; cbn zeta.
  - destruct (forM_delete_locks (elements S) s) as (H1 & H2 & H3).
    cbn zeta in H1, H2, H3.
    destruct (forM_ _ (elements S) s) as [[] s1] eqn:E1. cbn [snd] in *.
    unfold modify. cbn [snd pathLocks locks set_pathLocks].
    split; [apply lookup_delete_eq|]. split; [|split].
    + intros S' tok HS Hin. injection HS as <-. rewrite H3.
      rewrite decide_True by (apply elem_of_elements; exact Hin). reflexivity.
    + intros tok lock. rewrite H3. destruct (decide _); [discriminate | auto].
    + intros Hidx tok lock. rewrite H3.
      destruct (decide (tok ∈ elements S)) as [|Hn]; [discriminate|].
      intros Hl Hp. destruct (Hidx tok lock Hl) as (S' & HS' & Hin).
      rewrite Hp, ES in HS'. injection HS' as <-.
      apply Hn. apply elem_of_elements. exact Hin.
  - cbn [ret snd]. split; [exact ES|]. split; [discriminate|]. split; [auto|].
    intros Hidx tok lock Hl Hp. destruct (Hidx tok lock Hl) as (S' & HS' & _).
    rewrite Hp, ES in HS'. discriminate.
Qed.

End LockManagerFacts.

(* ===================================================================== *)
(** ** The request handlers *)
(* ===================================================================== *)
Section HandlerFacts.
Import JS WebDAVServer.
Context {FS : Type} `{VirtualFileSystem FS}.

Lemma fsE_lockManager {A} (m : E FS A) (s s' : @WebDAVServer.t FS) r :
  fsE m s = (r, s') -> lockManager s' = lockManager s.
Proof.
  unfold fsE. destruct (m (filesystem s)) as [r0 f]. intros E.
  injection E as _ <-. reflexivity.
Qed.

Lemma lm_run {A} (m : M LockManager.t A) (s : @WebDAVServer.t FS) :
  lm m s = (Ok (fst (m (lockManager s))),
            mk (filesystem s) (snd (m (lockManager s)))).
Proof. unfold lm. destruct (m (lockManager s)). reflexivity. Qed.

(** The token check of PUT and DELETE keeps a property that the queries
    keep. *)
Lemma token_check_keeps (P : LockManager.t -> Prop) env (token : option jsstring)
  p (locked : bool) (s s' : @WebDAVServer.t FS) r :
  (forall tok, preserves P (LockManager.removeLock tok)) ->
  P (lockManager s) ->
  (if locked then
     match token with
     | None => retE true
     | Some tok =>
         let! valid := lm (LockManager.hasValidLockToken (now env) p tok) in
         retE (negb valid)
     end
   else retE false) s = (r, s') ->
  P (lockManager s') /\ filesystem s' = filesystem s.
Proof.
  intros Hrm HP. destruct locked.
  - destruct token as [tok|].
    + unfold bindE. rewrite lm_run.
      pose proof (hasValidLockToken_keeps P Hrm (now env) p tok _ HP) as H2.
      destruct (LockManager.hasValidLockToken (now env) p tok (lockManager s))
        as [v l2].
      cbn [fst snd] in *. intros E. injection E as _ <-. auto.
    + intros E. injection E as _ <-. auto.
  - intros E. injection E as _ <-. auto.
Qed.


End HandlerFacts.

Section DeleteFacts.
Import JS WebDAVServer LockManager LockRules.


Lemma indexedb_correct lm : indexedb lm = true -> indexed lm.
Proof.
  unfold indexedb. rewrite forallb_forall. intros Hall tok lock Hl.
  apply elem_of_map_to_list in Hl. apply list_elem_of_In in Hl.
  specialize (Hall _ Hl). cbn [fst snd] in Hall.
  destruct (pathLocks lm !! path lock) as [S|]; [|discriminate].
  exists S. split; [reflexivity|]. apply bool_decide_eq_true in Hall. exact Hall.
Qed.

End DeleteFacts.



Section LockHandlerFacts.
Import JS WebDAVServer.
Context {FS : Type} `{VirtualFileSystem FS}.
Variable xml_parse : jsstring -> result WebDAVXML.jsval.
Variable xml_lock_response : LockManager.WebDAVLock -> result jsstring.

(** [removeLock] only takes locks away. *)
Lemma removeLock_locks_subseteq X tok :
  preserves (fun s => LockManager.locks s ⊆ X) (LockManager.removeLock tok).
Proof.
  intros s Hs. unfold LockManager.removeLock.
  destruct (LockManager.locks s !! tok) as [l|]; [|exact Hs]. cbn [snd].
  assert (Hd : delete tok (LockManager.locks s) ⊆ X).
  { etrans; [apply delete_subseteq | exact Hs]. }
  cbn [LockManager.set_locks LockManager.pathLocks].
  destruct (LockManager.pathLocks s !! LockManager.path l) as [S|]; [|exact Hd].
  destruct (bool_decide _); exact Hd.
Qed.

(** C4 (as amended): a LOCK request with a well-formed lockinfo body on an
    existing path that cannot be locked ([canLock] is false) is answered
    with status 500 and the message of the error [createLock] throws; no
    lock is added. *)
Theorem handleLock_conflict_500 env req (st : @WebDAVServer.t FS) p fs' body
  parsed lockRequest
  (Hp : PathNormalizer.normalizePath (req_path req) = Some p)
  (Hex : vfs_exists p (filesystem st) = (Ok true, fs'))
  (Hbody : req_body req = Some body)
  (Hne : body <> [])
  (Hparse : xml_parse body = Ok parsed)
  (Hreq : WebDAVXML.parseLockRequest parsed = Ok lockRequest)
  (Hconflict : fst (LockManager.canLock (now env) p
                      (WebDAVXML.lr_scope lockRequest) (lockManager st)) = false) :
  let r := handleLock xml_parse xml_lock_response env req st in
  fst r = Ok (mkResponse 500 [] (Text (js "Resource is already locked"))) /\
  LockManager.locks (lockManager (snd r)) ⊆ LockManager.locks (lockManager st).
Proof.
  assert (Heq : handleLock xml_parse xml_lock_response env req st =
                (Ok (mkResponse 500 [] (Text (js "Resource is already locked"))),
                 mk fs' (snd (LockManager.canLock (now env) p
                                (WebDAVXML.lr_scope lockRequest) (lockManager st))))).
  { unfold handleLock.
    rewrite (bindE_ok _ _ _ _ _ (normalizePath_ok _ _ st Hp)).
    assert (E1 : fsE (vfs_exists p) st = (Ok true, mk fs' (lockManager st))).
    { unfold fsE. rewrite Hex. reflexivity. }
    rewrite (bindE_ok _ _ _ _ _ E1). cbn [negb].
    rewrite Hbody. cbn [default from_option id].
    destruct body as [|c body]; [congruence|].
    unfold ofResult at 1. unfold bindE at 1, ret at 1. rewrite Hparse.
    unfold ofResult at 1. unfold bindE at 1, ret at 1. rewrite Hreq.
    assert (Ec : forall owner depth timeout,
               LockManager.createLock (now env) (uuid env 0) p owner
                 (WebDAVXML.lr_scope lockRequest) depth timeout (lockManager st)
               = (Throw (js "Resource is already locked"),
                  snd (LockManager.canLock (now env) p
                         (WebDAVXML.lr_scope lockRequest) (lockManager st)))).
    { intros owner depth timeout. unfold LockManager.createLock, bind.
      rewrite (lock_normalizePath_engine _ _ Hp).
      destruct (LockManager.canLock (now env) p (WebDAVXML.lr_scope lockRequest)
                  (lockManager st)) as [ok l1].
      cbn [fst snd] in *. subst ok. reflexivity. }
    unfold try_catch, bindE at 1. unfold bindE at 1. rewrite lm_run.
    cbn [lockManager filesystem]. rewrite Ec. reflexivity. }
  cbn zeta. rewrite Heq. cbn [fst snd lockManager]. split; [reflexivity|].
  apply (canLock_keeps _ (removeLock_locks_subseteq (LockManager.locks (lockManager st)))
           (now env) p (WebDAVXML.lr_scope lockRequest) (lockManager st)).
  reflexivity.
Qed.

End LockHandlerFacts.

Lemma handleLock_conflict_500_witness :
  let r := WebDAVServer.handleLock parse_lockinfo build_prop env0 lock_request
             st_locked_ab in
  fst r = Ok (WebDAVServer.mkResponse 500 []
                (WebDAVServer.Text (js "Resource is already locked"))) /\
  LockManager.locks (WebDAVServer.lockManager (snd r))
    ⊆ LockManager.locks (WebDAVServer.lockManager st_locked_ab).
Proof.
  apply (handleLock_conflict_500 parse_lockinfo build_prop env0 lock_request
           st_locked_ab (js "/a/b") (WebDAVServer.filesystem st_locked_ab)
           (js "<d:lockinfo/>") lockinfo_parsed
           (WebDAVXML.mkLockRequest (js "Integration Test") LockManager.exclusive)).
  - reflexivity.
  - vm_compute. reflexivity.
  - reflexivity.
  - discriminate.
  - reflexivity.
  - vm_compute. reflexivity.
  - vm_compute. reflexivity.
Defined.

(** C4, counterexample: the file [/a/b] exists and holds an exclusive lock,
    the body of the LOCK request is a well-formed lockinfo, [canLock] is
    false, and the answer has status 500, not 423. *)
Lemma handleLock_conflict_not_423 :
  let r := WebDAVServer.handleLock parse_lockinfo build_prop env0 lock_request
             st_locked_ab in
  MemFs.existsSync (js "/a/b")
    (MemoryFileSystem.fs (WebDAVServer.filesystem st_locked_ab)) = true /\
  WebDAVXML.parseLockRequest lockinfo_parsed
  = Ok (WebDAVXML.mkLockRequest (js "Integration Test") LockManager.exclusive) /\
  fst (LockManager.canLock 1000 (js "/a/b") LockManager.exclusive
         (WebDAVServer.lockManager st_locked_ab)) = false /\
  fst r = Ok (WebDAVServer.mkResponse 500 []
                (WebDAVServer.Text (js "Resource is already locked"))) /\
  fst r <> Ok (WebDAVServer.end_ 423).
Proof.
  cbn zeta. repeat split; try (vm_compute; reflexivity).
  vm_compute. discriminate.
Qed.

Section GetCollectionFacts.
Import JS WebDAVServer.

Lemma existsSync_true (p : jsstring) (v : MemFs.vol) (n : MemFs.node) :
  v !! MemFs.steps p = Some n -> MemFs.existsSync p v = true.
Proof.
  intros Hn. unfold MemFs.existsSync. apply bool_decide_eq_true. eauto.
Qed.

Lemma getType_dir p (f : MemoryFileSystem.t) :
  MemoryFileSystem.fs f !! MemFs.steps p = Some MemFs.Dir ->
  MemoryFileSystem.getType p f = (Ok (Some collection), f).
Proof.
  intros Hd. unfold MemoryFileSystem.getType.
  rewrite (existsSync_true _ _ _ Hd). cbn [negb].
  unfold bindE, MemoryFileSystem.readFs, MemFs.isDirectory. rewrite Hd.
  reflexivity.
Qed.

Lemma getMembers_dir p (f : MemoryFileSystem.t) :
  MemoryFileSystem.fs f !! MemFs.steps p = Some MemFs.Dir ->
  exists items,
    MemFs.readdirSync p (MemoryFileSystem.fs f) = Ok items /\
    MemoryFileSystem.getMembers p f
    = (Ok (map (fun item => Posix.join2 p item) items), f).
Proof.
  intros Hd.
  destruct (MemFs.readdirSync p (MemoryFileSystem.fs f)) as [items|e] eqn:Hr.
  2:{ unfold MemFs.readdirSync in Hr. rewrite Hd in Hr. discriminate. }
  exists items. split; [reflexivity|].
  unfold MemoryFileSystem.getMembers.
  rewrite (existsSync_true _ _ _ Hd). cbn [negb].
  unfold bindE, MemoryFileSystem.readFs, MemFs.isDirectory.
  rewrite Hd. cbn [negb]. rewrite Hr. reflexivity.
Qed.


End GetCollectionFacts.


Section PutFacts.
Import JS WebDAVServer.


End PutFacts.


(* ===================================================================== *)
(** ** Decimal numbers: [toString] and [parseInt] *)
(* ===================================================================== *)
Section DecimalFacts.
Import JS.

Lemma is_digit_range c : is_digit c = true <-> (48 <= c <= 57)%N.
Proof.
  unfold is_digit. rewrite andb_true_iff, !N.leb_le. reflexivity.
Qed.

Lemma digit_of_Z d :
  0 <= d <= 9 ->
  is_digit (Z.to_N (48 + d)) = true /\ digit_value (Z.to_N (48 + d)) = d.
Proof.
  intros Hd. split; [apply is_digit_range | unfold digit_value]; lia.
Qed.

Lemma rev_digits_S fuel n :
  rev_digits (S fuel) n =
  if n <? 10 then [Z.to_N (48 + n)]
  else Z.to_N (48 + n mod 10) :: rev_digits fuel (n / 10).
Proof. reflexivity. Qed.

Lemma rev_digits_spec fuel : forall n,
  0 <= n < 10 ^ Z.of_nat (S fuel) ->
  rev_digits (S fuel) n <> [] /\
  Forall (fun c => is_digit c = true) (rev_digits (S fuel) n) /\
  value_rev (rev_digits (S fuel) n) = n.
Proof.
  induction fuel as [|fuel IH]; intros n Hn;
    rewrite rev_digits_S; destruct (Z.ltb_spec n 10) as [Hlt|Hge].
  - destruct (digit_of_Z n) as [H1 H2]; [lia|].
    split; [discriminate|]. split; [repeat constructor; exact H1|].
    cbn [value_rev]. lia.
  - cbn in Hn. lia.
  - destruct (digit_of_Z n) as [H1 H2]; [lia|].
    split; [discriminate|]. split; [repeat constructor; exact H1|].
    cbn [value_rev]. lia.
  - assert (Hdiv : 0 <= n / 10 < 10 ^ Z.of_nat (S fuel)).
    { split; [apply Z.div_pos; lia|].
      apply Z.div_lt_upper_bound; [lia|].
      rewrite (Nat2Z.inj_succ (S fuel)), Z.pow_succ_r in Hn by lia. lia. }
    destruct (IH _ Hdiv) as (_ & H2 & H3).
    destruct (digit_of_Z (n mod 10)) as [H4 H5];
      [pose proof (Z.mod_pos_bound n 10); lia|].
    split; [discriminate|]. split; [constructor; assumption|].
    cbn [value_rev]. rewrite H5, H3. pose proof (Z.div_mod n 10). lia.
Qed.

Lemma fuel_enough n : 0 <= n -> n < 10 ^ Z.of_nat (S (Z.to_nat (Z.log2 n))).
Proof.
  intros Hn. rewrite Nat2Z.inj_succ, Z2Nat.id by apply Z.log2_nonneg.
  destruct (Z.eq_dec n 0) as [->|Hz]; [reflexivity|].
  pose proof (Z.log2_spec n ltac:(lia)) as [_ Hlt].
  eapply Z.lt_le_trans; [exact Hlt|].
  apply Z.pow_le_mono_l. pose proof (Z.log2_nonneg n). lia.
Qed.

Lemma digits_value_snoc l : forall acc c,
  digits_value acc (l ++ [c]) = 10 * digits_value acc l + digit_value c.
Proof.
  induction l as [|d l IH]; intros acc c; cbn [digits_value app]; [reflexivity|].
  apply IH.
Qed.

Lemma digits_value_rev l : digits_value 0 (rev l) = value_rev l.
Proof.
  induction l as [|c l IH]; [reflexivity|].
  cbn [rev value_rev]. rewrite digits_value_snoc, IH. lia.
Qed.

(** [n.toString()] of a natural number: decimal digits, at least one, with
    value [n]. *)
Lemma toString_digits n :
  0 <= n ->
  toString n <> [] /\ Forall (fun c => is_digit c = true) (toString n) /\
  digits_value 0 (toString n) = n.
Proof.
  intros Hn. unfold toString.
  destruct (Z.ltb_spec n 0) as [|_]; [lia|].
  destruct (rev_digits_spec _ n (conj Hn (fuel_enough n Hn))) as (H1 & H2 & H3).
  split; [|split].
  - intros E. apply H1. apply (f_equal (@rev N)) in E.
    rewrite rev_involutive in E. exact E.
  - apply Forall_rev. exact H2.
  - rewrite digits_value_rev. exact H3.
Qed.

Lemma span_digits_app d r :
  Forall (fun c => is_digit c = true) d -> no_digit_ahead r ->
  span_digits (d ++ r) = (d, r).
Proof.
  intros Hd Hr. induction Hd as [|c d Hc Hd IH]; cbn [app].
  - destruct r as [|c r]; [reflexivity|]. cbn [span_digits].
    cbn in Hr. rewrite Hr. reflexivity.
  - cbn [span_digits]. rewrite Hc, IH. reflexivity.
Qed.

Lemma digit_not_special c :
  is_digit c = true ->
  is_white_space c = false /\ N.eqb c HYPHEN = false /\ N.eqb c PLUS = false /\
  is_line_terminator c = false.
Proof.
  intros Hc%is_digit_range.
  unfold is_white_space, is_line_terminator, HYPHEN, PLUS.
  repeat match goal with
         | |- context [N.eqb c ?k] =>
             let E := fresh in
             destruct (N.eqb_spec c k) as [E|E]; [lia|]; clear E
         | |- context [N.leb ?k c] =>
             let E := fresh in
             destruct (N.leb_spec k c) as [E|E]; [lia|]; clear E
         end.
  repeat split; reflexivity.
Qed.

(** [parseInt] reads back what [toString] wrote, whatever follows it. *)
Lemma parseInt_toString n r :
  0 <= n -> no_digit_ahead r -> parseInt (toString n ++ r) = Some n.
Proof.
  intros Hn Hr. destruct (toString_digits n Hn) as (H1 & H2 & H3).
  unfold parseInt.
  destruct (toString n) as [|c d] eqn:E; [congruence|].
  pose proof (Forall_inv H2) as Hc. cbn beta in Hc.
  destruct (digit_not_special c Hc) as (Hw & Hh & Hp & _).
  cbn [app skip_white_space]. rewrite Hw, Hh, Hp.
  change (c :: d ++ r) with ((c :: d) ++ r).
  rewrite (span_digits_app (c :: d) r H2 Hr). cbn [fst].
  rewrite H3. f_equal. lia.
Qed.

End DecimalFacts.

(* ===================================================================== *)
(** ** Range requests *)
(* ===================================================================== *)
Section RangeFacts.
Import JS WebDAVServer.

Lemma indexOf_app a b c :
  Forall (fun d => N.eqb d c = false) a ->
  indexOf (a ++ c :: b) c = Some (length a).
Proof.
  induction 1 as [|d a Hd Ha IH]; cbn [app indexOf length].
  - rewrite N.eqb_refl. reflexivity.
  - rewrite Hd, IH. reflexivity.
Qed.

Lemma substring_prefix (a b : jsstring) c :
  substring (a ++ c :: b) 0 (length a) = a.
Proof.
  unfold substring. rewrite drop_0, Nat.sub_0_r. apply take_app_length.
Qed.

Lemma substringFrom_suffix (a b : jsstring) c :
  substringFrom (a ++ c :: b) (length a + 1) = b.
Proof.
  unfold substringFrom. rewrite <- drop_drop, drop_app_length. reflexivity.
Qed.

(** The header cut at its first hyphen. *)
Lemma parseRangeHeader_parts h a b fileSize :
  Regex.bytes_spec h = Some (a ++ HYPHEN :: b) ->
  Forall (fun d => N.eqb d HYPHEN = false) a ->
  parseRangeHeader h fileSize =
  match rangeBounds a b fileSize with
  | None => None
  | Some (start, end_) =>
      if fileSize <=? start then None
      else Some (start, Z.min end_ (fileSize - 1))
  end.
Proof.
  intros Hs Ha. unfold parseRangeHeader. rewrite Hs.
  rewrite (indexOf_app a b HYPHEN Ha).
  cbn zeta. rewrite substring_prefix, substringFrom_suffix. reflexivity.
Qed.

Lemma parseInt_nil : parseInt [] = None.
Proof. reflexivity. Qed.

Lemma unsatisfiable_no_range fileSize h :
  unsatisfiable fileSize h -> parseRangeHeader h fileSize = None.
Proof.
  intros [Hs | spec Hs Hi | Hs | b Hs Hb | b n Hs Hb Hn | b Hs Hz
          | a b Hs Ha Hne Hp | a b Hs Ha Hne Hnb Hp
          | a b x y Hs Ha Hx Hy Hlt | a b x Hs Ha Hne Hx Hge].
  - unfold parseRangeHeader. rewrite Hs. reflexivity.
  - unfold parseRangeHeader. rewrite Hs, Hi. reflexivity.
  - rewrite (parseRangeHeader_parts h [] [] fileSize Hs); [reflexivity | constructor].
  - rewrite (parseRangeHeader_parts h [] b fileSize Hs) by constructor.
    unfold rangeBounds. destruct b; [reflexivity|]. rewrite Hb. reflexivity.
  - rewrite (parseRangeHeader_parts h [] b fileSize Hs) by constructor.
    unfold rangeBounds. destruct b; [reflexivity|]. rewrite Hb.
    destruct (Z.leb_spec n 0); [reflexivity | lia].
  - rewrite (parseRangeHeader_parts h [] b fileSize Hs) by constructor.
    unfold rangeBounds. destruct b as [|c b]; [reflexivity|].
    destruct (parseInt (c :: b)) as [n|]; [|reflexivity].
    destruct (n <=? 0); [reflexivity|].
    destruct (Z.leb_spec fileSize (Z.max 0 (fileSize - n))); [reflexivity | lia].
  - rewrite (parseRangeHeader_parts h a b fileSize Hs Ha).
    unfold rangeBounds. destruct a; [congruence|]. rewrite Hp.
    destruct b; reflexivity.
  - rewrite (parseRangeHeader_parts h a b fileSize Hs Ha).
    unfold rangeBounds. destruct a; [congruence|]. destruct b; [congruence|].
    rewrite Hp. destruct (parseInt (_ :: a)); reflexivity.
  - rewrite (parseRangeHeader_parts h a b fileSize Hs Ha).
    unfold rangeBounds.
    destruct a; [rewrite parseInt_nil in Hx; discriminate|].
    destruct b; [rewrite parseInt_nil in Hy; discriminate|].
    rewrite Hx, Hy. destruct (Z.ltb_spec y x) as [|]; [|lia].
    rewrite orb_true_r. reflexivity.
  - rewrite (parseRangeHeader_parts h a b fileSize Hs Ha).
    unfold rangeBounds. destruct a as [|c a]; [congruence|]. rewrite Hx.
    destruct b as [|c' b].
    + destruct (x <? 0); [reflexivity|].
      destruct (Z.leb_spec fileSize x); [reflexivity | lia].
    + destruct (parseInt (c' :: b)) as [y|]; [|reflexivity].
      destruct ((x <? 0) || (y <? x)); [reflexivity|].
      destruct (Z.leb_spec fileSize x); [reflexivity | lia].
Qed.

Lemma digits_no_hyphen d :
  Forall (fun c => is_digit c = true) d ->
  Forall (fun c => N.eqb c HYPHEN = false) d.
Proof.
  intros Hd. eapply Forall_impl; [exact Hd|].
  intros c Hc. apply digit_not_special. exact Hc.
Qed.

Lemma bytes_spec_range a b :
  0 <= a -> 0 <= b ->
  Regex.bytes_spec (range_header a b) = Some (toString a ++ HYPHEN :: toString b).
Proof.
  intros Ha Hb. destruct (toString_digits a Ha) as (_ & Hda & _).
  destruct (toString_digits b Hb) as (_ & Hdb & _).
  unfold Regex.bytes_spec, range_header.
  change (startsWith (js "bytes=" ++ toString a ++ js "-" ++ toString b)
            (js "bytes=")) with true.
  change (drop 6 (js "bytes=" ++ toString a ++ js "-" ++ toString b))
    with (toString a ++ HYPHEN :: toString b).
  assert (Hlen : (0 <? length (toString a ++ HYPHEN :: toString b))%nat = true).
  { apply Nat.ltb_lt. rewrite length_app. cbn [length]. lia. }
  assert (Hlt : forallb (fun c => negb (is_line_terminator c))
                  (toString a ++ HYPHEN :: toString b) = true).
  { apply forallb_forall. intros c Hc. apply in_app_or in Hc.
    assert (Hdig : forall d, Forall (fun c => is_digit c = true) d -> In c d ->
                             negb (is_line_terminator c) = true).
    { intros d Hd Hin. rewrite Forall_forall in Hd.
      apply list_elem_of_In in Hin. specialize (Hd c Hin).
      apply digit_not_special in Hd as (_ & _ & _ & ->). reflexivity. }
    destruct Hc as [Hc | [<- | Hc]]; eauto. }
  rewrite Hlen, Hlt. reflexivity.
Qed.

(** A range [a-b] inside the file is read as it is written. *)
Lemma parseRangeHeader_valid a b fileSize :
  0 <= a -> a <= b -> b < fileSize ->
  parseRangeHeader (range_header a b) fileSize = Some (a, b).
Proof.
  intros Ha Hab Hb.
  destruct (toString_digits a Ha) as (Hna & Hda & _).
  destruct (toString_digits b ltac:(lia)) as (Hnb & Hdb & _).
  rewrite (parseRangeHeader_parts _ (toString a) (toString b) fileSize
             (bytes_spec_range a b Ha ltac:(lia)) (digits_no_hyphen _ Hda)).
  pose proof (parseInt_toString a [] Ha I) as Hpa.
  pose proof (parseInt_toString b [] ltac:(lia) I) as Hpb.
  rewrite app_nil_r in Hpa, Hpb.
  unfold rangeBounds.
  destruct (toString a) as [|ca da]; [congruence|].
  destruct (toString b) as [|cb db]; [congruence|].
  rewrite Hpa, Hpb.
  destruct (Z.ltb_spec a 0); [lia|]. destruct (Z.ltb_spec b a); [lia|].
  cbn [orb]. destruct (Z.leb_spec fileSize a); [lia|].
  rewrite Z.min_l by lia. reflexivity.
Qed.

End RangeFacts.

Section GetFileFacts.
Import JS WebDAVServer.

(** A read stream starts where no write stream is active. *)
Lemma read_stream_acquired p (l1 : LockManager.t) :
  LockManager.normalizePath p = p ->
  (forall a, LockManager.activeStreams l1 !! p = Some a ->
             LockManager.type a = LockManager.read) ->
  LockManager.hasStreamingConflict p LockManager.read l1 = (false, l1) /\
  fst (LockManager.acquireStreamLock p LockManager.read None l1) = true.
Proof.
  intros Hn Hstream.
  unfold LockManager.hasStreamingConflict, LockManager.acquireStreamLock,
    bind, gets, modify.
  rewrite Hn.
  destruct (LockManager.activeStreams l1 !! p) as [a|] eqn:Ea;
    [|split; reflexivity].
  specialize (Hstream a eq_refl).
  rewrite !(bool_decide_eq_false_2 (LockManager.read = LockManager.write))
    by discriminate.
  rewrite !(bool_decide_eq_false_2 (LockManager.type a = LockManager.write))
    by (rewrite Hstream; discriminate).
  rewrite bool_decide_eq_true_2 by reflexivity.
  rewrite bool_decide_eq_true_2 by exact Hstream.
  split; reflexivity.
Qed.

(** GET with a Range header on a file that no exclusive WebDAV lock and no
    write stream keeps from being read. *)
Lemma handleGet_file_range env req (st : @WebDAVServer.t MemoryFileSystem.t)
  p data h :
  PathNormalizer.normalizePath (req_path req) = Some p ->
  MemoryFileSystem.fs (filesystem st) !! MemFs.steps p = Some (MemFs.File data) ->
  fst (LockManager.hasWebDAVLock (now env) p (Some LockManager.exclusive)
         (lockManager st)) = false ->
  (forall a, LockManager.activeStreams (lockManager st) !! p = Some a ->
             LockManager.type a = LockManager.read) ->
  header req (js "range") = Some h ->
  exists etag st',
    handleGet env req st =
    (Ok (match parseRangeHeader h (Z.of_nat (length data)) with
         | None => range_not_satisfiable (Z.of_nat (length data))
         | Some (start, end_) =>
             partial_content start end_ (Z.of_nat (length data)) etag data
         end), st').
Proof.
  intros Hp Hfile Hlock Hstream Hhdr.
  pose proof (lock_normalizePath_engine _ _ Hp) as Hn.
  pose proof (hasWebDAVLock_keeps _
                (removeLock_activeStreams (LockManager.activeStreams (lockManager st)))
                (now env) p (Some LockManager.exclusive) (lockManager st)
                (reflexivity _)) as Hkeep.
  destruct (LockManager.hasWebDAVLock (now env) p (Some LockManager.exclusive)
              (lockManager st)) as [locked l1] eqn:E1.
  cbn [fst snd] in *. subst locked.
  destruct st as [f l]. cbn [filesystem lockManager] in *.
  pose proof (existsSync_true _ _ _ Hfile) as Hex.
  destruct (MemoryFileSystem.getEtag (uuid env 0) p f) as [retag f'] eqn:Eetag.
  assert (Hetag : exists etag, retag = Ok etag /\ f' = f).
  { unfold MemoryFileSystem.getEtag in Eetag. injection Eetag as <- <-. eauto. }
  destruct Hetag as (etag & -> & ->).
  exists etag.
  unfold handleGet.
  rewrite (bindE_ok _ _ _ _ _ (normalizePath_ok _ _ _ Hp)).
  unfold bindE at 1, fsE at 1.
  cbn [vfs_exists MemoryFileSystem.vfs filesystem lockManager].
  unfold MemoryFileSystem.exists_ at 1. rewrite Hex. cbn [negb].
  unfold bindE at 1, fsE at 1.
  cbn [vfs_getType MemoryFileSystem.vfs filesystem lockManager].
  unfold MemoryFileSystem.getType at 1. rewrite Hex. cbn [negb].
  unfold bindE at 1, MemoryFileSystem.readFs at 1, MemFs.isDirectory at 1.
  rewrite Hfile. unfold retE at 1, ret at 1.
  rewrite bool_decide_eq_false_2 by discriminate.
  unfold bindE at 1. rewrite lm_run. cbn [filesystem lockManager].
  rewrite E1. cbn [fst snd].
  destruct (read_stream_acquired p l1 Hn) as [Hc Ha].
  { rewrite Hkeep. exact Hstream. }
  unfold bindE at 1. rewrite lm_run. cbn [filesystem lockManager].
  rewrite Hc. cbn [fst snd].
  unfold bindE at 1. rewrite lm_run. cbn [filesystem lockManager].
  rewrite Ha. cbn [negb].
  eexists.
  unfold try_catch.
  unfold bindE at 1, fsE at 1.
  cbn [vfs_getSize MemoryFileSystem.vfs filesystem lockManager].
  unfold MemoryFileSystem.getSize at 1. rewrite Hex. cbn [negb].
  unfold MemoryFileSystem.readFs at 1, MemFs.size at 1. rewrite Hfile.
  unfold bindE at 1, fsE at 1.
  cbn [vfs_getEtag MemoryFileSystem.vfs filesystem lockManager].
  rewrite Eetag. rewrite Hhdr.
  destruct (parseRangeHeader h (Z.of_nat (length data))) as [[start end_]|];
    [|reflexivity].
  unfold bindE, fsE, retE.
  cbn [vfs_getStream MemoryFileSystem.vfs filesystem lockManager].
  unfold MemoryFileSystem.getStream. rewrite Hex. cbn [negb].
  unfold MemoryFileSystem.readFs, MemFs.createReadStream, MemFs.readFileSync.
  rewrite Hfile. reflexivity.
Qed.

End GetFileFacts.

Section GetRangeClaim.
Import JS WebDAVServer.

(** C6 (as amended): GET with a Range header on an existing file of [size]
    bytes that no exclusive WebDAV lock and no write stream keeps from
    being read.  [bytes=-0] gives 416; [bytes=0-0] on a file of one byte
    gives 206 with that byte; a header with no range in the file (see
    [unsatisfiable]: the invalid forms, and a start at or past the size)
    gives 416 with [Content-Range: bytes */size]; a range [a-b] inside the
    file gives 206 with [Content-Range: bytes a-b/size], Content-Length
    [b-a+1] and the bytes [a] to [b]. *)
Theorem handleGet_range env req (st : @WebDAVServer.t MemoryFileSystem.t)
  p data h
  (Hp : PathNormalizer.normalizePath (req_path req) = Some p)
  (Hfile : MemoryFileSystem.fs (filesystem st) !! MemFs.steps p
           = Some (MemFs.File data))
  (Hlock : fst (LockManager.hasWebDAVLock (now env) p
                  (Some LockManager.exclusive) (lockManager st)) = false)
  (Hstream : forall a, LockManager.activeStreams (lockManager st) !! p = Some a ->
                       LockManager.type a = LockManager.read)
  (Hhdr : header req (js "range") = Some h) :
  let size := Z.of_nat (length data) in
  let r := fst (handleGet env req st) in
  (h = js "bytes=-0" -> r = Ok (range_not_satisfiable size)) /\
  (h = js "bytes=0-0" -> size = 1 ->
   exists etag byte,
     data = [byte] /\
     r = Ok (mkResponse 206
               [(js "Content-Range", js "bytes 0-0/1");
                (js "Content-Length", js "1");
                (js "Accept-Ranges", js "bytes");
                (js "ETag", etag)] (Stream [byte]))) /\
  (unsatisfiable size h -> r = Ok (range_not_satisfiable size)) /\
  (forall a b, 0 <= a -> a <= b -> b < size -> h = range_header a b ->
   exists etag, r = Ok (partial_content a b size etag data)).
Proof.
  intros size r.
  destruct (handleGet_file_range env req st p data h Hp Hfile Hlock Hstream Hhdr)
    as (etag & st' & Heq).
  subst r. rewrite Heq. cbn [fst]. fold size.
  split; [|split; [|split]].
  - intros ->. reflexivity.
  - intros -> Hone. fold size. rewrite Hone.
    destruct data as [|byte [|? ?]]; cbn [length] in size; subst size; try lia.
    exists etag, byte. split; reflexivity.
  - intros Hu. rewrite (unsatisfiable_no_range _ _ Hu). reflexivity.
  - intros a b Ha Hab Hb ->. exists etag.
    rewrite (parseRangeHeader_valid a b size Ha Hab Hb). reflexivity.
Qed.

End GetRangeClaim.

Lemma handleGet_range_witness :
  exists etag,
    fst (WebDAVServer.handleGet env0
           (request "/f" [(js "range", range_header 1 3)] None []) st_file)
    = Ok (partial_content 1 3 5 etag (js "hello")).
Proof.
  destruct (handleGet_range env0
              (request "/f" [(js "range", range_header 1 3)] None []) st_file
              (js "/f") (js "hello") (range_header 1 3)) as (_ & _ & _ & H4).
  - reflexivity.
  - vm_compute. reflexivity.
  - vm_compute. reflexivity.
  - intros a Ha. vm_compute in Ha. discriminate.
  - vm_compute. reflexivity.
  - apply (H4 1 3); [lia | lia | vm_compute; reflexivity | reflexivity].
Defined.

(** C6, counterexample: [bytes=1x-2] is not a valid range, and
    [bytes=0-1,3-4] is not a single range, yet on the five bytes of [/f]
    each is answered 206: [parseInt] reads the digits a number starts with
    and ignores what follows them. *)
Lemma handleGet_lenient_range :
  fst (WebDAVServer.handleGet env0
         (request "/f" [(js "range", js "bytes=1x-2")] None []) st_file)
  = Ok (partial_content 1 2 5 (MemoryFileSystem.generateEtag (js "uuid"))
          (js "hello")) /\
  fst (WebDAVServer.handleGet env0
         (request "/f" [(js "range", js "bytes=0-1,3-4")] None []) st_file)
  = Ok (partial_content 0 1 5 (MemoryFileSystem.generateEtag (js "uuid"))
          (js "hello")) /\
  WebDAVServer.status (partial_content 1 2 5
                         (MemoryFileSystem.generateEtag (js "uuid")) (js "hello"))
  = 206.
Proof. repeat split; vm_compute; reflexivity. Qed.

(* ===================================================================== *)
(** ** Invariant (i) along the operations of the lock manager *)
(* ===================================================================== *)
Section InvariantFacts.
Import JS LockManager LockRules.

Lemma removeLock_inv_i tok : preserves inv_i (removeLock tok).
Proof.
  intros s Hs. unfold removeLock.
  destruct (locks s !! tok) as [l0|] eqn:E0; [|exact Hs]. cbn [snd].
  cbn [set_locks pathLocks].
  assert (Hkeep : forall p (S : gset jsstring) t,
            pathLocks s !! p = Some S -> t ∈ S -> t <> tok ->
            exists lock, delete tok (locks s) !! t = Some lock /\ path lock = p).
  { intros p S t HS Hin Hne. destruct (Hs p S t HS Hin) as (lock & Hl & Hp).
    exists lock. split; [|exact Hp]. rewrite lookup_delete_ne by congruence.
    exact Hl. }
  assert (Hother : forall p (S : gset jsstring) t,
            pathLocks s !! p = Some S -> t ∈ S -> p <> path l0 -> t <> tok).
  { intros p S t HS Hin Hp ->. destruct (Hs p S tok HS Hin) as (lock & Hl & Hpl).
    rewrite E0 in Hl. injection Hl as <-. congruence. }
  destruct (pathLocks s !! path l0) as [S0|] eqn:ES0.
  - case_bool_decide as Hsz; intros p S t HS Hin;
      cbn [pathLocks locks set_pathLocks] in *.
    + apply lookup_delete_Some in HS as [Hp HS].
      apply (Hkeep p S t HS Hin). apply (Hother p S t HS Hin). congruence.
    + destruct (decide (p = path l0)) as [->|Hp].
      * rewrite lookup_insert_eq in HS. injection HS as <-.
        apply elem_of_difference in Hin as [Hin Hne].
        apply (Hkeep (path l0) S0 t ES0 Hin).
        intros ->. apply Hne. apply elem_of_singleton. reflexivity.
      * rewrite lookup_insert_ne in HS by congruence.
        apply (Hkeep p S t HS Hin). apply (Hother p S t HS Hin Hp).
  - intros p S t HS Hin. cbn [snd pathLocks locks set_locks] in *.
    apply (Hkeep p S t HS Hin). apply (Hother p S t HS Hin).
    intros ->. rewrite ES0 in HS. discriminate.
Qed.

Lemma cleanupExpiredLocks_keeps P now :
  (forall tok, preserves P (removeLock tok)) ->
  preserves P (cleanupExpiredLocks now).
Proof.
  intros Hrm. unfold cleanupExpiredLocks.
  apply preserves_bind; [apply preserves_gets|]. intros l.
  apply preserves_forM_. exact Hrm.
Qed.

Lemma refreshLock_inv_i now tok timeout :
  preserves inv_i (refreshLock now tok timeout).
Proof.
  intros s Hs. unfold refreshLock, bind, gets, modify, ret.
  destruct (locks s !! tok) as [l0|] eqn:E0; [|exact Hs].
  destruct (isExpired now l0).
  { pose proof (removeLock_inv_i tok s Hs) as H.
    destruct (removeLock tok s). exact H. }
  cbn [snd]. intros p S t HS Hin. cbn [pathLocks locks set_locks] in *.
  destruct (Hs p S t HS Hin) as (lock & Hl & Hp).
  destruct (decide (t = tok)) as [->|Hne].
  - rewrite lookup_insert_eq. eexists. split; [reflexivity|].
    cbn [path]. congruence.
  - rewrite lookup_insert_ne by congruence. eauto.
Qed.

Lemma createLock_inv_i now tok p owner sc depth timeout s :
  locks s !! tok = None -> inv_i s ->
  inv_i (snd (createLock now tok p owner sc depth timeout s)).
Proof.
  intros Hfresh Hs. unfold createLock, bind, gets, modify, ret.
  pose proof (canLock_keeps inv_i removeLock_inv_i now (normalizePath p) sc s Hs)
    as Hinv.
  pose proof (canLock_keeps _ (removeLock_locks_subseteq (locks s))
                now (normalizePath p) sc s (reflexivity _)) as Hsub.
  destruct (canLock now (normalizePath p) sc s) as [ok s1]. cbn [snd] in *.
  destruct ok; cbn [negb snd]; [|exact Hinv].
  assert (Hfresh1 : locks s1 !! tok = None).
  { eapply lookup_weaken_None; [exact Hfresh | exact Hsub]. }
  intros q S t HS Hin. cbn [pathLocks locks set_locks set_pathLocks] in *.
  assert (Hold : forall (S' : gset jsstring) q', pathLocks s1 !! q' = Some S' -> t ∈ S' ->
                 exists lock, <[tok := mkLock tok (normalizePath p) owner
                                          (timeout_or_default timeout s1) now depth sc]>
                                (locks s1) !! t = Some lock /\ path lock = q').
  { intros S' q' HS' Hin'. destruct (Hinv q' S' t HS' Hin') as (lock & Hl & Hp).
    exists lock. split; [|exact Hp].
    rewrite lookup_insert_ne by congruence. exact Hl. }
  destruct (decide (q = normalizePath p)) as [->|Hq].
  - rewrite lookup_insert_eq in HS. injection HS as <-.
    apply elem_of_union in Hin as [Hin | Hin].
    + destruct (pathLocks s1 !! normalizePath p) as [S0|] eqn:E0;
        cbn [default from_option id] in Hin.
      * apply (Hold S0 _ E0 Hin).
      * apply elem_of_empty in Hin. contradiction.
    + apply elem_of_singleton in Hin. subst t. rewrite lookup_insert_eq.
      eexists. split; reflexivity.
  - rewrite lookup_insert_ne in HS by congruence. apply (Hold S q HS Hin).
Qed.

Lemma removeLocksForPath_inv_i p : preserves inv_i (removeLocksForPath p).
Proof.
  intros s Hs q S t HS Hin.
  unfold removeLocksForPath, bind, gets in *.
  destruct (pathLocks s !! normalizePath p) as [S0|] eqn:E0; [|eauto].
  destruct (forM_delete_locks (elements S0) s) as (H1 & _ & H3).
  cbn zeta in H1, H3.
  destruct (forM_ _ (elements S0) s) as [[] s1]. cbn [snd] in *.
  unfold modify in *. cbn [snd pathLocks locks set_pathLocks] in *.
  rewrite H1 in HS. apply lookup_delete_Some in HS as [Hq HS].
  destruct (Hs q S t HS Hin) as (lock & Hl & Hp).
  exists lock. split; [|exact Hp]. rewrite H3.
  rewrite decide_False; [exact Hl|].
  intros Ht%elem_of_elements.
  destruct (Hs _ _ _ E0 Ht) as (lock' & Hl' & Hp'). congruence.
Qed.

(** Writing the new path into the locks of a list of tokens. *)
Lemma forM_move_locks (to : jsstring) l : forall s,
  let s' :=
    snd (forM_ (fun tk =>
                  modify (set_locks (fun ls =>
                    match ls !! tk with
                    | Some lock =>
                        <[tk := mkLock (token lock) to (owner lock) (timeout lock)
                                  (created lock) (depth lock) (scope lock)]> ls
                    | None => ls
                    end))) l s) in
  pathLocks s' = pathLocks s /\
  forall tok,
    (tok ∈ l -> forall lock, locks s !! tok = Some lock ->
                exists lock', locks s' !! tok = Some lock' /\ path lock' = to) /\
    (tok ∉ l -> locks s' !! tok = locks s !! tok).
Proof.
  induction l as [|x l IH]; intros s.
  - cbn [forM_ ret snd]. split; [reflexivity|]. intros tok. split.
    + intros Hin. apply elem_of_nil in Hin. contradiction.
    + reflexivity.
  - rewrite (forM__modify_cons
               (fun tk => set_locks (fun ls =>
                  match ls !! tk with
                  | Some lock =>
                      <[tk := mkLock (token lock) to (owner lock)
                                (timeout lock) (created lock) (depth lock)
                                (scope lock)]> ls
                  | None => ls
                  end))).
    cbn zeta.
    match goal with |- context [forM_ _ l ?s1] => set (s0 := s1) end.
    destruct (IH s0) as (H1 & H2). cbn zeta in H1, H2.
    split; [rewrite H1; reflexivity|].
    assert (Hx : forall lock, locks s !! x = Some lock ->
                 exists lock', locks s0 !! x = Some lock' /\ path lock' = to).
    { intros lock Hl. subst s0. cbn [locks set_locks]. rewrite Hl.
      rewrite lookup_insert_eq. eexists. split; reflexivity. }
    assert (Hne : forall tok, tok <> x -> locks s0 !! tok = locks s !! tok).
    { intros tok Hn. subst s0. cbn [locks set_locks].
      destruct (locks s !! x); [|reflexivity].
      apply lookup_insert_ne. congruence. }
    intros tok. destruct (H2 tok) as [Hin Hout]. split.
    + intros Htok lock Hl.
      destruct (decide (tok ∈ l)) as [Hl'|Hl'].
      * destruct (decide (tok = x)) as [->|Hn].
        -- destruct (Hx lock Hl) as (lock0 & Hl0 & _). apply (Hin Hl' lock0 Hl0).
        -- apply (Hin Hl' lock). rewrite Hne by exact Hn. exact Hl.
      * apply elem_of_cons in Htok as [->|Htok]; [|contradiction].
        rewrite (Hout Hl'). apply (Hx lock). exact Hl.
    + intros Htok. apply not_elem_of_cons in Htok as [Hn Hl'].
      rewrite (Hout Hl'). apply Hne. exact Hn.
Qed.

Lemma moveLocksForPath_inv_i fromPath toPath :
  preserves inv_i (moveLocksForPath fromPath toPath).
Proof.
  intros s Hs q S t HS Hin.
  unfold moveLocksForPath, bind, gets in *.
  destruct (pathLocks s !! normalizePath fromPath) as [S0|] eqn:E0; [|eauto].
  destruct (forM_move_locks (normalizePath toPath) (elements S0) s) as (H1 & H2).
  cbn zeta in H1, H2.
  destruct (forM_ _ (elements S0) s) as [[] s1]. cbn [snd] in *.
  unfold modify in *. cbn [snd pathLocks locks set_pathLocks] in *.
  rewrite H1 in HS. apply lookup_delete_Some in HS as [Hq HS].
  destruct (H2 t) as [Hmoved Hkept].
  destruct (decide (q = normalizePath toPath)) as [->|Hto].
  - rewrite lookup_insert_eq in HS. injection HS as <-.
    destruct (Hs _ _ _ E0 Hin) as (lock & Hl & _).
    apply (Hmoved ltac:(apply elem_of_elements; exact Hin) lock Hl).
  - rewrite lookup_insert_ne in HS by congruence.
    destruct (Hs q S t HS Hin) as (lock & Hl & Hp).
    exists lock. split; [|exact Hp]. rewrite Hkept; [exact Hl|].
    intros Ht%elem_of_elements.
    destruct (Hs _ _ _ E0 Ht) as (lock' & Hl' & Hp'). congruence.
Qed.

(** Invariant (i) holds in every state the lock manager goes through:
    every token of [byPath[p]] resolves to a lock whose path is [p]. *)
Theorem reachable_inv_i lm : reachable lm -> inv_i lm.
Proof.
  induction 1 as [d | o lm Hreach IH Hfresh].
  - intros p S t HS. cbn in HS. rewrite lookup_empty in HS. discriminate.
  - destruct o; cbn [run fresh] in *.
    + apply createLock_inv_i; assumption.
    + apply refreshLock_inv_i. exact IH.
    + apply removeLock_inv_i. exact IH.
    + apply (getLock_keeps inv_i removeLock_inv_i). exact IH.
    + apply removeLocksForPath_inv_i. exact IH.
    + apply moveLocksForPath_inv_i. exact IH.
    + apply (cleanupExpiredLocks_keeps inv_i _ removeLock_inv_i). exact IH.
Qed.

(** At the state reached by two [createLock] and a [moveLocksForPath] onto
    the locked destination, invariant (i) holds. *)
Lemma reachable_inv_i_witness : reachable lm_moved /\ inv_i lm_moved.
Proof.
  assert (H : reachable lm_moved).
  { unfold lm_moved, lm_a. repeat apply reachable_run; try exact I.
    - apply reachable_new.
    - reflexivity.
    - vm_compute. reflexivity. }
  split; [exact H | exact (reachable_inv_i lm_moved H)].
Defined.

End InvariantFacts.

(* ===================================================================== *)
(** ** The header parsers of the request handlers *)
(* ===================================================================== *)
Section HeaderParserFacts.
Import JS WebDAVServer.

(** Whatever the Range header and the size, a range that
    [parseRangeHeader] returns lies inside the file. *)
Theorem parseRangeHeader_within_file h fileSize start end_ :
  parseRangeHeader h fileSize = Some (start, end_) ->
  0 <= start /\ start <= end_ /\ end_ < fileSize.
Proof.
  unfold parseRangeHeader.
  destruct (Regex.bytes_spec h) as [spec|]; [|discriminate].
  destruct (indexOf spec HYPHEN) as [i|]; [|discriminate]. cbn zeta.
  destruct (rangeBounds _ _ fileSize) as [[s e]|] eqn:Eb; [|discriminate].
  destruct (Z.leb_spec fileSize s) as [|Hlt]; [discriminate|].
  intros [= <- <-].
  assert (0 <= s /\ (s <= e \/ e = fileSize - 1)) as [H0 He].
  { unfold rangeBounds in Eb.
    destruct (substring spec 0 i) as [|c a], (substringFrom spec (i + 1)) as [|c' b];
      try discriminate.
    - destruct (parseInt (c' :: b)) as [n|]; [|discriminate].
      destruct (Z.leb_spec n 0); [discriminate|].
      injection Eb as <- <-. lia.
    - destruct (parseInt (c :: a)) as [n|]; [|discriminate].
      destruct (Z.ltb_spec n 0); [discriminate|].
      injection Eb as <- <-. lia.
    - destruct (parseInt (c :: a)) as [x|]; [|discriminate].
      destruct (parseInt (c' :: b)) as [y|]; [|discriminate].
      destruct (Z.ltb_spec x 0); [discriminate|].
      destruct (Z.ltb_spec y x); [discriminate|].
      cbn [orb] in Eb. injection Eb as <- <-. lia. }
  lia.
Qed.

Lemma parseRangeHeader_within_file_witness :
  parseRangeHeader (js "bytes=-2") 5 = Some (3, 4) /\
  0 <= 3 /\ 3 <= 4 /\ 4 < 5.
Proof.
  split; [vm_compute; reflexivity|].
  apply (parseRangeHeader_within_file (js "bytes=-2") 5 3 4).
  vm_compute. reflexivity.
Defined.


Lemma digits_plus_app d r :
  d <> [] -> Forall (fun c => is_digit c = true) d -> no_digit_ahead r ->
  Regex.digits_plus (d ++ r) = Some (d, r).
Proof.
  intros Hne Hd Hr. unfold Regex.digits_plus.
  rewrite (span_digits_app d r Hd Hr). destruct d; [congruence | reflexivity].
Qed.

(** A match of [/Second-(\d+)/i] at the start of the header. *)
Lemma second_at_start h d r :
  Regex.startsWith_ci h (js "Second-") = true ->
  Regex.digits_plus (drop 7 h) = Some (d, r) ->
  Regex.second h = Some d.
Proof.
  intros Hs Hd. destruct h; cbn [Regex.second]; rewrite Hs, Hd; reflexivity.
Qed.




(** White space then a number: the white space is passed. *)
Lemma white_space_plus_space d r :
  d <> [] -> Forall (fun c => is_digit c = true) d ->
  Regex.white_space_plus (32%N :: d ++ r) = Some (d ++ r).
Proof.
  intros Hne Hd. unfold Regex.white_space_plus.
  change (is_white_space 32) with true. cbn [skip_white_space].
  change (is_white_space 32) with true.
  destruct d as [|c d]; [congruence|]. cbn [app skip_white_space].
  apply Forall_inv in Hd. apply digit_not_special in Hd as (-> & _). reflexivity.
Qed.

Lemma digits_not_star d :
  d <> [] -> Forall (fun c => is_digit c = true) d -> forall r,
  Regex.char STAR (d ++ r) = None /\ eqb d [STAR] = false.
Proof.
  intros Hne Hd r. destruct d as [|c d]; [congruence|].
  apply Forall_inv in Hd. apply is_digit_range in Hd.
  cbn [app Regex.char]. split.
  - destruct (N.eqb_spec c STAR) as [->|]; [|reflexivity]. unfold STAR in Hd. lia.
  - apply eqb_false. intros [= -> _]. unfold STAR in Hd. lia.
Qed.



End HeaderParserFacts.

Section LockTokenFacts.
Import JS WebDAVServer.

Lemma until_gt_app tok r :
  GT ∉ tok -> Regex.until_gt (tok ++ GT :: r) = tok.
Proof.
  induction tok as [|c tok IH]; intros Hgt; cbn [app Regex.until_gt].
  - rewrite N.eqb_refl. reflexivity.
  - apply not_elem_of_cons in Hgt as [Hc Hgt].
    destruct (N.eqb_spec c GT) as [->|_]; [congruence|].
    rewrite (IH Hgt). reflexivity.
Qed.

Lemma opaquelocktoken_eq h :
  Regex.opaquelocktoken h =
  match (if startsWith h (js "opaquelocktoken:") then
           match Regex.until_gt (drop 16 h) with
           | [] => None
           | tok => Some tok
           end
         else None) with
  | Some tok => Some tok
  | None => match h with
            | [] => None
            | _ :: h' => Regex.opaquelocktoken h'
            end
  end.
Proof. destruct h; reflexivity. Qed.

(** The token written as [opaquelocktoken:tok>] is found after an opening
    angle bracket or parenthesis. *)
Lemma opaquelocktoken_written tok r :
  tok <> [] -> GT ∉ tok ->
  Regex.opaquelocktoken (js "<opaquelocktoken:" ++ tok ++ GT :: r) = Some tok /\
  Regex.opaquelocktoken (js "(<opaquelocktoken:" ++ tok ++ GT :: r) = Some tok.
Proof.
  intros Hne Hgt.
  assert (H0 : Regex.opaquelocktoken (js "opaquelocktoken:" ++ tok ++ GT :: r)
               = Some tok).
  { rewrite opaquelocktoken_eq.
    change (startsWith (js "opaquelocktoken:" ++ tok ++ GT :: r)
              (js "opaquelocktoken:")) with true.
    change (drop 16 (js "opaquelocktoken:" ++ tok ++ GT :: r))
      with (tok ++ GT :: r).
    rewrite (until_gt_app tok r Hgt). destruct tok; [congruence | reflexivity]. }
  assert (H1 : Regex.opaquelocktoken (js "<opaquelocktoken:" ++ tok ++ GT :: r)
               = Some tok).
  { rewrite opaquelocktoken_eq.
    change (startsWith (js "<opaquelocktoken:" ++ tok ++ GT :: r)
              (js "opaquelocktoken:")) with false.
    exact H0. }
  split; [exact H1|].
  rewrite opaquelocktoken_eq.
  change (startsWith (js "(<opaquelocktoken:" ++ tok ++ GT :: r)
            (js "opaquelocktoken:")) with false.
  exact H1.
Qed.

(** [extractLockToken] finds the token of a Lock-Token header written
    [<opaquelocktoken:tok>], and of an If header written
    [(<opaquelocktoken:tok>)] when the request has no Lock-Token header.  A
    Lock-Token header that holds no token hides the If header. *)
Theorem extractLockToken_written req tok (Hne : tok <> []) (Hgt : GT ∉ tok) :
  (req_headers req !! js "lock-token"
   = Some (js "<opaquelocktoken:" ++ tok ++ js ">") ->
   extractLockToken req = Some tok) /\
  (req_headers req !! js "lock-token" = None ->
   req_headers req !! js "if" = Some (js "(<opaquelocktoken:" ++ tok ++ js ">)") ->
   extractLockToken req = Some tok) /\
  (forall h, header req (js "lock-token") = Some h ->
             Regex.opaquelocktoken h = None ->
             extractLockToken req = None).
Proof.
  destruct (opaquelocktoken_written tok [] Hne Hgt) as [H1 _].
  destruct (opaquelocktoken_written tok (js ")") Hne Hgt) as [_ H2].
  unfold extractLockToken, header. split; [|split].
  - intros ->. exact H1.
  - intros -> ->. exact H2.
  - intros h Hh Hnone. unfold header in Hh. rewrite Hh. exact Hnone.
Qed.

Lemma extractLockToken_written_witness :
  extractLockToken
    (mkRequest (js "/a") {[ js "lock-token" := js "<opaquelocktoken:t1>" ]} None [])
  = Some (js "t1").
Proof.
  refine (proj1 (extractLockToken_written _ (js "t1") _ _) _).
  - discriminate.
  - vm_compute. intros H. repeat (inversion H as [|? ? ? H']; clear H; rename H' into H).
  - vm_compute. reflexivity.
Defined.

End LockTokenFacts.

Section LockPathFacts.
Import JS LockManager.

(** What [normalizePath] of the lock manager does to an absolute path. *)
Lemma lock_normalizePath_absolute (n : jsstring) :
  startsWith n [SLASH] = true ->
  normalizePath n =
  if (1 <? length n)%nat && endsWith n [SLASH] then removelast n else n.
Proof. intros Hs. unfold normalizePath, slice_0_m1. rewrite Hs. reflexivity. Qed.

Lemma snoc_case (l : jsstring) : l = [] \/ exists m c, l = m ++ [c].
Proof. destruct l as [|c m _] using rev_ind; eauto. Qed.

Lemma lock_normalizePath_twice (p : jsstring) :
  startsWith (normalizePath p) [SLASH] = true /\
  (endsWith p [SLASH; SLASH] = false ->
   normalizePath (normalizePath p) = normalizePath p).
Proof.
  set (n := if negb (startsWith p [SLASH]) then SLASH :: p else p).
  assert (Hn : startsWith n [SLASH] = true).
  { subst n. destruct (startsWith p [SLASH]) eqn:E; [exact E | reflexivity]. }
  assert (Hp : normalizePath p =
               if (1 <? length n)%nat && endsWith n [SLASH] then removelast n else n)
    by reflexivity.
  assert (Hends : forall m, n = m ++ [SLASH; SLASH] -> endsWith p [SLASH; SLASH] = true).
  { intros m Hm. subst n. unfold endsWith.
    destruct (startsWith p [SLASH]) eqn:Es; cbn [negb] in Hm.
    - rewrite Hm. rewrite rev_app_distr. reflexivity.
    - destruct m as [|c m]; cbn [app] in Hm.
      + injection Hm as ->. discriminate.
      + injection Hm as _ ->. rewrite rev_app_distr. reflexivity. }
  clearbody n. set (r := normalizePath p) in *.
  assert (startsWith r [SLASH] = true /\
          (endsWith p [SLASH; SLASH] = false ->
           (1 <? length r)%nat && endsWith r [SLASH] = false)) as [H1 H2].
  { destruct (snoc_case n) as [-> | (m & c & ->)]; [discriminate|].
    rewrite endsWith_snoc, removelast_snoc in Hp.
    destruct m as [|d m].
    - cbn in Hp. rewrite Hp. split; [exact Hn | reflexivity].
    - assert (Hlen : (1 <? length ((d :: m) ++ [c]))%nat = true).
      { apply Nat.ltb_lt. rewrite length_app. cbn [length]. lia. }
      rewrite Hlen in Hp. cbn [andb] in Hp.
      destruct (N.eqb_spec SLASH c) as [<-|Hc]; rewrite Hp.
      + split; [exact Hn|]. intros Hnot.
        destruct (snoc_case (d :: m)) as [E0 | (m' & c' & E0)]; [discriminate|].
        rewrite E0, endsWith_snoc.
        destruct (N.eqb_spec SLASH c') as [<-|Hc']; [|apply andb_false_r].
        destruct m' as [|e m']; [reflexivity|].
        rewrite (Hends (e :: m')) in Hnot; [discriminate|].
        rewrite E0, <- app_assoc. reflexivity.
      + split; [exact Hn|]. intros _. rewrite endsWith_snoc.
        destruct (N.eqb_spec SLASH c); [congruence|]. apply andb_false_r. }
  split; [exact H1|]. intros Hnot.
  rewrite (lock_normalizePath_absolute r H1), (H2 Hnot). reflexivity.
Qed.

(** [normalizePath] of the lock manager gives a path that starts with a
    slash; it takes one trailing slash off, so it gives back what it
    returned unless the path ends with two slashes. *)
Theorem lock_normalizePath_idempotent (p : jsstring) :
  startsWith (normalizePath p) [SLASH] = true /\
  (endsWith p [SLASH; SLASH] = false ->
   normalizePath (normalizePath p) = normalizePath p).
Proof. exact (lock_normalizePath_twice p). Qed.

Lemma lock_normalizePath_idempotent_witness :
  normalizePath (normalizePath (js "a/b/")) = normalizePath (js "a/b/").
Proof.
  apply (proj2 (lock_normalizePath_idempotent (js "a/b/"))).
  vm_compute. reflexivity.
Defined.

End LockPathFacts.

(* ===================================================================== *)
(** ** Expiry: what the lock manager removes on sight *)
(* ===================================================================== *)
Section ExpiryFacts.
Import JS LockManager LockRules.

Lemma removeLock_absent tok s :
  locks s !! tok = None -> removeLock tok s = (false, s).
Proof. intros H. unfold removeLock. rewrite H. reflexivity. Qed.

Lemma removeLock_locks tok s :
  locks (snd (removeLock tok s)) = delete tok (locks s).
Proof.
  unfold removeLock. destruct (locks s !! tok) as [l0|] eqn:E0.
  - cbn [snd set_locks pathLocks].
    destruct (pathLocks s !! path l0); [case_bool_decide|]; reflexivity.
  - cbn [snd]. symmetry. apply delete_id. exact E0.
Qed.

Lemma removeLock_fields tok s :
  activeStreams (snd (removeLock tok s)) = activeStreams s /\
  defaultTimeout (snd (removeLock tok s)) = defaultTimeout s.
Proof.
  unfold removeLock. destruct (locks s !! tok) as [l0|]; [|auto].
  cbn [snd set_locks pathLocks].
  destruct (pathLocks s !! path l0); [case_bool_decide|]; auto.
Qed.

(** The sets of [pathLocks] after [removeLock]: the token is taken out of
    the set of the path of its lock. *)
Lemma removeLock_listed tok s l0 p t :
  locks s !! tok = Some l0 ->
  listed (snd (removeLock tok s)) p t <->
  listed s p t /\ (p <> path l0 \/ t <> tok).
Proof.
  intros E0. unfold removeLock, listed. rewrite E0.
  cbn [snd set_locks pathLocks].
  destruct (pathLocks s !! path l0) as [S0|] eqn:ES0.
  - case_bool_decide as Hsz; cbn [pathLocks set_pathLocks set_locks].
    + apply size_empty_inv in Hsz. split.
      * intros (S & HS & Hin). apply lookup_delete_Some in HS as [Hp HS].
        split; [eauto | left; congruence].
      * intros [(S & HS & Hin) Hor].
        destruct (decide (p = path l0)) as [->|Hp].
        -- rewrite ES0 in HS. injection HS as <-.
           destruct Hor as [|Hne]; [congruence|]. exfalso.
           apply (not_elem_of_empty (C:=gset jsstring) t). apply Hsz.
           apply elem_of_difference. split; [exact Hin|].
           intros Heq%elem_of_singleton. congruence.
        -- exists S. split; [|exact Hin]. rewrite lookup_delete_ne by congruence.
           exact HS.
    + destruct (decide (p = path l0)) as [->|Hp].
      * rewrite lookup_insert_eq. split.
        -- intros (S & [= <-] & Hin). apply elem_of_difference in Hin as [Hin Hne].
           split; [eauto|]. right. intros ->. apply Hne. apply elem_of_singleton.
           reflexivity.
        -- intros [(S & HS & Hin) Hor]. rewrite ES0 in HS. injection HS as <-.
           destruct Hor as [|Hne]; [congruence|].
           eexists. split; [reflexivity|]. apply elem_of_difference.
           split; [exact Hin|]. intros Heq%elem_of_singleton. congruence.
      * rewrite lookup_insert_ne by congruence. split.
        -- intros H. split; [exact H | left; exact Hp].
        -- intros [H _]. exact H.
  - cbn [pathLocks set_locks]. split.
    + intros (S & HS & Hin). split; [eauto|]. left. intros ->.
      rewrite ES0 in HS. discriminate.
    + intros [H _]. exact H.
Qed.

Lemma pruned_refl now s : pruned now s s.
Proof. repeat split; auto. Qed.

Lemma pruned_live now s s' tok : pruned now s s' -> live now s' tok = live now s tok.
Proof.
  intros (H1 & _). unfold live in *.
  destruct (H1 tok) as [-> | [-> H]]; [reflexivity|]. symmetry. exact H.
Qed.

Lemma pruned_trans now s s1 s2 :
  pruned now s s1 -> pruned now s1 s2 -> pruned now s s2.
Proof.
  intros H01 H12. pose proof (fun t => pruned_live now s s1 t H01) as Hlive.
  destruct H01 as (A1 & A2 & A3 & A4 & A5), H12 as (B1 & B2 & B3 & B4 & B5).
  split; [|split; [|split; [|split]]].
  - intros t. destruct (B1 t) as [E | [E HL]].
    + rewrite E. apply A1.
    + right. split; [exact E|]. rewrite <- Hlive. exact HL.
  - intros p t H. apply A2, B2. exact H.
  - intros p t H HL. apply B3; [apply A3; assumption|]. rewrite Hlive. exact HL.
  - congruence.
  - congruence.
Qed.

(** Removing a lock that has expired only prunes. *)
Lemma removeLock_pruned now tok s :
  live now s tok = None -> pruned now s (snd (removeLock tok s)).
Proof.
  intros HL. destruct (locks s !! tok) as [l0|] eqn:E0.
  2:{ rewrite (removeLock_absent tok s E0). apply pruned_refl. }
  destruct (removeLock_fields tok s) as [F1 F2].
  split; [|split; [|split; [|split]]]; [| | |exact F1|exact F2].
  - intros t. rewrite removeLock_locks. destruct (decide (t = tok)) as [->|Hne].
    + right. rewrite lookup_delete_eq. auto.
    + left. apply lookup_delete_ne. congruence.
  - intros p t H. apply (removeLock_listed tok s l0 p t E0) in H. tauto.
  - intros p t H HLt. apply (removeLock_listed tok s l0 p t E0).
    split; [exact H|]. right. intros ->. rewrite HL in HLt.
    destruct HLt; discriminate.
Qed.

Lemma getLock_run now tok s :
  getLock now tok s =
  match locks s !! tok with
  | Some l => if isExpired now l then (None, snd (removeLock tok s)) else (Some l, s)
  | None => (None, s)
  end.
Proof.
  unfold getLock, bind, gets, ret.
  destruct (locks s !! tok) as [l|]; [|reflexivity].
  destruct (isExpired now l); [|reflexivity].
  destruct (removeLock tok s). reflexivity.
Qed.

Lemma getLock_fst now tok s : fst (getLock now tok s) = live now s tok.
Proof.
  rewrite getLock_run. unfold live.
  destruct (locks s !! tok) as [l|]; [|reflexivity].
  destruct (isExpired now l); reflexivity.
Qed.

Lemma getLock_pruned now tok s : pruned now s (snd (getLock now tok s)).
Proof.
  rewrite getLock_run. destruct (locks s !! tok) as [l|] eqn:E; [|apply pruned_refl].
  destruct (isExpired now l) eqn:Ee; [|apply pruned_refl].
  cbn [snd]. apply removeLock_pruned. unfold live. rewrite E, Ee. reflexivity.
Qed.

Lemma getLock_after now tok s :
  locks (snd (getLock now tok s)) !! tok = live now s tok.
Proof.
  rewrite getLock_run. unfold live. destruct (locks s !! tok) as [l|] eqn:E.
  - destruct (isExpired now l); cbn [snd]; [|exact E].
    rewrite removeLock_locks. apply lookup_delete_eq.
  - exact E.
Qed.

(** [getLock] returns the lock of the token exactly when it has not
    expired.  Afterwards [locks] holds a lock for the token only if it was
    returned, the lock of no other token has changed, and nothing at all
    has changed when a lock was returned. *)
Theorem getLock_live now tok s :
  let r := getLock now tok s in
  fst r = live now s tok /\
  locks (snd r) !! tok = live now s tok /\
  (forall t, t <> tok -> locks (snd r) !! t = locks s !! t) /\
  (is_Some (live now s tok) -> snd r = s).
Proof.
  cbn zeta. split; [apply getLock_fst|]. split; [apply getLock_after|]. split.
  - intros t Hne. rewrite getLock_run.
    destruct (locks s !! tok) as [l|]; [|reflexivity].
    destruct (isExpired now l); cbn [snd]; [|reflexivity].
    rewrite removeLock_locks. apply lookup_delete_ne. congruence.
  - intros [l Hl]. rewrite getLock_run. unfold live in Hl.
    destruct (locks s !! tok) as [l'|]; [|reflexivity].
    destruct (isExpired now l'); [discriminate | reflexivity].
Qed.

Lemma collectM_cons {S A B} (f : A -> M S (option B)) x l s :
  collectM f (x :: l) s =
  let '(y, s1) := f x s in
  let '(ys, s2) := collectM f l s1 in
  (match y with Some b => b :: ys | None => ys end, s2).
Proof. reflexivity. Qed.

(** One pass of [getLock] over a list of tokens: the locks that have not
    expired are collected, the others are pruned. *)
Lemma collectM_getLock now l : forall s,
  let r := collectM (getLock now) l s in
  fst r = omap (live now s) l /\
  pruned now s (snd r) /\
  (forall t, t ∈ l -> locks (snd r) !! t = live now s t).
Proof.
  induction l as [|x l IH]; intros s; cbn zeta.
  - cbn [collectM ret fst snd omap]. split; [reflexivity|].
    split; [apply pruned_refl|]. intros t Ht. apply elem_of_nil in Ht. contradiction.
  - rewrite !collectM_cons.
    pose proof (getLock_fst now x s) as Hx.
    pose proof (getLock_pruned now x s) as Hp.
    pose proof (getLock_after now x s) as Ha.
    destruct (getLock now x s) as [y s1]. cbn [fst snd] in Hx, Hp, Ha.
    destruct (IH s1) as (H1 & H2 & H3). cbn zeta in H1, H2, H3.
    destruct (collectM (getLock now) l s1) as [ys s2]. cbn [fst snd] in *.
    assert (Hlive : forall t, live now s1 t = live now s t)
      by (intros t; apply (pruned_live now s s1 t Hp)).
    split; [|split].
    + change (omap (live now s) (x :: l))
        with (match live now s x with
              | Some b => b :: omap (live now s) l
              | None => omap (live now s) l
              end).
      rewrite <- Hx. subst ys.
      assert (Ho : omap (live now s1) l = omap (live now s) l).
      { clear -Hlive. induction l as [|a l IH]; [reflexivity|].
        change (omap ?f (a :: l))
          with (match f a with Some b => b :: omap f l | None => omap f l end).
        rewrite Hlive, IH. reflexivity. }
      rewrite Ho. destruct y; reflexivity.
    + eapply pruned_trans; eassumption.
    + intros t Ht. apply elem_of_cons in Ht as [->|Ht].
      * destruct H2 as (B1 & _). destruct (B1 x) as [E | [E HL]].
        -- rewrite E. exact Ha.
        -- rewrite E. rewrite Hlive in HL. symmetry. exact HL.
      * rewrite (H3 t Ht). apply Hlive.
Qed.

End ExpiryFacts.

Section IsLockedFacts.
Import JS LockManager LockRules.

Lemma getLocksForPath_spec now q s :
  let r := getLocksForPath now q s in
  (forall l, l ∈ fst r <->
             exists tok, listed s (normalizePath q) tok /\ live now s tok = Some l) /\
  pruned now s (snd r) /\
  (forall tok, listed s (normalizePath q) tok ->
               locks (snd r) !! tok = live now s tok).
Proof.
  cbn zeta. unfold getLocksForPath, bind, gets, listed.
  destruct (pathLocks s !! normalizePath q) as [S|] eqn:ES.
  - destruct (collectM_getLock now (elements S) s) as (H1 & H2 & H3).
    cbn zeta in H1, H2, H3.
    destruct (collectM (getLock now) (elements S) s) as [ls s']. cbn [fst snd] in *.
    split; [|split].
    + intros l. rewrite H1, list_elem_of_omap. split.
      * intros (tok & Hin & Hl). exists tok. split; [|exact Hl].
        exists S. split; [reflexivity|]. apply elem_of_elements. exact Hin.
      * intros (tok & (S' & [= <-] & Hin) & Hl). exists tok.
        split; [apply elem_of_elements; exact Hin | exact Hl].
    + exact H2.
    + intros tok (S' & [= <-] & Hin). apply H3. apply elem_of_elements. exact Hin.
  - cbn [ret fst snd]. split; [|split].
    + intros l. split.
      * intros H. apply elem_of_nil in H. contradiction.
      * intros (tok & (S' & [=] & _) & _).
    + apply pruned_refl.
    + intros tok (S' & [=] & _).
Qed.

Lemma filter_nonempty {A} (g : A -> bool) (ls : list A) :
  (0 <? length (List.filter g ls))%nat = true <-> exists l, l ∈ ls /\ g l = true.
Proof.
  split.
  - intros H%Nat.ltb_lt. destruct (List.filter g ls) as [|l r] eqn:E;
      [cbn in H; lia|].
    assert (Hin : In l (List.filter g ls)) by (rewrite E; left; reflexivity).
    apply filter_In in Hin as [Hin Hg]. exists l.
    split; [apply list_elem_of_In; exact Hin | exact Hg].
  - intros (l & Hin & Hg). apply Nat.ltb_lt.
    assert (Hin' : In l (List.filter g ls)).
    { apply filter_In. split; [apply list_elem_of_In; exact Hin | exact Hg]. }
    destruct (List.filter g ls); [contradiction | cbn; lia].
Qed.

Lemma pruned_listed_live now s s' q tok l :
  pruned now s s' ->
  (listed s' q tok /\ live now s' tok = Some l) <->
  (listed s q tok /\ live now s tok = Some l).
Proof.
  intros Hp. rewrite (pruned_live now s s' tok Hp).
  destruct Hp as (_ & A2 & A3 & _). split.
  - intros [H1 H2]. split; [apply A2; exact H1 | exact H2].
  - intros [H1 H2]. split; [apply A3; [exact H1 | rewrite H2; eauto] | exact H2].
Qed.

Lemma anyM_cons {S A} (f : A -> M S bool) x l s :
  anyM f (x :: l) s =
  let '(b, s1) := f x s in if b then (true, s1) else anyM f l s1.
Proof.
  cbn [anyM]. unfold bind. destruct (f x s) as [[] s1]; reflexivity.
Qed.

(** The loop of [isLocked] over the parent paths. *)
Lemma anyM_parents now ex l : forall s b s',
  anyM (fun parentPath =>
          let* ls := getLocksForPath now parentPath in
          let parentLocks :=
            List.filter (fun lock => eqb (depth lock) infinity
                                     && not_excluded ex lock) ls in
          ret (0 <? length parentLocks)%nat) l s = (b, s') ->
  pruned now s s' /\
  (b = true <->
   exists q tok lk, q ∈ l /\ listed s (normalizePath q) tok /\
                    live now s tok = Some lk /\ depth lk = infinity /\
                    not_excluded ex lk = true).
Proof.
  induction l as [|x l IH]; intros s b s' E.
  - cbn [anyM ret] in E. injection E as <- <-. split; [apply pruned_refl|].
    split; [discriminate|].
    intros (q & ? & ? & Hq & _). apply elem_of_nil in Hq. contradiction.
  - rewrite anyM_cons in E. unfold bind in E.
    destruct (getLocksForPath_spec now x s) as (G1 & G2 & _). cbn zeta in G1, G2.
    destruct (getLocksForPath now x s) as [ls s1]. cbn [fst snd] in G1, G2.
    cbn [ret] in E.
    match type of E with
    | context [if ?c then _ else _] => set (c0 := c) in E
    end.
    assert (Hb : c0 = true <->
                 exists tok lk, listed s (normalizePath x) tok /\
                                live now s tok = Some lk /\ depth lk = infinity /\
                                not_excluded ex lk = true).
    { subst c0. rewrite filter_nonempty. split.
      - intros (lk & Hin & Hg). apply andb_true_iff in Hg as [Hd He].
        apply eqb_true in Hd. apply G1 in Hin as (tok & H1 & H2). eauto 10.
      - intros (tok & lk & H1 & H2 & Hd & He). exists lk. split.
        + apply G1. eauto.
        + apply andb_true_iff. split; [apply eqb_true; exact Hd | exact He]. }
    destruct c0.
    + injection E as <- <-. split; [exact G2|]. split; [|reflexivity]. intros _.
      destruct (proj1 Hb eq_refl) as (tok & lk & H). exists x, tok, lk.
      split; [apply elem_of_cons; auto | exact H].
    + destruct (IH s1 b s' E) as [I1 I2].
      split; [eapply pruned_trans; eassumption|]. rewrite I2. split.
      * intros (q & tok & lk & Hq & H1 & H2 & H3).
        exists q, tok, lk. split; [apply elem_of_cons; auto|].
        split; [|split; [|exact H3]];
          apply (pruned_listed_live now s s1 (normalizePath q) tok lk G2); auto.
      * intros (q & tok & lk & Hq & H1 & H2 & H3).
        apply elem_of_cons in Hq as [->|Hq].
        -- assert (false = true); [|discriminate]. apply Hb. eauto 10.
        -- exists q, tok, lk. split; [exact Hq|].
           split; [|split; [|exact H3]];
             apply (pruned_listed_live now s s1 (normalizePath q) tok lk G2); auto.
Qed.

Lemma isLocked_spec now p ex s :
  let np := normalizePath p in
  let r := isLocked now p ex s in
  pruned now s (snd r) /\
  (fst r = true <->
   exists q tok l,
     listed s (normalizePath q) tok /\ live now s tok = Some l /\
     not_excluded ex l = true /\
     ((q = np /\ path l = np) \/
      (q ∈ parentPaths (segments np) /\ depth l = infinity))).
Proof.
  cbn zeta. destruct (isLocked now p ex s) as [b s'] eqn:E. cbn [fst snd].
  unfold isLocked in E. set (np := normalizePath p) in *. unfold bind in E.
  destruct (getLocksForPath_spec now np s) as (G1 & G2 & _). cbn zeta in G1, G2.
  destruct (getLocksForPath now np s) as [ls s1]. cbn [fst snd] in G1, G2.
  match type of E with
  | context [if ?c then _ else _] => set (c0 := c) in E
  end.
  assert (Hb : c0 = true <->
               exists tok l, listed s (normalizePath np) tok /\
                             live now s tok = Some l /\ path l = np /\
                             not_excluded ex l = true).
  { subst c0. rewrite filter_nonempty. split.
    - intros (lk & Hin & Hg). apply andb_true_iff in Hg as [Hd He].
      apply eqb_true in Hd. apply G1 in Hin as (tok & H1 & H2). eauto 10.
    - intros (tok & lk & H1 & H2 & Hd & He). exists lk. split.
      + apply G1. eauto.
      + apply andb_true_iff. split; [apply eqb_true; exact Hd | exact He]. }
  destruct c0.
  - cbn [ret] in E. injection E as <- <-. split; [exact G2|].
    split; [|reflexivity]. intros _.
    destruct (proj1 Hb eq_refl) as (tok & l & H1 & H2 & H3 & H4).
    exists np, tok, l. auto 10.
  - fold (segments np) in E.
    destruct (anyM_parents now ex (parentPaths (segments np)) s1 b s' E) as [I1 I2].
    split; [eapply pruned_trans; eassumption|].
    rewrite I2. split.
    + intros (q & tok & lk & Hq & H1 & H2 & H3 & H4).
      exists q, tok, lk.
      split; [|split; [|split; [exact H4 | right; auto]]];
        apply (pruned_listed_live now s s1 (normalizePath q) tok lk G2); auto.
    + intros (q & tok & lk & H1 & H2 & H3 & [[-> H4] | [Hq H4]]).
      * assert (false = true); [|discriminate]. apply Hb. eauto 10.
      * exists q, tok, lk. split; [exact Hq|].
        split; [|split; [|auto]];
          apply (pruned_listed_live now s s1 (normalizePath q) tok lk G2); auto.
Qed.

End IsLockedFacts.

Section CreateLockFacts.
Import JS LockManager LockRules.

Lemma pruned_resolved now s s' tok :
  pruned now s s' -> locks s !! tok = live now s tok ->
  locks s' !! tok = live now s tok.
Proof.
  intros (H1 & _) E. destruct (H1 tok) as [-> | [-> <-]]; [exact E | reflexivity].
Qed.

(** After [isLocked] the tokens listed under the path resolve to locks
    that have not expired, or to none. *)
Lemma isLocked_post now p ex s tok :
  listed s (normalizePath (normalizePath p)) tok ->
  locks (snd (isLocked now p ex s)) !! tok = live now s tok.
Proof.
  intros Hl. destruct (isLocked now p ex s) as [b s'] eqn:E. cbn [snd].
  unfold isLocked in E. set (np := normalizePath p) in *. unfold bind in E.
  destruct (getLocksForPath_spec now np s) as (_ & G2 & G3). cbn zeta in G2, G3.
  destruct (getLocksForPath now np s) as [ls s1]. cbn [fst snd] in G2, G3.
  specialize (G3 tok Hl).
  assert (Hp : pruned now s1 s').
  { destruct (0 <? length _)%nat in E.
    - cbn [ret] in E. injection E as <- <-. apply pruned_refl.
    - apply (anyM_parents now ex _ s1 b s' E). }
  rewrite <- (pruned_live now s s1 tok G2).
  apply (pruned_resolved now s1 s' tok Hp).
  rewrite (pruned_live now s s1 tok G2). exact G3.
Qed.

(** The paths the loop of [isLocked] visits are the paths of the proper
    prefixes of the segments. *)
Lemma parentPaths_spec L q :
  q ∈ parentPaths L <->
  exists i, (i < length L)%nat /\ q = SLASH :: join [SLASH] (take i L).
Proof.
  unfold parentPaths. rewrite list_elem_of_fmap. split.
  - intros (i & -> & Hi). exists i. split; [|reflexivity].
    apply list_elem_of_In, in_rev, in_seq in Hi. lia.
  - intros (i & Hi & ->). exists i. split; [reflexivity|].
    apply list_elem_of_In. rewrite <- in_rev. apply in_seq. lia.
Qed.

(** [isLocked(path, excludeToken)] is true exactly when a token listed in
    [pathLocks] resolves to a lock that has not expired and is not the
    excluded one, and that is listed under the path itself and has that
    path, or is listed under the path of a proper prefix of its segments
    and has depth infinity.  It only prunes. *)
Theorem isLocked_iff now p ex s :
  let np := normalizePath p in
  let r := isLocked now p ex s in
  pruned now s (snd r) /\
  (fst r = true <->
   exists q tok l,
     listed s (normalizePath q) tok /\ live now s tok = Some l /\
     not_excluded ex l = true /\
     ((q = np /\ path l = np) \/
      ((exists i, (i < length (segments np))%nat /\
                  q = SLASH :: join [SLASH] (take i (segments np))) /\
       depth l = infinity))).
Proof.
  cbn zeta. destruct (isLocked_spec now p ex s) as [H1 H2]. cbn zeta in H1, H2.
  split; [exact H1|]. rewrite H2. split.
  - intros (q & tok & l & A & B & C & [D | [D E]]).
    + exists q, tok, l. auto 10.
    + apply parentPaths_spec in D. exists q, tok, l. auto 10.
  - intros (q & tok & l & A & B & C & [D | [D E]]).
    + exists q, tok, l. auto 10.
    + apply parentPaths_spec in D. exists q, tok, l. auto 10.
Qed.

(** [canLock] on a path in normal form: an exclusive lock is refused
    exactly when [isLocked] holds, a shared one exactly when a lock listed
    under the path that has not expired is exclusive. *)
Lemma canLock_iff now p sc s :
  normalizePath p = p ->
  let r := canLock now p sc s in
  pruned now s (snd r) /\
  (forall tok, listed s p tok -> locks (snd r) !! tok = live now s tok) /\
  (fst r = false <->
   match sc with
   | exclusive =>
       exists q tok l,
         listed s (normalizePath q) tok /\ live now s tok = Some l /\
         ((q = p /\ path l = p) \/
          (q ∈ parentPaths (segments p) /\ depth l = infinity))
   | shared =>
       exists tok l,
         listed s p tok /\ live now s tok = Some l /\ scope l = exclusive
   end).
Proof.
  intros Hp. cbn zeta. unfold canLock. rewrite Hp. destruct sc.
  - unfold bind.
    destruct (isLocked_spec now p None s) as [I1 I2]. cbn zeta in I1, I2.
    pose proof (fun tok => isLocked_post now p None s tok) as I3.
    rewrite !Hp in I2.
    destruct (isLocked now p None s) as [b s']. cbn [fst snd ret] in *.
    split; [exact I1|].
    split; [intros tok Hl; apply I3; rewrite !Hp; exact Hl|].
    rewrite negb_false_iff, I2. split.
    + intros (q & tok & l & H1 & H2 & _ & H4). eauto 10.
    + intros (q & tok & l & H1 & H2 & H4). exists q, tok, l. auto.
  - unfold bind.
    destruct (getLocksForPath_spec now p s) as (G1 & G2 & G3). cbn zeta in G1, G2, G3.
    rewrite Hp in G1, G3.
    destruct (getLocksForPath now p s) as [ls s']. cbn [fst snd ret] in *.
    split; [exact G2|]. split; [exact G3|].
    rewrite Nat.eqb_neq. split.
    + intros Hne.
      destruct (List.filter _ ls) as [|l r] eqn:E; [cbn in Hne; lia|].
      assert (Hin : In l (List.filter
                            (fun lock => bool_decide (scope lock = exclusive)) ls))
        by (rewrite E; left; reflexivity).
      apply filter_In in Hin as [Hin Hg]. apply bool_decide_eq_true in Hg.
      apply list_elem_of_In, G1 in Hin as (tok & H1 & H2). eauto.
    + intros (tok & l & H1 & H2 & H3).
      assert (Hin : In l (List.filter
                            (fun lock => bool_decide (scope lock = exclusive)) ls)).
      { apply filter_In. split.
        - apply list_elem_of_In, G1. eauto.
        - apply bool_decide_eq_true. exact H3. }
      destruct (List.filter _ ls); [contradiction | cbn; lia].
Qed.

Lemma createLock_run now tok p owner sc depth timeout s :
  normalizePath p = p ->
  createLock now tok p owner sc depth timeout s =
  let '(ok, s1) := canLock now p sc s in
  if ok then
    let lock := mkLock tok p owner (timeout_or_default timeout s1) now depth sc in
    (Ok lock,
     set_pathLocks (fun pl => <[p := default ∅ (pl !! p) ∪ {[tok]}]> pl)
       (set_locks (<[tok := lock]>) s1))
  else (Throw (js "Resource is already locked"), s1).
Proof.
  intros Hp. unfold createLock, bind, gets, modify, ret. rewrite Hp.
  destruct (canLock now p sc s) as [[] s1]; reflexivity.
Qed.

End CreateLockFacts.

Section CreateLockFacts2.
Import JS LockManager LockRules.

(** [createLock] on a path in normal form.  An exclusive lock is refused
    when a lock that has not expired is listed under the path, or under a
    parent path with depth infinity; a shared lock is refused when an
    exclusive lock that has not expired is listed under the path.  A
    refusal throws and only prunes.  Otherwise the lock is returned with the
    token drawn, the path, the scope and the clock reading; it is stored
    under its token and listed under its path, and until it expires the
    token is valid for the path and the path is locked. *)
Theorem createLock_granted_or_refused now tok p owner sc depth timeout s
  (Hp : normalizePath p = p) :
  let r := createLock now tok p owner sc depth timeout s in
  let conflict :=
    match sc with
    | exclusive =>
        exists q t l,
          listed s (normalizePath q) t /\ live now s t = Some l /\
          ((q = p /\ path l = p) \/
           (q ∈ parentPaths (segments p) /\ LockManager.depth l = infinity))
    | shared =>
        exists t l, listed s p t /\ live now s t = Some l /\ scope l = exclusive
    end in
  (conflict ->
   fst r = Throw (js "Resource is already locked") /\ pruned now s (snd r)) /\
  (~ conflict ->
   exists lock,
     fst r = Ok lock /\
     token lock = tok /\ path lock = p /\ scope lock = sc /\ created lock = now /\
     locks (snd r) !! tok = Some lock /\ listed (snd r) p tok /\
     forall now', now' <= now + LockManager.timeout lock * 1000 ->
       fst (hasValidLockToken now' p tok (snd r)) = true /\
       fst (isLocked now' p None (snd r)) = true).
Proof.
  cbn zeta. rewrite (createLock_run now tok p owner sc depth timeout s Hp).
  destruct (canLock_iff now p sc s Hp) as (C1 & _ & C3). cbn zeta in C1, C3.
  destruct (canLock now p sc s) as [ok s1]. cbn [fst snd] in C1, C3.
  split.
  - intros Hc. apply C3 in Hc. subst ok. cbn [fst snd]. auto.
  - intros Hc. destruct ok; [|exfalso; apply Hc, C3; reflexivity].
    cbn [fst snd]. eexists. split; [reflexivity|].
    cbn [token path scope created LockManager.timeout].
    do 4 (split; [reflexivity|]).
    set (lock := mkLock tok p owner (timeout_or_default timeout s1) now depth sc).
    set (s2 := set_pathLocks _ _).
    assert (Hl : locks s2 !! tok = Some lock).
    { subst s2. cbn [locks set_pathLocks set_locks]. apply lookup_insert_eq. }
    assert (Hs : listed s2 p tok).
    { subst s2. unfold listed. cbn [pathLocks set_pathLocks set_locks].
      rewrite lookup_insert_eq. eexists. split; [reflexivity|].
      apply elem_of_union_r, elem_of_singleton. reflexivity. }
    split; [exact Hl|]. split; [exact Hs|].
    intros now' Hnow.
    assert (He : isExpired now' lock = false).
    { unfold isExpired. subst lock. cbn [created LockManager.timeout].
      apply Z.ltb_ge. lia. }
    split.
    + apply hasValidLockToken_true. exists lock. rewrite Hp. auto.
    + apply (isLocked_spec now' p None s2). exists p, tok, lock.
      rewrite !Hp. split; [exact Hs|]. split.
      * unfold live. rewrite Hl, He. reflexivity.
      * split; [reflexivity|]. left. auto.
Qed.

Lemma createLock_granted_or_refused_witness :
  exists lock,
    fst (createLock 0 (js "t1") (js "/a") (js "u") exclusive infinity (Some 60)
           (LockManager.new None)) = Ok lock /\
    token lock = js "t1".
Proof.
  destruct (createLock_granted_or_refused 0 (js "t1") (js "/a") (js "u") exclusive
              infinity (Some 60) (LockManager.new None) eq_refl) as [_ H].
  destruct H as (lock & H1 & H2 & _).
  - intros (q & t & l & _ & Hl & _). vm_compute in Hl. discriminate.
  - exists lock. auto.
Defined.

End CreateLockFacts2.

(* ===================================================================== *)
(** ** An exclusive lock shares its path with no other lock *)
(* ===================================================================== *)
Section ExclusiveFacts.
Import JS LockManager LockRules.

(** [exclusive_alone] in terms of the tokens listed. *)
Lemma exclusive_alone_listed s :
  exclusive_alone s <->
  (forall p t t' l, listed s p t -> locks s !! t = Some l -> scope l = exclusive ->
                    listed s p t' -> t' = t).
Proof.
  unfold exclusive_alone, listed. split.
  - intros H p t t' l (S & HS & Hin) Hl Hsc (S' & HS' & Hin').
    rewrite HS in HS'. injection HS' as <-.
    rewrite (H p S t l HS Hin Hl Hsc) in Hin'.
    apply elem_of_singleton in Hin'. exact Hin'.
  - intros H p S t l HS Hin Hl Hsc. apply set_eq. intros t'.
    rewrite elem_of_singleton. split.
    + intros Hin'. apply (H p t t' l); eauto.
    + intros ->. exact Hin.
Qed.

Lemma removeLock_exclusive_alone tok : preserves exclusive_alone (removeLock tok).
Proof.
  intros s Hs. destruct (locks s !! tok) as [l0|] eqn:E0.
  2:{ rewrite (removeLock_absent tok s E0). exact Hs. }
  apply exclusive_alone_listed.
  pose proof (proj1 (exclusive_alone_listed _) Hs) as Hs'. clear Hs.
  rename Hs' into Hs.
  intros p t t' l H1 H2 H3 H4.
  apply (removeLock_listed tok s l0 p t E0) in H1 as [H1 _].
  apply (removeLock_listed tok s l0 p t' E0) in H4 as [H4 _].
  rewrite removeLock_locks in H2. apply lookup_delete_Some in H2 as [_ H2].
  apply (Hs p t t' l); assumption.
Qed.

Lemma refreshLock_exclusive_alone now tok timeout :
  preserves exclusive_alone (refreshLock now tok timeout).
Proof.
  intros s Hs. unfold refreshLock, bind, gets, modify, ret.
  destruct (locks s !! tok) as [l0|] eqn:E0; [|exact Hs].
  destruct (isExpired now l0).
  { pose proof (removeLock_exclusive_alone tok s Hs) as H.
    destruct (removeLock tok s). exact H. }
  cbn [snd]. intros p S t l HS Hin Hl Hsc.
  cbn [pathLocks locks set_locks] in *.
  destruct (decide (t = tok)) as [->|Hne].
  - rewrite lookup_insert_eq in Hl. injection Hl as <-. cbn [scope] in Hsc.
    apply (Hs p S tok l0); assumption.
  - rewrite lookup_insert_ne in Hl by congruence. apply (Hs p S t l); assumption.
Qed.

Lemma removeLocksForPath_exclusive_alone p :
  preserves exclusive_alone (removeLocksForPath p).
Proof.
  intros s Hs q S t l HS Hin Hl Hsc.
  destruct (removeLocksForPath_purges p s) as (_ & _ & P3 & _). cbn zeta in P3.
  apply P3 in Hl.
  unfold removeLocksForPath, bind, gets in HS.
  destruct (pathLocks s !! normalizePath p) as [S0|] eqn:E0.
  - destruct (forM_delete_locks (elements S0) s) as (H1 & _). cbn zeta in H1.
    destruct (forM_ _ (elements S0) s) as [[] s1]. cbn [snd] in *.
    unfold modify in HS. cbn [snd pathLocks set_pathLocks] in HS.
    rewrite H1 in HS. apply lookup_delete_Some in HS as [_ HS].
    apply (Hs q S t l); assumption.
  - apply (Hs q S t l); assumption.
Qed.

(** Moving locks changes their path and nothing else. *)
Lemma forM_move_scope (to : jsstring) l : forall s tok,
  scope <$> locks
    (snd (forM_ (fun tk =>
                   modify (set_locks (fun ls =>
                     match ls !! tk with
                     | Some lock =>
                         <[tk := mkLock (token lock) to (owner lock) (timeout lock)
                                   (created lock) (depth lock) (scope lock)]> ls
                     | None => ls
                     end))) l s)) !! tok
  = scope <$> locks s !! tok.
Proof.
  induction l as [|x l IH]; intros s tok; [reflexivity|].
  rewrite (forM__modify_cons
             (fun tk => set_locks (fun ls =>
                match ls !! tk with
                | Some lock =>
                    <[tk := mkLock (token lock) to (owner lock)
                              (timeout lock) (created lock) (depth lock)
                              (scope lock)]> ls
                | None => ls
                end))).
  rewrite IH. cbn [locks set_locks].
  destruct (locks s !! x) as [l0|] eqn:E0; [|reflexivity].
  destruct (decide (tok = x)) as [->|Hne].
  - rewrite lookup_insert_eq, E0. reflexivity.
  - rewrite lookup_insert_ne by congruence. reflexivity.
Qed.

Lemma moveLocksForPath_exclusive_alone fromPath toPath :
  preserves exclusive_alone (moveLocksForPath fromPath toPath).
Proof.
  intros s Hs q S t l HS Hin Hl Hsc.
  unfold moveLocksForPath, bind, gets in *.
  destruct (pathLocks s !! normalizePath fromPath) as [S0|] eqn:E0.
  2:{ apply (Hs q S t l); assumption. }
  destruct (forM_move_locks (normalizePath toPath) (elements S0) s) as (H1 & _).
  pose proof (forM_move_scope (normalizePath toPath) (elements S0) s t) as H2.
  cbn zeta in H1.
  destruct (forM_ _ (elements S0) s) as [[] s1]. cbn [snd] in *.
  unfold modify in *. cbn [snd pathLocks locks set_pathLocks] in *.
  rewrite Hl in H2. cbn in H2.
  destruct (locks s !! t) as [l'|] eqn:El; [|discriminate].
  cbn in H2. injection H2 as H2.
  rewrite H1 in HS. apply lookup_delete_Some in HS as [_ HS].
  destruct (decide (q = normalizePath toPath)) as [->|Hto].
  - rewrite lookup_insert_eq in HS. injection HS as <-.
    apply (Hs (normalizePath fromPath) S0 t l'); [assumption..|congruence].
  - rewrite lookup_insert_ne in HS by congruence.
    apply (Hs q S t l'); [assumption..|congruence].
Qed.

(** [createLock] keeps the two invariants when the token is new and the
    path is in normal form. *)
Lemma createLock_exclusive_alone now tok p owner sc depth timeout s :
  normalizePath p = p ->
  locks s !! tok = None -> inv_i s -> exclusive_alone s ->
  exclusive_alone (snd (createLock now tok p owner sc depth timeout s)).
Proof.
  intros Hp Hfresh Hi Hs.
  rewrite (createLock_run now tok p owner sc depth timeout s Hp).
  pose proof (canLock_keeps inv_i removeLock_inv_i now p sc s Hi) as Hi1.
  pose proof (canLock_keeps exclusive_alone removeLock_exclusive_alone now p sc s Hs)
    as Hs1.
  pose proof (canLock_keeps _ (removeLock_locks_subseteq (locks s))
                now p sc s (reflexivity _)) as Hsub.
  destruct (canLock_iff now p sc s Hp) as (C1 & C2 & C3). cbn zeta in C1, C2, C3.
  destruct (canLock now p sc s) as [ok s1]. cbn [fst snd] in *.
  destruct ok; cbn [snd]; [|exact Hs1].
  assert (Hfresh1 : locks s1 !! tok = None).
  { eapply lookup_weaken_None; [exact Hfresh | exact Hsub]. }
  assert (Hunlisted : forall q, ~ listed s1 q tok).
  { intros q (S & HS & Hin). destruct (Hi1 q S tok HS Hin) as (l & Hl & _).
    congruence. }
  assert (Hnc : ~ (fst (true, s1) = false)) by discriminate.
  cbn [fst] in C3.
  set (lock := mkLock tok p owner (timeout_or_default timeout s1) now depth sc).
  set (s2 := set_pathLocks _ _).
  assert (Hlisted : forall q x, listed s2 q x -> listed s1 q x \/ (q = p /\ x = tok)).
  { intros q x (S & HS & Hin). subst s2.
    cbn [pathLocks set_pathLocks set_locks] in HS.
    destruct (decide (q = p)) as [->|Hq].
    - rewrite lookup_insert_eq in HS. injection HS as <-.
      apply elem_of_union in Hin as [Hin|Hin].
      + left. destruct (pathLocks s1 !! p) as [S1|] eqn:E1;
          cbn [default from_option id] in Hin.
        * exists S1. auto.
        * apply elem_of_empty in Hin. contradiction.
      + right. apply elem_of_singleton in Hin. auto.
    - rewrite lookup_insert_ne in HS by congruence. left. exists S. auto. }
  assert (Hlocks : forall x, x <> tok -> locks s2 !! x = locks s1 !! x).
  { intros x Hx. subst s2. cbn [locks set_pathLocks set_locks].
    apply lookup_insert_ne. congruence. }
  assert (Hlocks_tok : locks s2 !! tok = Some lock).
  { subst s2. cbn [locks set_pathLocks set_locks]. apply lookup_insert_eq. }
  assert (Hpast : forall x, listed s1 p x ->
                  exists l, locks s1 !! x = Some l /\ live now s x = Some l /\
                            path l = p /\ listed s p x).
  { intros x Hx. pose proof Hx as (S & HS & Hin).
    destruct (Hi1 p S x HS Hin) as (l & Hl & Hpl).
    assert (Hx0 : listed s p x) by (apply C1; exact Hx).
    exists l. rewrite <- (C2 x Hx0). auto. }
  apply exclusive_alone_listed.
  pose proof (proj1 (exclusive_alone_listed _) Hs1) as Hs1'. clear Hs1.
  rename Hs1' into Hs1.
  intros q t t' l H1 H2 H3 H4.
  destruct (Hlisted q t H1) as [H1' | [-> ->]].
  - assert (Ht : t <> tok) by (intros ->; apply (Hunlisted q H1')).
    rewrite (Hlocks t Ht) in H2.
    destruct (Hlisted q t' H4) as [H4' | [-> ->]].
    + apply (Hs1 q t t' l); assumption.
    + exfalso. destruct (Hpast t H1') as (l' & Hl' & Hlive & Hpl & Hx0).
      rewrite Hl' in H2. injection H2 as ->.
      apply Hnc, C3. destruct sc.
      * exists p, t, l. rewrite Hp. auto 10.
      * exists t, l. auto.
  - rewrite Hlocks_tok in H2. injection H2 as <-. cbn [scope lock] in H3. subst sc.
    destruct (Hlisted p t' H4) as [H4' | [_ ->]]; [|reflexivity].
    exfalso. destruct (Hpast t' H4') as (l' & Hl' & Hlive & Hpl & Hx0).
    apply Hnc, C3. exists p, t', l'. rewrite Hp. auto 10.
Qed.

(** In every state the lock manager goes through, a token listed under a
    path resolves to a lock with that path, and an exclusive lock is the
    only token of the set that lists it: no path holds an exclusive lock
    together with another lock. *)
Theorem reachable_exclusive_alone lm :
  reachable_normal lm -> inv_i lm /\ exclusive_alone lm.
Proof.
  induction 1 as [d | o lm Hreach [IH1 IH2] Hfresh Hnormal].
  - split.
    + intros p S t HS. cbn in HS. rewrite lookup_empty in HS. discriminate.
    + intros p S t l HS. cbn in HS. rewrite lookup_empty in HS. discriminate.
  - destruct o as [now tok pth own sc dp tmo| | | | | |];
      cbn [run fresh normal_path] in *.
    + split; [apply createLock_inv_i; assumption|].
      destruct (lock_normalizePath_twice pth) as [_ Hidem].
      specialize (Hidem Hnormal).
      assert (Hc : createLock now tok pth own sc dp tmo lm
                   = createLock now tok (normalizePath pth) own sc dp tmo lm).
      { unfold createLock. rewrite Hidem. reflexivity. }
      rewrite Hc. apply createLock_exclusive_alone; assumption.
    + split; [apply refreshLock_inv_i | apply refreshLock_exclusive_alone];
        assumption.
    + split; [apply removeLock_inv_i | apply removeLock_exclusive_alone];
        assumption.
    + split; [apply (getLock_keeps inv_i removeLock_inv_i)
             | apply (getLock_keeps _ removeLock_exclusive_alone)]; assumption.
    + split; [apply removeLocksForPath_inv_i
             | apply removeLocksForPath_exclusive_alone]; assumption.
    + split; [apply moveLocksForPath_inv_i
             | apply moveLocksForPath_exclusive_alone]; assumption.
    + split; [apply (cleanupExpiredLocks_keeps inv_i _ removeLock_inv_i)
             | apply (cleanupExpiredLocks_keeps _ _ removeLock_exclusive_alone)];
        assumption.
Qed.

Lemma reachable_exclusive_alone_witness :
  reachable_normal lm_moved /\ exclusive_alone lm_moved.
Proof.
  assert (H : reachable_normal lm_moved).
  { unfold lm_moved, lm_a. repeat apply reachable_normal_run; try exact I.
    - apply reachable_normal_new.
    - reflexivity.
    - reflexivity.
    - vm_compute. reflexivity.
    - reflexivity. }
  split; [exact H | exact (proj2 (reachable_exclusive_alone lm_moved H))].
Defined.

End ExclusiveFacts.

Section CleanupFacts.
Import JS LockManager LockRules.

Lemma forM_removeLock_pruned now l : forall s,
  (forall t, t ∈ l -> live now s t = None) ->
  pruned now s (snd (forM_ removeLock l s)) /\
  (forall t, t ∈ l -> locks (snd (forM_ removeLock l s)) !! t = None).
Proof.
  induction l as [|x l IH]; intros s Hl.
  - cbn [forM_ ret snd]. split; [apply pruned_refl|].
    intros t Ht. apply elem_of_nil in Ht. contradiction.
  - cbn [forM_]. unfold bind.
    pose proof (removeLock_pruned now x s (Hl x ltac:(apply elem_of_cons; auto)))
      as Hp.
    pose proof (removeLock_locks x s) as Hx.
    destruct (removeLock x s) as [b s1]. cbn [snd] in Hp, Hx.
    destruct (IH s1) as [I1 I2].
    { intros t Ht. rewrite (pruned_live now s s1 t Hp). apply Hl.
      apply elem_of_cons. auto. }
    split; [eapply pruned_trans; eassumption|].
    intros t Ht. apply elem_of_cons in Ht as [->|Ht]; [|apply I2; exact Ht].
    destruct I1 as (B1 & _). destruct (B1 x) as [E | [E _]]; [|exact E].
    rewrite E, Hx. apply lookup_delete_eq.
Qed.

(** After [cleanupExpiredLocks] a token resolves to its lock exactly when
    the lock has not expired; the sets of [pathLocks] list the tokens they
    listed, without those of expired locks, and nothing else has changed. *)
Theorem cleanupExpiredLocks_live now s :
  let s' := snd (cleanupExpiredLocks now s) in
  (forall tok, locks s' !! tok = live now s tok) /\ pruned now s s'.
Proof.
  cbn zeta. unfold cleanupExpiredLocks, bind, gets.
  set (l := map fst (List.filter (fun entry => isExpired now (snd entry))
                       (map_to_list (locks s)))).
  assert (Hl : forall t, t ∈ l <-> exists lock, locks s !! t = Some lock /\
                                              isExpired now lock = true).
  { intros t. subst l. rewrite list_elem_of_fmap. split.
    - intros ([t' lock] & -> & Hin). apply list_elem_of_In, filter_In in Hin as [Hin He].
      apply list_elem_of_In, elem_of_map_to_list in Hin. exists lock. auto.
    - intros (lock & Hlk & He). exists (t, lock). split; [reflexivity|].
      apply list_elem_of_In, filter_In. split; [|exact He].
      apply list_elem_of_In, elem_of_map_to_list. exact Hlk. }
  destruct (forM_removeLock_pruned now l s) as [H1 H2].
  { intros t (lock & Hlk & He)%Hl. unfold live. rewrite Hlk, He. reflexivity. }
  split; [|exact H1].
  intros tok. destruct (decide (tok ∈ l)) as [Hin|Hout].
  - rewrite (H2 tok Hin). apply Hl in Hin as (lock & Hlk & He).
    unfold live. rewrite Hlk, He. reflexivity.
  - apply (pruned_resolved now s _ tok H1). unfold live.
    destruct (locks s !! tok) as [lock|] eqn:Hlk; [|reflexivity].
    destruct (isExpired now lock) eqn:He; [|reflexivity].
    exfalso. apply Hout, Hl. eauto.
Qed.

(** [refreshLock] on a token whose lock has not expired returns the lock
    with the new timeout (the default one when none, or 0, is given) and
    the clock reading as creation time, and stores it; the lock then lasts
    that many seconds more.  On a token that resolves to no lock, or to an
    expired one, it throws, and afterwards the token resolves to no lock. *)
Theorem refreshLock_renews now tok timeout s :
  let r := refreshLock now tok timeout s in
  match live now s tok with
  | Some l =>
      let l' := mkLock (token l) (path l) (owner l) (timeout_or_default timeout s)
                  now (depth l) (scope l) in
      r = (Ok l', set_locks (<[tok := l']>) s) /\
      (forall now', isExpired now' l' = false <->
                    now' <= now + timeout_or_default timeout s * 1000)
  | None =>
      (exists e, fst r = Throw e) /\ locks (snd r) !! tok = None /\
      pruned now s (snd r)
  end.
Proof.
  cbn zeta. unfold live, refreshLock, bind, gets, modify, ret.
  destruct (locks s !! tok) as [l|] eqn:E.
  - destruct (isExpired now l) eqn:He.
    + pose proof (removeLock_pruned now tok s) as Hp.
      pose proof (removeLock_locks tok s) as Hx.
      destruct (removeLock tok s) as [b s1]. cbn [fst snd] in *.
      split; [eauto|]. split.
      * rewrite Hx. apply lookup_delete_eq.
      * apply Hp. unfold live. rewrite E, He. reflexivity.
    + split; [reflexivity|]. intros now'. unfold isExpired.
      cbn [created LockManager.timeout]. rewrite Z.ltb_ge. reflexivity.
  - cbn [fst snd]. split; [eauto|]. split; [exact E | apply pruned_refl].
Qed.

End CleanupFacts.

(* ===================================================================== *)
(** ** Stream locks *)
(* ===================================================================== *)
Section StreamFacts.
Import JS LockManager LockRules.

(** [acquireStreamLock] succeeds exactly when [hasStreamingConflict] finds
    no conflict for the same path and kind of stream, whatever the token. *)
Theorem acquireStreamLock_iff_no_conflict p ty tok s :
  fst (acquireStreamLock p ty tok s) = negb (fst (hasStreamingConflict p ty s)).
Proof.
  unfold acquireStreamLock, hasStreamingConflict, bind, gets, modify, ret.
  destruct (activeStreams s !! normalizePath p) as [a|]; [|reflexivity].
  destruct ty, (type a); reflexivity.
Qed.

Lemma acquireStreamLock_counted p ty tok :
  preserves streams_counted (acquireStreamLock p ty tok).
Proof.
  intros s Hs. unfold acquireStreamLock, bind, gets, modify, ret.
  destruct (activeStreams s !! normalizePath p) as [a|] eqn:E.
  - destruct (Hs _ a E) as [Hc Hw].
    destruct ty, (type a) eqn:Et;
      change (bool_decide (read = write)) with false;
      change (bool_decide (write = write)) with true;
      change (bool_decide (read = read)) with true;
      cbn [orb andb snd fst]; try exact Hs.
    intros q b Hb. cbn [activeStreams set_activeStreams] in Hb.
    destruct (decide (q = normalizePath p)) as [->|Hq].
    + rewrite lookup_insert_eq in Hb. injection Hb as <-.
      cbn [count type]. split; [lia | discriminate].
    + rewrite lookup_insert_ne in Hb by congruence. apply (Hs q b Hb).
  - cbn [snd]. intros q b Hb. cbn [activeStreams set_activeStreams] in Hb.
    destruct (decide (q = normalizePath p)) as [->|Hq].
    + rewrite lookup_insert_eq in Hb. injection Hb as <-.
      cbn [count type]. split; [lia | reflexivity].
    + rewrite lookup_insert_ne in Hb by congruence. apply (Hs q b Hb).
Qed.

Lemma releaseStreamLock_counted p : preserves streams_counted (releaseStreamLock p).
Proof.
  intros s Hs. unfold releaseStreamLock, bind, gets, modify.
  destruct (activeStreams s !! normalizePath p) as [a|] eqn:E; [|exact Hs].
  destruct (Hs _ a E) as [Hc Hw].
  destruct (Z.leb_spec (count a - 1) 0) as [Hle|Hgt]; cbn [snd];
    intros q b Hb; cbn [activeStreams set_activeStreams] in Hb.
  - apply lookup_delete_Some in Hb as [_ Hb]. apply (Hs q b Hb).
  - destruct (decide (q = normalizePath p)) as [->|Hq].
    + rewrite lookup_insert_eq in Hb. injection Hb as <-. cbn [count type].
      split; [lia|]. intros Hty. specialize (Hw Hty). lia.
    + rewrite lookup_insert_ne in Hb by congruence. apply (Hs q b Hb).
Qed.

(** The stream table of a new manager is empty; acquiring and releasing
    stream locks keep every entry counting at least one stream and a write
    entry exactly one, and the methods that work on WebDAV locks leave the
    table as it is. *)
Theorem streams_counted_kept :
  (forall d, streams_counted (LockManager.new d)) /\
  (forall p ty tok, preserves streams_counted (acquireStreamLock p ty tok)) /\
  (forall p, preserves streams_counted (releaseStreamLock p)) /\
  (forall o s, activeStreams (run o s) = activeStreams s).
Proof.
  split; [|split; [|split]].
  - intros d p a Ha. cbn in Ha. rewrite lookup_empty in Ha. discriminate.
  - apply acquireStreamLock_counted.
  - apply releaseStreamLock_counted.
  - intros o s.
    assert (Hrm : forall tok,
              preserves (fun s' => activeStreams s' = activeStreams s) (removeLock tok))
      by (intros tok; apply removeLock_activeStreams).
    destruct o as [now tok pth own sc dp tmo|now tok tmo|tok|now tok|pth|a b|now];
      cbn [run].
    + unfold createLock, bind, gets, modify, ret.
      pose proof (canLock_keeps _ Hrm now (normalizePath pth) sc s eq_refl) as H.
      destruct (canLock now (normalizePath pth) sc s) as [[] s1]; exact H.
    + unfold refreshLock, bind, gets, modify, ret.
      destruct (locks s !! tok) as [l|]; [|reflexivity].
      destruct (isExpired now l); [|reflexivity].
      pose proof (Hrm tok s eq_refl) as H. destruct (removeLock tok s). exact H.
    + apply (Hrm tok s eq_refl).
    + apply (getLock_keeps _ Hrm now tok s eq_refl).
    + unfold removeLocksForPath, bind, gets, modify.
      destruct (pathLocks s !! normalizePath pth) as [S0|]; [|reflexivity].
      destruct (forM_delete_locks (elements S0) s) as (_ & H & _). cbn zeta in H.
      destruct (forM_ _ (elements S0) s) as [[] s1]. exact H.
    + unfold moveLocksForPath, bind, gets.
      destruct (pathLocks s !! normalizePath a) as [S0|]; [|reflexivity].
      assert (H : forall l s0,
                activeStreams
                  (snd (forM_ (fun tk =>
                     modify (set_locks (fun ls =>
                       match ls !! tk with
                       | Some lock =>
                           <[tk := mkLock (token lock) (normalizePath b) (owner lock)
                                     (timeout lock) (created lock) (depth lock)
                                     (scope lock)]> ls
                       | None => ls
                       end))) l s0)) = activeStreams s0).
      { induction l as [|x l IH]; intros s0; [reflexivity|].
        cbn [forM_]. unfold bind, modify at 1. rewrite IH. reflexivity. }
      specialize (H (elements S0) s).
      destruct (forM_ _ (elements S0) s) as [[] s1]. exact H.
    + apply (cleanupExpiredLocks_keeps _ now Hrm s eq_refl).
Qed.

(** Releasing the stream lock that was just acquired gives the stream
    table back as it was. *)
Theorem acquire_release_roundtrip p ty tok s
  (Hs : streams_counted s)
  (Hacq : fst (acquireStreamLock p ty tok s) = true) :
  activeStreams (snd (releaseStreamLock p (snd (acquireStreamLock p ty tok s))))
  = activeStreams s.
Proof.
  revert Hacq. unfold acquireStreamLock, releaseStreamLock, bind, gets, modify, ret.
  destruct (activeStreams s !! normalizePath p) as [a|] eqn:E.
  - destruct (Hs _ a E) as [Hc _].
    destruct ty, (type a) eqn:Et;
      change (bool_decide (read = write)) with false;
      change (bool_decide (write = write)) with true;
      change (bool_decide (read = read)) with true;
      cbn [orb andb snd fst]; try discriminate.
    intros _. cbn [activeStreams set_activeStreams].
    rewrite lookup_insert_eq. cbn [count type lockToken].
    destruct (Z.leb_spec (count a + 1 - 1) 0) as [|_]; [lia|].
    cbn [snd activeStreams set_activeStreams]. rewrite insert_insert_eq.
    apply insert_id. rewrite E. f_equal. destruct a as [ty c tk].
    cbn in *. subst ty. f_equal. lia.
  - intros _. cbn [snd fst activeStreams set_activeStreams].
    rewrite lookup_insert_eq. cbn [count].
    change (1 - 1 <=? 0) with true. cbn [snd activeStreams set_activeStreams].
    rewrite delete_insert_eq. apply delete_id. exact E.
Qed.

Lemma acquire_release_roundtrip_witness :
  activeStreams
    (snd (releaseStreamLock (js "/a")
            (snd (acquireStreamLock (js "/a") read None (LockManager.new None)))))
  = activeStreams (LockManager.new None).
Proof.
  apply (acquire_release_roundtrip (js "/a") read None (LockManager.new None)).
  - intros p a Ha. vm_compute in Ha. discriminate.
  - reflexivity.
Defined.

End StreamFacts.

(* ===================================================================== *)
(** ** The in-memory file system: writing, reading, deleting *)
(* ===================================================================== *)
Section MemoryFileSystemFacts.
Import JS MemoryFileSystem.

Lemma join_snoc sep (L : list jsstring) w :
  L <> [] -> join sep (L ++ [w]) = join sep L ++ sep ++ w.
Proof.
  induction L as [|a L IH]; intros Hne; [congruence|].
  destruct L as [|b L].
  - reflexivity.
  - change ((a :: b :: L) ++ [w]) with (a :: (b :: L) ++ [w]).
    rewrite join_cons_ne by (destruct L; discriminate).
    rewrite IH by discriminate. rewrite join_cons. rewrite <- !app_assoc.
    reflexivity.
Qed.

Lemma dirname_end_no_slash u : forall b r,
  SLASH ∉ u ->
  Posix.dirname_end b (u ++ r) =
  match u with [] => Posix.dirname_end b r | _ :: _ => Posix.dirname_end false r end.
Proof.
  induction u as [|c u IH]; intros b r Hu; [reflexivity|].
  apply not_elem_of_cons in Hu as [Hc Hu]. cbn [app Posix.dirname_end].
  destruct (N.eqb_spec c SLASH) as [->|_]; [congruence|].
  rewrite (IH false r Hu). destruct u; reflexivity.
Qed.

(** The parent directory of a canonical path. *)
Lemma dirname_canonical L w :
  Forall seg L -> seg w ->
  Posix.dirname (SLASH :: join [SLASH] (L ++ [w])) =
  match L with [] => [SLASH] | _ :: _ => SLASH :: join [SLASH] L end.
Proof.
  intros HL [Hw Hws]. unfold Posix.dirname. rewrite N.eqb_refl.
  assert (Hrev : SLASH ∉ rev w).
  { intros H. apply Hws. apply list_elem_of_In, in_rev, list_elem_of_In in H.
    exact H. }
  assert (Hrw : rev w <> []).
  { intros H. apply Hw. rewrite <- (rev_involutive w), H. reflexivity. }
  destruct L as [|a L].
  - cbn [app join]. rewrite <- (app_nil_r (rev w)).
    rewrite (dirname_end_no_slash (rev w) true [] Hrev).
    destruct (rev w); [congruence | reflexivity].
  - rewrite join_snoc by discriminate.
    rewrite !rev_app_distr. cbn [rev app]. rewrite <- app_assoc. cbn [app].
    rewrite (dirname_end_no_slash (rev w) true _ Hrev).
    destruct (rev w) as [|c u] eqn:E; [congruence|].
    cbn [Posix.dirname_end]. rewrite N.eqb_refl.
    rewrite length_rev.
    destruct (join_seg_head (a :: L) ltac:(discriminate) HL) as (x & s' & Ej & _).
    rewrite Ej. cbn [length Nat.eqb andb].
    change (take (S (S (length s'))) (SLASH :: (x :: s') ++ SLASH :: w))
      with (SLASH :: take (length (x :: s')) ((x :: s') ++ SLASH :: w)).
    rewrite take_app_length. reflexivity.
Qed.

Lemma steps_canonical L :
  Forall clean L -> MemFs.steps (SLASH :: join [SLASH] L) = L.
Proof. apply segments_canonical. Qed.

End MemoryFileSystemFacts.

Section MemoryFileSystemFacts2.
Import JS MemoryFileSystem.

Lemma clean_snoc L w : Forall clean L -> clean w -> Forall clean (L ++ [w]).
Proof.
  intros HL Hw. apply Forall_app. split; [exact HL|].
  apply Forall_cons. split; [exact Hw | apply Forall_nil; exact I].
Qed.

Lemma liftFs_ok {A} (m : E MemFs.vol A) (s : MemoryFileSystem.t) a v' :
  m (fs s) = (Ok a, v') -> liftFs m s = (Ok a, mk v' (properties s)).
Proof. intros H. unfold liftFs. rewrite H. reflexivity. Qed.

(** The parent directories that [create] and [setStream] make for a
    canonical path. *)
Lemma parent_dirs_made L w (f : MemoryFileSystem.t) :
  Forall clean L -> clean w -> writable (fs f) L w ->
  exists v1,
    (if negb (eqb (Posix.dirname (path_of (L ++ [w]))) [SLASH])
     then liftFs (MemFs.mkdirSync_recursive (Posix.dirname (path_of (L ++ [w]))))
     else retE tt) f = (Ok tt, mk v1 (properties f)) /\
    v1 !! L = Some MemFs.Dir /\
    v1 !! (L ++ [w]) = fs f !! (L ++ [w]) /\
    (forall k, (forall j, (1 <= j <= length L)%nat -> k <> take j L) ->
               v1 !! k = fs f !! k) /\
    (forall j, (1 <= j <= length L)%nat -> v1 !! take j L = Some MemFs.Dir).
Proof.
  intros HL Hw (Hroot & Hfiles & Hdir). unfold path_of.
  rewrite (dirname_canonical L w (seg_of_clean L HL) (proj1 Hw)).
  destruct L as [|a L].
  - exists (fs f). change (negb (eqb [SLASH] [SLASH])) with false.
    destruct f; cbn [fs properties]. repeat split; auto.
    intros j Hj. cbn [length] in Hj. lia.
  - destruct (join_seg_head (a :: L) ltac:(discriminate) (seg_of_clean _ HL))
      as (x & s' & Ej & _).
    assert (Hne : eqb (SLASH :: join [SLASH] (a :: L)) [SLASH] = false).
    { apply eqb_false. rewrite Ej. discriminate. }
    rewrite Hne. cbn [negb].
    destruct (mkdirp_ok (a :: L) [] (fs f)) as (v1 & Hmk & Hdirs & Hsame).
    { intros j data Hj. cbn [app]. apply Hfiles. exact Hj. }
    exists v1. split.
    + apply liftFs_ok. unfold MemFs.mkdirSync_recursive.
      change (MemFs.steps (SLASH :: join [SLASH] (a :: L)))
        with (MemFs.steps (path_of (a :: L))).
      unfold path_of. rewrite (steps_canonical _ HL). exact Hmk.
    + split; [|split].
      * specialize (Hdirs (length (a :: L)) ltac:(cbn [length]; lia)).
        cbn [app] in Hdirs. rewrite firstn_all in Hdirs. exact Hdirs.
      * apply Hsame. intros j Hj Heq. cbn [app] in Heq.
        apply (f_equal length) in Heq. rewrite length_take in Heq.
        cbn [length] in Heq. rewrite length_app in Heq. cbn [length] in *. lia.
      * split.
        -- intros k Hk. apply Hsame. intros j Hj. cbn [app]. apply Hk. exact Hj.
        -- intros j Hj. apply (Hdirs j Hj).
Qed.

End MemoryFileSystemFacts2.

Section MemoryFileSystemFacts3.
Import JS MemoryFileSystem.

Lemma writeFileSync_ok (p : jsstring) (L : list jsstring) (w : jsstring)
  (data : bytes) (v : MemFs.vol) :
  MemFs.steps p = L ++ [w] -> v !! L = Some MemFs.Dir ->
  v !! (L ++ [w]) <> Some MemFs.Dir ->
  MemFs.writeFileSync p data v = (Ok tt, <[L ++ [w] := MemFs.File data]> v).
Proof.
  intros Hs HL Hk. unfold MemFs.writeFileSync. rewrite Hs.
  assert (exists a key, L ++ [w] = a :: key) as (a & key & E)
    by (destruct L; cbn [app]; eauto).
  rewrite E at 1. rewrite removelast_last, HL.
  destruct (v !! (L ++ [w])) as [[|d]|]; [congruence | reflexivity | reflexivity].
Qed.

Lemma setProperty_run filePath property value (s : MemoryFileSystem.t) :
  setPropertyInternal filePath property value s =
  (Ok tt, mk (fs s)
            (<[filePath := <[property := value]>
                             (default ∅ (properties s !! filePath))]> (properties s))).
Proof. reflexivity. Qed.

(** What a whole-file [setStream] leaves. *)
Lemma setStream_whole now uuid L w data (f : MemoryFileSystem.t) :
  Forall clean L -> clean w -> writable (fs f) L w ->
  exists f',
    setStream now uuid (path_of (L ++ [w])) data None f = (Ok tt, f') /\
    fs f' !! (L ++ [w]) = Some (MemFs.File data) /\
    fs f' !! L = Some MemFs.Dir /\
    (forall k, k <> L ++ [w] ->
               (forall j, (1 <= j <= length L)%nat -> k <> take j L) ->
               fs f' !! k = fs f !! k) /\
    getPropertyInternal (path_of (L ++ [w])) (js "etag") f'
    = Some (PString (generateEtag uuid)) /\
    (forall q, q <> path_of (L ++ [w]) -> properties f' !! q = properties f !! q).
Proof.
  intros HL Hw Hwr.
  destruct (parent_dirs_made L w f HL Hw Hwr) as (v1 & Hmk & HvL & Hvk & Hsame & _).
  destruct Hwr as (Hroot & Hfiles & Hdir).
  unfold setStream.
  rewrite (bindE_ok _ _ _ _ _ Hmk).
  rewrite (bindE_ok _ _ _ tt
             (mk (<[L ++ [w] := MemFs.File data]> v1) (properties f))).
  2:{ apply (liftFs_ok _ (mk v1 (properties f))). cbn [fs].
      apply writeFileSync_ok.
      - unfold path_of. apply steps_canonical. apply clean_snoc; assumption.
      - exact HvL.
      - rewrite Hvk. exact Hdir. }
  rewrite (bindE_ok _ _ _ _ _ (setProperty_run _ _ _ _)).
  rewrite setProperty_run. cbn [fs properties].
  eexists. split; [reflexivity|]. cbn [fs properties].
  split; [apply lookup_insert_eq|].
  split.
  { rewrite lookup_insert_ne; [exact HvL|].
    intros Heq. apply (f_equal length) in Heq. rewrite length_app in Heq.
    cbn [length] in Heq. lia. }
  split.
  { intros k Hk1 Hk2. rewrite lookup_insert_ne by congruence. apply Hsame, Hk2. }
  split.
  { unfold getPropertyInternal. cbn [properties].
    rewrite lookup_insert_eq. cbn [mbind option_bind]. apply lookup_insert_eq. }
  intros q Hq. rewrite !lookup_insert_ne by congruence. reflexivity.
Qed.



End MemoryFileSystemFacts3.

Section MemoryFileSystemFacts4.
Import JS MemoryFileSystem.


End MemoryFileSystemFacts4.

Section PropertyFacts.
Import JS MemoryFileSystem.

(** The property store: a property that was set is read back; a property
    that was removed is [undefined]; in both cases every other property of
    every path reads as before and the volume is untouched.  Removing the
    last property of a path removes the entry of the path. *)
Theorem property_store_laws p k v (f : MemoryFileSystem.t) :
  let f1 := snd (MemoryFs.setProperty p k v f) in
  let f2 := snd (MemoryFs.removeProperty p k f) in
  MemoryFs.getProperty p k f1 = (Ok (Some v), f1) /\
  MemoryFs.getProperty p k f2 = (Ok None, f2) /\
  (forall p' k', (p', k') <> (p, k) ->
     getPropertyInternal p' k' f1 = getPropertyInternal p' k' f /\
     getPropertyInternal p' k' f2 = getPropertyInternal p' k' f) /\
  fs f1 = fs f /\ fs f2 = fs f /\
  (forall m, properties f !! p = Some m -> is_Some (m !! k) ->
             base.delete k m = ∅ -> properties f2 !! p = None).
Proof.
  cbn zeta. unfold MemoryFs.setProperty, MemoryFs.getProperty, MemoryFs.removeProperty,
    setPropertyInternal, getPropertyInternal.
  cbn [snd fs properties].
  split; [|split; [|split; [|split; [|split]]]].
  - rewrite lookup_insert_eq. cbn [mbind option_bind]. rewrite lookup_insert_eq.
    reflexivity.
  - destruct (properties f !! p) as [m|] eqn:E.
    + case_bool_decide as Hk.
      * case_bool_decide as Hsz; cbn [snd properties].
        -- rewrite lookup_delete_eq. reflexivity.
        -- rewrite lookup_insert_eq. cbn [mbind option_bind].
           rewrite lookup_delete_eq. reflexivity.
      * cbn [snd]. rewrite E. cbn [mbind option_bind].
        destruct (m !! k) eqn:Em; [exfalso; apply Hk; eauto | reflexivity].
    + cbn [snd]. rewrite E. reflexivity.
  - intros p' k' Hne. split.
    + destruct (decide (p' = p)) as [->|Hp].
      * rewrite lookup_insert_eq. cbn [mbind option_bind].
        rewrite lookup_insert_ne by congruence.
        destruct (properties f !! p); reflexivity.
      * rewrite lookup_insert_ne by congruence. reflexivity.
    + destruct (properties f !! p) as [m|] eqn:E; [|reflexivity].
      case_bool_decide as Hk; [|reflexivity].
      case_bool_decide as Hsz; cbn [snd properties].
      * destruct (decide (p' = p)) as [->|Hp].
        -- rewrite lookup_delete_eq, E. cbn [mbind option_bind].
           apply map_size_empty_iff in Hsz. symmetry.
           rewrite <- (lookup_delete_ne m k k') by congruence.
           rewrite Hsz. apply lookup_empty.
        -- rewrite lookup_delete_ne by congruence. reflexivity.
      * destruct (decide (p' = p)) as [->|Hp].
        -- rewrite lookup_insert_eq, E. cbn [mbind option_bind].
           apply lookup_delete_ne. congruence.
        -- rewrite lookup_insert_ne by congruence. reflexivity.
  - reflexivity.
  - destruct (properties f !! p) as [m|]; [|reflexivity].
    case_bool_decide; [|reflexivity]. case_bool_decide; reflexivity.
  - intros m Hm Hk Hempty. rewrite Hm.
    rewrite bool_decide_eq_true_2 by exact Hk.
    rewrite Hempty. rewrite bool_decide_eq_true_2 by apply map_size_empty.
    cbn [snd properties]. apply lookup_delete_eq.
Qed.

End PropertyFacts.

Section DeleteFileFacts.
Import JS MemoryFileSystem.

(** [delete] on a file. *)
Lemma delete_run_file p (f : MemoryFileSystem.t) data :
  fs f !! MemFs.steps p = Some (MemFs.File data) ->
  MemoryFileSystem.delete p f
  = (Ok tt, mk (base.delete (MemFs.steps p) (fs f)) (base.delete p (properties f)))
  /\ True.
Proof.
  intros E. split; [|exact I].
  unfold MemoryFileSystem.delete, bindE.
  rewrite (existsSync_true p (fs f) _ E).
  unfold readFs, MemFs.isDirectory, liftFs, MemFs.unlinkSync. rewrite E.
  cbn beta iota. rewrite E. reflexivity.
Qed.

End DeleteFileFacts.

Section CopyFacts.
Import JS MemoryFileSystem.

Lemma steps_root : MemFs.steps [SLASH] = [].
Proof. reflexivity. Qed.

(** The parent directories that [copy] makes for a canonical path. *)
Lemma parent_dirs_copied L w (f : MemoryFileSystem.t) :
  Forall clean L -> clean w -> writable (fs f) L w ->
  exists v1,
    liftFs (MemFs.mkdirSync_recursive (Posix.dirname (path_of (L ++ [w])))) f
    = (Ok tt, mk v1 (properties f)) /\
    v1 !! L = Some MemFs.Dir /\
    v1 !! (L ++ [w]) = fs f !! (L ++ [w]) /\
    (forall k, (forall j, (1 <= j <= length L)%nat -> k <> take j L) ->
               v1 !! k = fs f !! k) /\
    (forall j, (1 <= j <= length L)%nat -> v1 !! take j L = Some MemFs.Dir).
Proof.
  intros HL Hw Hwr.
  destruct (parent_dirs_made L w f HL Hw Hwr) as (v1 & Hmk & H).
  exists v1. split; [|exact H].
  destruct L as [|a L].
  - unfold path_of in *.
    rewrite (dirname_canonical [] w (seg_of_clean _ HL) (proj1 Hw)) in *.
    change (negb (eqb [SLASH] [SLASH])) with false in Hmk.
    unfold retE, ret in Hmk. injection Hmk as Hmk.
    unfold liftFs, MemFs.mkdirSync_recursive. rewrite steps_root.
    cbn [MemFs.mkdirp retE ret]. rewrite Hmk. destruct f; cbn in *. congruence.
  - unfold path_of in *.
    rewrite (dirname_canonical (a :: L) w (seg_of_clean _ HL) (proj1 Hw)) in *.
    destruct (join_seg_head (a :: L) ltac:(discriminate) (seg_of_clean _ HL))
      as (x & s' & Ej & _).
    assert (Hne : eqb (SLASH :: join [SLASH] (a :: L)) [SLASH] = false).
    { apply eqb_false. rewrite Ej. discriminate. }
    rewrite Hne in Hmk. exact Hmk.
Qed.

(** What [copy] leaves when the source is a file. *)
Lemma copy_file_run now uuid fuel from L w data (f : MemoryFileSystem.t) :
  fs f !! MemFs.steps from = Some (MemFs.File data) ->
  Forall clean L -> clean w -> writable (fs f) L w ->
  exists v',
    MemoryFs.copy now uuid fuel from (path_of (L ++ [w])) f =
    (Ok tt,
     mk v'
        (match properties f !! from with
         | Some sourceProps =>
             <[path_of (L ++ [w]) :=
                 <[js "created" := PDate now]>
                   (<[js "etag" := PString (generateEtag uuid)]> sourceProps)]>
               (properties f)
         | None => properties f
         end)) /\
    v' !! (L ++ [w]) = Some (MemFs.File data) /\
    (forall k, k <> L ++ [w] ->
               (forall j, (1 <= j <= length L)%nat -> k <> take j L) ->
               v' !! k = fs f !! k).
Proof.
  intros Hfrom HL Hw Hwr.
  destruct (parent_dirs_copied L w f HL Hw Hwr)
    as (v1 & Hmk & HvL & Hvk & Hsame & _).
  assert (Hfrom1 : v1 !! MemFs.steps from = Some (MemFs.File data)).
  { rewrite Hsame; [exact Hfrom|]. intros j Hj Heq.
    destruct Hwr as (_ & Hfiles & _). apply (Hfiles j data Hj).
    rewrite <- Heq. exact Hfrom. }
  exists (<[L ++ [w] := MemFs.File data]> v1).
  split; [|split].
  - unfold MemoryFs.copy.
    rewrite (existsSync_true from (fs f) _ Hfrom). cbn [negb].
    rewrite (bindE_ok _ _ _ false f).
    2:{ unfold readFs, MemFs.isDirectory. rewrite Hfrom. reflexivity. }
    rewrite (bindE_ok _ _ _ tt (mk (<[L ++ [w] := MemFs.File data]> v1) (properties f))).
    2:{ rewrite (bindE_ok _ _ _ _ _ Hmk).
        rewrite (bindE_ok _ _ _ data (mk v1 (properties f))).
        2:{ unfold readFs, MemFs.readFileSync. cbn [fs]. rewrite Hfrom1. reflexivity. }
        apply (liftFs_ok _ (mk v1 (properties f))). cbn [fs].
        apply writeFileSync_ok.
        - unfold path_of. apply steps_canonical. apply clean_snoc; assumption.
        - exact HvL.
        - rewrite Hvk. apply Hwr. }
    cbn [properties fs]. destruct (properties f !! from); reflexivity.
  - apply lookup_insert_eq.
  - intros k Hk1 Hk2. rewrite lookup_insert_ne by congruence. apply Hsame, Hk2.
Qed.


(** [move] of a file to a canonical path that can be written: the source
    no longer exists, and the destination holds its bytes, unless the
    destination is the source itself, in which case the file is lost. *)
Lemma move_file_run now uuid fuel from L w data (f : MemoryFileSystem.t)
  (Hfrom : fs f !! MemFs.steps from = Some (MemFs.File data))
  (HL : Forall clean L) (Hw : clean w) (Hwr : writable (fs f) L w) :
  let to := path_of (L ++ [w]) in
  exists f',
    MemoryFs.move now uuid fuel from to f = (Ok tt, f') /\
    MemFs.existsSync from (fs f') = false /\
    fs f' !! (L ++ [w]) =
      (if decide (MemFs.steps from = L ++ [w]) then None
       else Some (MemFs.File data)) /\
    properties f' !! from = None.
Proof.
  cbn zeta.
  destruct (copy_file_run now uuid fuel from L w data f Hfrom HL Hw Hwr)
    as (v' & Hrun & Hto & Hsame).
  unfold MemoryFs.move. rewrite (bindE_ok _ _ _ _ _ Hrun).
  set (f1 := mk v' _).
  assert (Hfrom1 : fs f1 !! MemFs.steps from = Some (MemFs.File data)).
  { subst f1. cbn [fs]. destruct (decide (MemFs.steps from = L ++ [w])) as [->|Hne];
      [exact Hto|].
    rewrite Hsame; [exact Hfrom | exact Hne|].
    intros j Hj Heq. destruct Hwr as (_ & Hfiles & _). apply (Hfiles j data Hj).
    rewrite <- Heq. exact Hfrom. }
  destruct (delete_run_file from f1 data Hfrom1) as (Hd & _).
  eexists. split; [exact Hd|]. cbn [fs properties].
  split; [|split].
  - apply bool_decide_eq_false_2. rewrite lookup_delete_eq. intros [n Hn].
    discriminate.
  - destruct (decide (MemFs.steps from = L ++ [w])) as [->|Hne].
    + apply lookup_delete_eq.
    + rewrite lookup_delete_ne by exact Hne. subst f1. exact Hto.
  - apply lookup_delete_eq.
Qed.

End CopyFacts.

Section CopyWitnesses.
Import JS MemoryFileSystem.


End CopyWitnesses.

(* ===================================================================== *)
(** ** PUT then GET *)
(* ===================================================================== *)
Section PutGetFacts.
Import JS WebDAVServer MemoryFileSystem.

(** No token is listed: [isLocked] and [hasWebDAVLock] find no lock. *)
Lemma isLocked_unlisted now p ex (l : LockManager.t) :
  (forall q tok, ~ listed l q tok) ->
  fst (LockManager.isLocked now p ex l) = false.
Proof.
  intros Hno. destruct (isLocked_spec now p ex l) as [_ H]. cbn zeta in H.
  destruct (fst (LockManager.isLocked now p ex l)); [|reflexivity].
  destruct (proj1 H eq_refl) as (q & tok & lk & Hl & _). destruct (Hno _ _ Hl).
Qed.

Lemma hasWebDAVLock_unlisted now p ty (l : LockManager.t) :
  (forall q tok, ~ listed l q tok) ->
  fst (LockManager.hasWebDAVLock now p ty l) = false /\
  pruned now l (snd (LockManager.hasWebDAVLock now p ty l)).
Proof.
  intros Hno. unfold LockManager.hasWebDAVLock, bind.
  pose proof (isLocked_unlisted now (LockManager.normalizePath p) None l Hno) as Hf.
  destruct (isLocked_spec now (LockManager.normalizePath p) None l) as [Hp _].
  cbn zeta in Hp.
  destruct (LockManager.isLocked now (LockManager.normalizePath p) None l) as [b l1].
  cbn [fst snd] in *. subst b. cbn [negb ret fst snd]. auto.
Qed.

Lemma pruned_unlisted now (l l' : LockManager.t) :
  pruned now l l' -> (forall q tok, ~ listed l q tok) ->
  forall q tok, ~ listed l' q tok.
Proof. intros (_ & A2 & _) Hno q tok H. apply (Hno q tok), A2, H. Qed.

Lemma take_not_snoc (L : list jsstring) w j : take j L <> L ++ [w].
Proof.
  intros Heq. apply (f_equal length) in Heq.
  rewrite length_take, length_app in Heq. cbn [length] in Heq. lia.
Qed.

(** [create] of a file at a canonical path that can be written. *)
Lemma create_file_ok now uuid L w (f : MemoryFileSystem.t) :
  Forall clean L -> clean w -> writable (fs f) L w ->
  exists f',
    MemoryFileSystem.create now uuid (path_of (L ++ [w])) file f = (Ok tt, f') /\
    writable (fs f') L w /\
    (forall k, k <> L ++ [w] ->
               (forall j, (1 <= j <= length L)%nat -> k <> take j L) ->
               fs f' !! k = fs f !! k).
Proof.
  intros HL Hw Hwr.
  destruct (parent_dirs_made L w f HL Hw Hwr)
    as (v1 & Hmk & HvL & Hvk & Hsame & Hdirs).
  pose proof Hwr as (Hroot & Hfiles & Hdir).
  unfold MemoryFileSystem.create.
  rewrite (bindE_ok _ _ _ tt (mk (<[L ++ [w] := MemFs.File []]> v1) (properties f))).
  2:{ rewrite (bindE_ok _ _ _ _ _ Hmk).
      apply (liftFs_ok _ (mk v1 (properties f))). cbn [fs].
      apply writeFileSync_ok.
      - unfold path_of. apply steps_canonical. apply clean_snoc; assumption.
      - exact HvL.
      - rewrite Hvk. exact Hdir. }
  rewrite (bindE_ok _ _ _ _ _ (setProperty_run _ _ _ _)).
  rewrite (bindE_ok _ _ _ _ _ (setProperty_run _ _ _ _)).
  rewrite setProperty_run. cbn [fs properties].
  eexists. split; [reflexivity|]. cbn [fs].
  split.
  - split; [|split].
    + rewrite lookup_insert_ne by (destruct L; discriminate).
      rewrite Hsame; [exact Hroot|]. intros j Hj Heq.
      symmetry in Heq. apply (f_equal length) in Heq. rewrite length_take in Heq.
      cbn [length] in Heq. lia.
    + intros j data Hj.
      rewrite lookup_insert_ne by (intros Heq; apply (take_not_snoc L w j); auto).
      rewrite (Hdirs j Hj). discriminate.
    + rewrite lookup_insert_eq. discriminate.
  - intros k Hk1 Hk2. rewrite lookup_insert_ne by congruence. apply Hsame, Hk2.
Qed.

Lemma fsE_ok {A} (m : E MemoryFileSystem.t A) (s : @WebDAVServer.t MemoryFileSystem.t)
  a f' :
  m (filesystem s) = (Ok a, f') -> fsE m s = (Ok a, WebDAVServer.mk f' (lockManager s)).
Proof. intros Hm. unfold fsE. rewrite Hm. reflexivity. Qed.

Lemma fsE_throw {A} (m : E MemoryFileSystem.t A)
  (s : @WebDAVServer.t MemoryFileSystem.t) e f' :
  m (filesystem s) = (Throw e, f') ->
  fsE m s = (Throw e, WebDAVServer.mk f' (lockManager s)).
Proof. intros Hm. unfold fsE. rewrite Hm. reflexivity. Qed.

(** What PUT does to the file system when nothing keeps it from writing:
    the file is made when it is not there, then written. *)
Lemma put_file_system env L w body (f : MemoryFileSystem.t)
  (l : LockManager.t) :
  Forall clean L -> clean w -> writable (fs f) L w ->
  let p := path_of (L ++ [w]) in
  let ex := MemFs.existsSync p (fs f) in
  exists f2,
    (let! _ :=
       if negb ex && bool_decide (@None Range = None) then
         try_catch (fsE (vfs_create (now env) (uuid env 0) p file))
           (fun _ => retE tt)
       else retE tt in
     let! _ := fsE (vfs_setStream (now env) (uuid env 1) p body None) in
     let! etag := fsE (vfs_getEtag (uuid env 2) p) in
     retE (mkResponse (if ex then 204 else 201) [(js "ETag", etag)] NoBody))
      (WebDAVServer.mk f l)
    = (Ok (mkResponse (if ex then 204 else 201)
             [(js "ETag", generateEtag (uuid env 1))] NoBody),
       WebDAVServer.mk f2 l) /\
    fs f2 !! (L ++ [w]) = Some (MemFs.File body) /\
    getPropertyInternal p (js "etag") f2 = Some (PString (generateEtag (uuid env 1))) /\
    (forall k, k <> L ++ [w] ->
               (forall j, (1 <= j <= length L)%nat -> k <> take j L) ->
               fs f2 !! k = fs f !! k).
Proof.
  intros HL Hw Hwr. cbn zeta.
  assert (exists f1,
    (if negb (MemFs.existsSync (path_of (L ++ [w])) (fs f))
        && bool_decide (@None Range = None) then
       try_catch (fsE (vfs_create (now env) (uuid env 0) (path_of (L ++ [w])) file))
         (fun _ => retE tt)
     else retE tt) (WebDAVServer.mk f l) = (Ok tt, WebDAVServer.mk f1 l) /\
    writable (fs f1) L w /\
    (forall k, k <> L ++ [w] ->
               (forall j, (1 <= j <= length L)%nat -> k <> take j L) ->
               fs f1 !! k = fs f !! k)) as (f1 & Hc & Hwr1 & Hsame1).
  { destruct (MemFs.existsSync (path_of (L ++ [w])) (fs f)).
    - exists f. cbn [negb andb]. repeat split; auto; apply Hwr.
    - rewrite bool_decide_eq_true_2 by reflexivity. cbn [negb andb].
      destruct (create_file_ok (now env) (uuid env 0) L w f HL Hw Hwr)
        as (f1 & Hcreate & Hwr1 & Hsame1).
      exists f1. split; [|split; assumption].
      unfold try_catch.
      rewrite (fsE_ok _ (WebDAVServer.mk f l) tt f1); [reflexivity|].
      exact Hcreate. }
  destruct (setStream_whole (now env) (uuid env 1) L w body f1 HL Hw Hwr1)
    as (f2 & Hset & Hfile & _ & Hsame2 & Hetag & _).
  exists f2. split; [|split; [exact Hfile|split; [exact Hetag|]]].
  - rewrite (bindE_ok _ _ _ _ _ Hc).
    rewrite (bindE_ok _ _ _ tt (WebDAVServer.mk f2 l)).
    2:{ apply (fsE_ok _ (WebDAVServer.mk f1 l)). exact Hset. }
    rewrite (bindE_ok _ _ _ (generateEtag (uuid env 1)) (WebDAVServer.mk f2 l)).
    2:{ apply (fsE_ok _ (WebDAVServer.mk f2 l)).
        cbn [vfs_getEtag MemoryFileSystem.vfs filesystem].
        unfold getEtag. rewrite Hetag. reflexivity. }
    reflexivity.
  - intros k Hk1 Hk2. rewrite (Hsame2 k Hk1 Hk2). apply Hsame1; assumption.
Qed.

End PutGetFacts.

Section PutGetFacts2.
Import JS WebDAVServer MemoryFileSystem.

(** PUT of a whole body where no token is listed and no stream is active
    on the path. *)
Lemma handlePut_writes env req (st : @WebDAVServer.t MemoryFileSystem.t) L w :
  let p := path_of (L ++ [w]) in
  let body := default (req_stream req) (req_body req) in
  PathNormalizer.normalizePath (req_path req) = Some p ->
  Forall clean L -> clean w -> writable (fs (filesystem st)) L w ->
  (forall q tok, ~ listed (lockManager st) q tok) ->
  LockManager.activeStreams (lockManager st) !! p = None ->
  header req (js "content-range") = None ->
  exists f2 l1,
    handlePut env req st =
    (Ok (mkResponse (if MemFs.existsSync p (fs (filesystem st)) then 204 else 201)
           [(js "ETag", generateEtag (uuid env 1))] NoBody),
     WebDAVServer.mk f2 l1) /\
    fs f2 !! (L ++ [w]) = Some (MemFs.File body) /\
    getPropertyInternal p (js "etag") f2 = Some (PString (generateEtag (uuid env 1))) /\
    (forall k, k <> L ++ [w] ->
               (forall j, (1 <= j <= length L)%nat -> k <> take j L) ->
               fs f2 !! k = fs (filesystem st) !! k) /\
    pruned (now env) (lockManager st) l1.
Proof.
  cbn zeta. intros Hp HL Hw Hwr Hno Hfree Hcr.
  set (p := path_of (L ++ [w])) in *.
  pose proof (lock_normalizePath_engine _ _ Hp) as Hn.
  destruct (hasWebDAVLock_unlisted (now env) p None (lockManager st) Hno)
    as [Hlocked Hpr].
  destruct (LockManager.hasWebDAVLock (now env) p None (lockManager st))
    as [locked l1] eqn:E1.
  cbn [fst snd] in *. subst locked.
  assert (Hkeep : LockManager.activeStreams l1
                  = LockManager.activeStreams (lockManager st)) by apply Hpr.
  destruct st as [f l]. cbn [filesystem lockManager] in *.
  set (lA := LockManager.set_activeStreams
               (<[p := LockManager.mkStream LockManager.write 1
                         (extractLockToken req)]>) l1).
  destruct (put_file_system env L w (default (req_stream req) (req_body req))
              f lA HL Hw Hwr) as (f2 & Hcore & Hfile & Hetag & Hsame).
  cbn zeta in Hcore. fold p in Hcore, Hetag.
  exists f2, l1.
  split; [|split; [exact Hfile | split; [exact Hetag | split; [exact Hsame | exact Hpr]]]].
  unfold handlePut.
  rewrite (bindE_ok _ _ _ _ _ (normalizePath_ok _ _ _ Hp)).
  unfold bindE at 1. rewrite lm_run. cbn [filesystem lockManager].
  rewrite E1. cbn [fst snd].
  unfold bindE at 1, retE at 1, ret at 1.
  unfold bindE at 1. rewrite lm_run. cbn [lockManager filesystem].
  unfold LockManager.hasStreamingConflict at 1 2, bind, gets.
  rewrite Hn, Hkeep, Hfree. cbn [fst snd ret].
  unfold bindE at 1. rewrite lm_run. cbn [lockManager filesystem].
  unfold LockManager.acquireStreamLock at 1 2, bind, gets, modify.
  rewrite Hn, Hkeep, Hfree. cbn [fst snd ret negb]. fold lA.
  unfold bindE at 1, fsE at 1.
  cbn [vfs_exists MemoryFileSystem.vfs filesystem lockManager].
  unfold MemoryFileSystem.exists_ at 1.
  rewrite Hcr. cbn [mbind option_bind].
  rewrite (bool_decide_eq_false_2 (@None jsstring <> None)) by (intros H; apply H; reflexivity).
  cbn [andb].
  unfold try_finally.
  match goal with
  | |- (let (r, s') := ?m in _) = _ =>
      assert (Hm : m = (Ok (mkResponse
                              (if MemFs.existsSync p (fs f) then 204 else 201)
                              [(js "ETag", generateEtag (uuid env 1))] NoBody),
                        WebDAVServer.mk f2 lA)) by exact Hcore;
      rewrite Hm; clear Hm
  end.
  rewrite lm_run. cbn [lockManager filesystem].
  unfold LockManager.releaseStreamLock, bind, gets, modify. subst lA.
  cbn [LockManager.activeStreams LockManager.set_activeStreams].
  rewrite Hn, lookup_insert_eq. cbn [LockManager.count fst snd].
  change (1 - 1 <=? 0) with true. cbn [snd].
  f_equal. f_equal. destruct l1 as [lk pl ac dt].
  unfold LockManager.set_activeStreams.
  cbn [LockManager.locks LockManager.pathLocks LockManager.activeStreams
       LockManager.defaultTimeout] in *.
  f_equal. rewrite delete_insert_eq. apply delete_id. rewrite Hkeep. exact Hfree.
Qed.

(** GET of a whole file where no token is listed and no stream is active
    on the path. *)
Lemma handleGet_file_whole env req (st : @WebDAVServer.t MemoryFileSystem.t)
  p data etag :
  PathNormalizer.normalizePath (req_path req) = Some p ->
  fs (filesystem st) !! MemFs.steps p = Some (MemFs.File data) ->
  getPropertyInternal p (js "etag") (filesystem st)
  = Some (PString (generateEtag etag)) ->
  (forall q tok, ~ listed (lockManager st) q tok) ->
  LockManager.activeStreams (lockManager st) !! p = None ->
  header req (js "range") = None ->
  exists st',
    handleGet env req st =
    (Ok (mkResponse 200
           [(js "Content-Length", toString (Z.of_nat (length data)));
            (js "ETag", generateEtag etag);
            (js "Accept-Ranges", js "bytes")] (Stream data)), st').
Proof.
  intros Hp Hfile Hetag Hno Hfree Hhdr.
  pose proof (lock_normalizePath_engine _ _ Hp) as Hn.
  destruct (hasWebDAVLock_unlisted (now env) p (Some LockManager.exclusive)
              (lockManager st) Hno) as [Hlocked Hpr].
  destruct (LockManager.hasWebDAVLock (now env) p (Some LockManager.exclusive)
              (lockManager st)) as [locked l1] eqn:E1.
  cbn [fst snd] in *. subst locked.
  assert (Hkeep : LockManager.activeStreams l1
                  = LockManager.activeStreams (lockManager st)) by apply Hpr.
  destruct st as [f l]. cbn [filesystem lockManager] in *.
  pose proof (existsSync_true _ _ _ Hfile) as Hex.
  eexists.
  unfold handleGet.
  rewrite (bindE_ok _ _ _ _ _ (normalizePath_ok _ _ _ Hp)).
  unfold bindE at 1, fsE at 1.
  cbn [vfs_exists MemoryFileSystem.vfs filesystem lockManager].
  unfold MemoryFileSystem.exists_ at 1. rewrite Hex. cbn [negb].
  unfold bindE at 1, fsE at 1.
  cbn [vfs_getType MemoryFileSystem.vfs filesystem lockManager].
  unfold MemoryFileSystem.getType at 1. rewrite Hex. cbn [negb].
  unfold bindE at 1, MemoryFileSystem.readFs at 1, MemFs.isDirectory at 1.
  rewrite Hfile. unfold retE at 1, ret at 1.
  rewrite bool_decide_eq_false_2 by discriminate.
  unfold bindE at 1. rewrite lm_run. cbn [filesystem lockManager].
  rewrite E1. cbn [fst snd].
  destruct (read_stream_acquired p l1 Hn) as [Hc Ha].
  { rewrite Hkeep, Hfree. discriminate. }
  unfold bindE at 1. rewrite lm_run. cbn [filesystem lockManager].
  rewrite Hc. cbn [fst snd].
  unfold bindE at 1. rewrite lm_run. cbn [filesystem lockManager].
  rewrite Ha. cbn [negb].
  unfold try_catch.
  unfold bindE at 1, fsE at 1.
  cbn [vfs_getSize MemoryFileSystem.vfs filesystem lockManager].
  unfold MemoryFileSystem.getSize at 1. rewrite Hex. cbn [negb].
  unfold MemoryFileSystem.readFs at 1, MemFs.size at 1. rewrite Hfile.
  unfold bindE at 1, fsE at 1.
  cbn [vfs_getEtag MemoryFileSystem.vfs filesystem lockManager].
  unfold MemoryFileSystem.getEtag at 1. rewrite Hetag. rewrite Hhdr.
  unfold bindE, fsE, retE.
  cbn [vfs_getStream MemoryFileSystem.vfs filesystem lockManager].
  unfold MemoryFileSystem.getStream. rewrite Hex. cbn [negb].
  unfold MemoryFileSystem.readFs, MemFs.createReadStream, MemFs.readFileSync.
  rewrite Hfile. reflexivity.
Qed.



End PutGetFacts2.

(* ===================================================================== *)
(** ** LOCK, then PUT and UNLOCK *)
(* ===================================================================== *)
Section LockThenFacts.
Import JS WebDAVServer.
Context {FS : Type} `{VirtualFileSystem FS}.
Variable xml_parse : jsstring -> result WebDAVXML.jsval.
Variable xml_lock_response : LockManager.WebDAVLock -> result jsstring.

(** A LOCK request with a well-formed lockinfo body on an existing path
    that can be locked is answered 200 with the token in the Lock-Token
    header, and the lock is stored.  Until the lock expires, a PUT on the
    path that carries no token is answered 423 and leaves the file system
    as it is. *)
Theorem handleLock_then_handlePut_423 env req (st : @WebDAVServer.t FS) p fs' body
  parsed lockRequest
  (Hp : PathNormalizer.normalizePath (req_path req) = Some p)
  (Hex : vfs_exists p (filesystem st) = (Ok true, fs'))
  (Hbody : req_body req = Some body)
  (Hne : body <> [])
  (Hparse : xml_parse body = Ok parsed)
  (Hreq : WebDAVXML.parseLockRequest parsed = Ok lockRequest)
  (Hcan : fst (LockManager.canLock (now env) p
                 (WebDAVXML.lr_scope lockRequest) (lockManager st)) = true)
  (Hxml : forall lock, exists xml, xml_lock_response lock = Ok xml) :
  exists lock xml st1,
    handleLock xml_parse xml_lock_response env req st =
    (Ok (mkResponse 200
           [(js "Content-Type", js "application/xml; charset=utf-8");
            (js "Lock-Token", js "<opaquelocktoken:" ++ uuid env 0 ++ js ">")]
           (Text xml)), st1) /\
    LockManager.token lock = uuid env 0 /\
    LockManager.path lock = p /\
    LockManager.scope lock = WebDAVXML.lr_scope lockRequest /\
    LockManager.locks (lockManager st1) !! uuid env 0 = Some lock /\
    filesystem st1 = fs' /\
    forall env' req',
      PathNormalizer.normalizePath (req_path req') = Some p ->
      extractLockToken req' = None ->
      now env' <= now env + LockManager.timeout lock * 1000 ->
      exists l2, handlePut env' req' st1 = (Ok (end_ 423), mk fs' l2).
Proof.
  pose proof (lock_normalizePath_engine _ _ Hp) as Hn.
  set (depth := default (js "infinity") (header req (js "depth"))).
  set (timeout := parseTimeout (header req (js "timeout"))).
  pose proof (createLock_run (now env) (uuid env 0) p (WebDAVXML.lr_owner lockRequest)
                (WebDAVXML.lr_scope lockRequest) depth timeout (lockManager st) Hn)
    as Hrun.
  destruct (LockManager.canLock (now env) p (WebDAVXML.lr_scope lockRequest)
              (lockManager st)) as [ok l1].
  cbn [fst] in Hcan. subst ok.
  set (lock := LockManager.mkLock (uuid env 0) p (WebDAVXML.lr_owner lockRequest)
                 (LockManager.timeout_or_default timeout l1) (now env) depth
                 (WebDAVXML.lr_scope lockRequest)) in *.
  cbn zeta in Hrun.
  set (s2 := LockManager.set_pathLocks
               (fun pl => <[p := default ∅ (pl !! p) ∪ {[uuid env 0]}]> pl)
               (LockManager.set_locks (<[uuid env 0 := lock]>) l1)) in *.
  destruct (Hxml lock) as (xml & Hx).
  exists lock, xml, (mk fs' s2).
  split.
  { unfold handleLock.
    rewrite (bindE_ok _ _ _ _ _ (normalizePath_ok _ _ st Hp)).
    assert (E1 : fsE (vfs_exists p) st = (Ok true, mk fs' (lockManager st))).
    { unfold fsE. rewrite Hex. reflexivity. }
    rewrite (bindE_ok _ _ _ _ _ E1). cbn [negb].
    rewrite Hbody. cbn [default from_option id].
    destruct body as [|c body]; [congruence|].
    unfold ofResult at 1. unfold bindE at 1, ret at 1. rewrite Hparse.
    unfold ofResult at 1. unfold bindE at 1, ret at 1. rewrite Hreq.
    unfold try_catch, bindE at 1. unfold bindE at 1. unfold bindE at 1.
    rewrite lm_run. cbn [lockManager filesystem].
    fold depth timeout. rewrite Hrun. cbn [fst snd].
    unfold ofResult, ret. rewrite Hx. reflexivity. }
  do 3 (split; [reflexivity|]).
  assert (Hl : LockManager.locks s2 !! uuid env 0 = Some lock).
  { subst s2. cbn [LockManager.locks LockManager.set_pathLocks LockManager.set_locks].
    apply lookup_insert_eq. }
  split; [exact Hl|]. split; [reflexivity|].
  intros env' req' Hp' Htok Hnow.
  assert (Hlisted : listed s2 p (uuid env 0)).
  { subst s2. unfold listed.
    cbn [LockManager.pathLocks LockManager.set_pathLocks LockManager.set_locks].
    rewrite lookup_insert_eq. eexists. split; [reflexivity|].
    apply elem_of_union_r, elem_of_singleton. reflexivity. }
  assert (He : LockManager.isExpired (now env') lock = false).
  { unfold LockManager.isExpired. apply Z.ltb_ge. exact Hnow. }
  assert (Hlocked : fst (LockManager.hasWebDAVLock (now env') p None s2) = true).
  { unfold LockManager.hasWebDAVLock, bind. rewrite Hn.
    destruct (isLocked_spec (now env') p None s2) as [_ Hiff]. cbn zeta in Hiff.
    destruct (LockManager.isLocked (now env') p None s2) as [b l2].
    cbn [fst snd] in *.
    assert (b = true) as ->.
    { apply Hiff. exists p, (uuid env 0), lock. rewrite !Hn.
      split; [exact Hlisted|]. split.
      - unfold live. rewrite Hl, He. reflexivity.
      - split; [reflexivity|]. left. auto. }
    reflexivity. }
  destruct (LockManager.hasWebDAVLock (now env') p None s2) as [b l2] eqn:E2.
  cbn [fst] in Hlocked. subst b.
  exists l2. unfold handlePut.
  rewrite (bindE_ok _ _ _ _ _ (normalizePath_ok _ _ _ Hp')).
  unfold bindE at 1. rewrite lm_run. cbn [filesystem lockManager].
  rewrite E2. cbn [fst snd]. rewrite Htok.
  reflexivity.
Qed.

(** UNLOCK on an existing path with a token that [hasValidLockToken]
    accepts for the path is answered 204, and the token then resolves to no
    lock while every other lock stays; with a token it does not accept the
    answer is 409 and only expired locks are removed. *)
Theorem handleUnlock_removes env req (st : @WebDAVServer.t FS) p tok fs'
  (Hp : PathNormalizer.normalizePath (req_path req) = Some p)
  (Htok : extractLockToken req = Some tok)
  (Hex : vfs_exists p (filesystem st) = (Ok true, fs')) :
  let r := WebDAVMethods.handleUnlock env req st in
  let l' := lockManager (snd r) in
  filesystem (snd r) = fs' /\
  if fst (LockManager.hasValidLockToken (now env) p tok (lockManager st)) then
    fst r = Ok (end_ 204) /\
    LockManager.locks l' = delete tok (LockManager.locks (lockManager st))
  else
    fst r = Ok (end_ 409) /\ pruned (now env) (lockManager st) l'.
Proof.
  cbn zeta.
  assert (E1 : fsE (vfs_exists p) st = (Ok true, mk fs' (lockManager st))).
  { unfold fsE. rewrite Hex. reflexivity. }
  pose proof (hasValidLockToken_true (now env) p tok (lockManager st)) as Hv.
  assert (Hrun : LockManager.hasValidLockToken (now env) p tok (lockManager st)
                 = (fst (LockManager.hasValidLockToken (now env) p tok (lockManager st)),
                    snd (LockManager.getLock (now env) tok (lockManager st)))).
  { unfold LockManager.hasValidLockToken, bind.
    destruct (LockManager.getLock (now env) tok (lockManager st)) as [[lk|] l1];
      [|reflexivity].
    repeat match goal with |- context [if ?c then _ else _] => destruct c end;
      reflexivity. }
  assert (Heq : WebDAVMethods.handleUnlock env req st =
                if fst (LockManager.hasValidLockToken (now env) p tok (lockManager st))
                then (Ok (end_ 204),
                      mk fs' (snd (LockManager.removeLock tok (lockManager st))))
                else (Ok (end_ 409),
                      mk fs' (snd (LockManager.getLock (now env) tok (lockManager st))))).
  { unfold WebDAVMethods.handleUnlock.
    rewrite (bindE_ok _ _ _ _ _ (normalizePath_ok _ _ st Hp)). rewrite Htok.
    rewrite (bindE_ok _ _ _ _ _ E1). cbn [negb].
    unfold bindE at 1. rewrite lm_run. cbn [lockManager filesystem].
    rewrite Hrun. cbn [fst snd].
    destruct (fst (LockManager.hasValidLockToken (now env) p tok (lockManager st)))
      eqn:Evalid; cbn [negb]; [|reflexivity].
    destruct (proj1 Hv eq_refl) as (lock & Hl & He & _).
    rewrite getLock_run, Hl, He. cbn [snd].
    unfold bindE. rewrite lm_run. cbn [lockManager filesystem fst snd].
    assert (Hb : fst (LockManager.removeLock tok (lockManager st)) = true).
    { unfold LockManager.removeLock. rewrite Hl. reflexivity. }
    rewrite Hb. reflexivity. }
  rewrite Heq.
  destruct (fst (LockManager.hasValidLockToken (now env) p tok (lockManager st)));
    cbn [fst snd filesystem lockManager].
  - split; [reflexivity|]. split; [reflexivity | apply removeLock_locks].
  - split; [reflexivity|]. split; [reflexivity | apply getLock_pruned].
Qed.

End LockThenFacts.

Section LockThenWitnesses.
Import JS WebDAVServer.

Lemma handleLock_then_handlePut_423_witness :
  exists xml st1 l2,
    handleLock parse_lockinfo build_prop env0 lock_request st_tree =
    (Ok (mkResponse 200
           [(js "Content-Type", js "application/xml; charset=utf-8");
            (js "Lock-Token", js "<opaquelocktoken:uuid>")]
           (Text xml)), st1) /\
    handlePut env0 (request "/a/b" [] None (js "x")) st1
    = (Ok (end_ 423), mk (filesystem st_tree) l2).
Proof.
  destruct (handleLock_then_handlePut_423 parse_lockinfo build_prop env0 lock_request
              st_tree (js "/a/b") (filesystem st_tree) (js "<d:lockinfo/>")
              lockinfo_parsed
              (WebDAVXML.mkLockRequest (js "Integration Test") LockManager.exclusive))
    as (lock & xml & st1 & H1 & _ & _ & _ & Hl & _ & H2).
  - vm_compute. reflexivity.
  - vm_compute. reflexivity.
  - reflexivity.
  - discriminate.
  - reflexivity.
  - vm_compute. reflexivity.
  - vm_compute. reflexivity.
  - intros lock. exists (js "<d:prop/>"). reflexivity.
  - assert (Hst : st1 = snd (handleLock parse_lockinfo build_prop env0 lock_request
                               st_tree)) by (rewrite H1; reflexivity).
    rewrite Hst in Hl. vm_compute in Hl. injection Hl as Hl.
    destruct (H2 env0 (request "/a/b" [] None (js "x"))) as (l2 & H3).
    + vm_compute. reflexivity.
    + vm_compute. reflexivity.
    + rewrite <- Hl. vm_compute. discriminate.
    + exists xml, st1, l2. split; [exact H1 | exact H3].
Defined.

Lemma handleUnlock_removes_witness :
  let req := request "/a/b" [(js "lock-token", js "<opaquelocktoken:t1>")] None [] in
  let r := WebDAVMethods.handleUnlock env0 req st_locked_ab in
  fst r = Ok (end_ 204) /\
  LockManager.locks (lockManager (snd r)) =
  delete (js "t1") (LockManager.locks (lockManager st_locked_ab)).
Proof.
  cbn zeta.
  pose proof (handleUnlock_removes env0
                (request "/a/b" [(js "lock-token", js "<opaquelocktoken:t1>")] None [])
                st_locked_ab (js "/a/b") (js "t1") (filesystem st_locked_ab)) as Hu.
  cbn zeta in Hu.
  destruct Hu as [_ Hu].
  - vm_compute. reflexivity.
  - vm_compute. reflexivity.
  - vm_compute. reflexivity.
  - assert (Hv : fst (LockManager.hasValidLockToken (now env0) (js "/a/b") (js "t1")
                        (lockManager st_locked_ab)) = true) by (vm_compute; reflexivity).
    rewrite Hv in Hu. exact Hu.
Defined.

End LockThenWitnesses.

(* ===================================================================== *)
(** ** COPY and the locks *)
(* ===================================================================== *)
Section CopyFacts.
Import JS WebDAVServer WebDAVMethods.
Context {FS : Type} `{VirtualFileSystem FS} `{VirtualFileSystemCopy FS}.
Variable url_pathname : jsstring -> option jsstring.

Local Ltac fin := cbn; split; [|split]; reflexivity.

(** COPY never reads or changes the lock manager: over the same file
    system, the answer and the file system it leaves are the same whatever
    locks and streams are held on the source or the destination, and the
    lock manager is left as it was. *)
Theorem handleCopy_ignores_locks env req (fs : FS) (l l' : LockManager.t) :
  let r := handleCopy url_pathname env req (mk fs l) in
  let r' := handleCopy url_pathname env req (mk fs l') in
  fst r = fst r' /\
  filesystem (snd r) = filesystem (snd r') /\
  lockManager (snd r) = l.
Proof.
  cbn zeta. unfold handleCopy, normalizePath.
  destruct (PathNormalizer.normalizePath (req_path req)) as [src|];
    [|fin].
  unfold bindE at 1 3 5 7 9. unfold retE at 1 3 5 7 9. unfold ret.
  destruct (destination url_pathname req) as [bad|dst]; [fin|].
  unfold bindE, fsE, retE, ret. cbn [filesystem lockManager].
  destruct (vfs_exists src fs) as [[ex|e] f1]; cbn [filesystem lockManager];
    [|fin].
  destruct ex; cbn [negb filesystem lockManager]; [|fin].
  destruct (vfs_exists dst f1) as [[ex2|e] f2]; cbn [filesystem lockManager];
    [|fin].
  destruct (ex2 && negb (overwrite req)); [fin|].
  cbn [filesystem lockManager].
  destruct (vfs_copy (now env) (uuid env 0) src dst f2) as [[u|e] f3];
    cbn [filesystem lockManager]; fin.
Qed.

End CopyFacts.

(* ===================================================================== *)
(** ** Basic authentication *)
(* ===================================================================== *)
Section AuthenticationFacts.
Import JS WebDAVServer WebDAVMethods.
Variable base64_decode : jsstring -> jsstring.

Lemma split_head_no_sep c s u rest : split c s = u :: rest -> c ∉ u.
Proof.
  intros Hs. pose proof (split_no_sep c s) as Hf. rewrite Hs in Hf.
  apply Forall_cons in Hf. apply Hf.
Qed.

Lemma split_second_no_sep c s u p rest : split c s = u :: p :: rest -> c ∉ p.
Proof.
  intros Hs. pose proof (split_no_sep c s) as Hf. rewrite Hs in Hf.
  apply Forall_cons in Hf. destruct Hf as [_ Hf].
  apply Forall_cons in Hf. apply Hf.
Qed.

(** When users are configured, the authentication middleware lets a
    request through only if its Authorization header starts with
    [Basic ] and the decoded credentials, cut at the colons, begin with the
    name of a configured user and that user's password, both not empty and
    without a colon; every other request is answered with the 401
    challenge. *)
Theorem authenticate_passes_iff (users : gmap jsstring jsstring) realm req
  (Hn : users <> ∅) :
  (authenticate base64_decode users realm req = None <->
   exists auth u p rest,
     header req (js "authorization") = Some auth /\
     startsWith auth (js "Basic ") = true /\
     split COLON (base64_decode (drop 6 auth)) = u :: p :: rest /\
     u <> [] /\ p <> [] /\ (COLON ∉ u) /\ (COLON ∉ p) /\
     users !! u = Some p) /\
  (authenticate base64_decode users realm req <> None ->
   authenticate base64_decode users realm req = Some (sendAuthChallenge realm)).
Proof.
  assert (Hs : bool_decide (0 < size users)%nat = true).
  { apply bool_decide_eq_true_2.
    destruct (size users) eqn:E; [|lia].
    apply map_size_empty_iff in E. contradiction. }
  unfold authenticate. rewrite Hs.
  destruct (header req (js "authorization")) as [auth|] eqn:Hh.
  2:{ split; [|reflexivity]. split; [discriminate|].
      intros (a & u & p & r & Ha & _). discriminate. }
  destruct (startsWith auth (js "Basic ")) eqn:Hb; cbn [negb].
  2:{ split; [|reflexivity]. split; [discriminate|].
      intros (a & u & p & r & Ha & Hb' & _). injection Ha as <-. congruence. }
  destruct (split COLON (base64_decode (drop 6 auth))) as [|u [|p rest]] eqn:Hsp.
  { split; [|reflexivity]. split; [discriminate|].
    intros (a & u & p & r & Ha & _ & Hsp' & _). injection Ha as <-.
    rewrite Hsp in Hsp'. discriminate. }
  { destruct u; (split; [|reflexivity]); (split; [discriminate|]);
      intros (a & u' & p & r & Ha & _ & Hsp' & _); injection Ha as <-;
      rewrite Hsp in Hsp'; discriminate. }
  destruct u as [|c u].
  { split; [|reflexivity]. split; [discriminate|].
    intros (a & u' & p' & r & Ha & _ & Hsp' & Hu & _). injection Ha as <-.
    rewrite Hsp in Hsp'. injection Hsp' as <- <- <-. contradiction. }
  destruct p as [|d p].
  { split; [|reflexivity]. split; [discriminate|].
    intros (a & u' & p' & r & Ha & _ & Hsp' & _ & Hp & _). injection Ha as <-.
    rewrite Hsp in Hsp'. injection Hsp' as <- <- <-. contradiction. }
  destruct (users !! (c :: u)) as [[|e s]|] eqn:Hu.
  { split; [|reflexivity]. split; [discriminate|].
    intros (a & u' & p' & r & Ha & _ & Hsp' & _ & _ & _ & _ & Hl).
    injection Ha as <-. rewrite Hsp in Hsp'. injection Hsp' as <- <- <-.
    rewrite Hu in Hl. discriminate. }
  2:{ split; [|reflexivity]. split; [discriminate|].
      intros (a & u' & p' & r & Ha & _ & Hsp' & _ & _ & _ & _ & Hl).
      injection Ha as <-. rewrite Hsp in Hsp'. injection Hsp' as <- <- <-.
      rewrite Hu in Hl. discriminate. }
  destruct (eqb (e :: s) (d :: p)) eqn:He; cbn [negb].
  - apply eqb_true in He. split; [|intros Hc; exfalso; apply Hc; reflexivity].
    split; [|reflexivity]. intros _.
    exists auth, (c :: u), (d :: p), rest.
    split; [reflexivity|]. split; [exact Hb|]. split; [exact Hsp|].
    split; [discriminate|]. split; [discriminate|].
    split; [eapply split_head_no_sep; exact Hsp|].
    split; [eapply split_second_no_sep; exact Hsp|].
    rewrite Hu, He. reflexivity.
  - apply eqb_false in He. split; [|reflexivity]. split; [discriminate|].
    intros (a & u' & p' & r & Ha & _ & Hsp' & _ & _ & _ & _ & Hl).
    injection Ha as <-. rewrite Hsp in Hsp'. injection Hsp' as <- <- <-.
    rewrite Hu in Hl. congruence.
Qed.

(** A configured user whose password holds a colon can never log in:
    whatever Authorization header a request carries, it is not let through
    as that user, and with no other user configured every request is
    answered 401. *)
Theorem colon_password_locked_out user pw realm req
  (Hc : COLON ∈ pw) :
  authenticate base64_decode {[user := pw]} realm req
  = Some (sendAuthChallenge realm).
Proof.
  unfold authenticate. rewrite map_size_singleton.
  change (bool_decide (0 < 1)%nat) with true. cbv iota.
  destruct (header req (js "authorization")) as [auth|]; [|reflexivity].
  destruct (startsWith auth (js "Basic ")); cbn [negb]; [|reflexivity].
  destruct (split COLON (base64_decode (drop 6 auth)))
    as [|[|c u] [|[|d p] rest]] eqn:Hsp; try reflexivity.
  destruct (({[user := pw]} : gmap jsstring jsstring) !! (c :: u))
    as [[|e s]|] eqn:Hu; try reflexivity.
  apply lookup_singleton_Some in Hu. destruct Hu as [_ Hu].
  destruct (eqb (e :: s) (d :: p)) eqn:He; [|reflexivity].
  apply eqb_true in He. exfalso.
  apply (split_second_no_sep _ _ _ _ _ Hsp). rewrite <- He, <- Hu. exact Hc.
Qed.

End AuthenticationFacts.

(* ===================================================================== *)
(** ** MOVE of a file *)
(* ===================================================================== *)
Section MoveFacts.
Import JS WebDAVServer WebDAVMethods MemoryFileSystem.
Variable url_pathname : jsstring -> option jsstring.


End MoveFacts.

Section MoveWitnesses.
Import JS WebDAVServer WebDAVMethods MemoryFileSystem.


End MoveWitnesses.

Section AuthenticationFacts2.
Import JS WebDAVServer WebDAVMethods.
Variable base64_decode : jsstring -> jsstring.

Lemma users_foldl_non_empty (l : list WebDAVUser) : forall m : gmap jsstring jsstring,
  m <> ∅ ->
  foldl (fun m user => <[username user := password user]> m) m l <> ∅.
Proof.
  induction l as [|x l IH]; intros m Hm; [exact Hm|].
  cbn [foldl]. apply IH. apply insert_non_empty.
Qed.

(** The server asks for credentials exactly when [authentication] is not
    [false] and [users] lists at least one user: in every other
    configuration, also with [authentication: true] and no user, every
    request is let through. *)
Theorem authentication_enforced_iff options :
  (forall req,
     authenticate base64_decode (users_of options) (realm_of options) req = None)
  <-> (authentication options = Some false \/ users options = None \/
       users options = Some []).
Proof.
  split.
  - intros Hall.
    destruct (decide (authentication options = Some false)) as [Ha|Ha]; [left; exact Ha|].
    right. destruct (users options) as [[|x l]|] eqn:Hu; [right; reflexivity| |left; reflexivity].
    exfalso.
    specialize (Hall (mkRequest [] ∅ None [])).
    unfold authenticate, users_of in Hall. rewrite Hu in Hall.
    rewrite (bool_decide_eq_false_2 _ Ha) in Hall.
    rewrite (bool_decide_eq_true_2 (authentication options <> Some false) Ha) in Hall.
    cbn [foldl] in Hall.
    match type of Hall with
    | context [size ?m] =>
        assert (Hne : m <> ∅) by (apply users_foldl_non_empty, insert_non_empty);
        destruct (size m) eqn:Es; [apply map_size_empty_iff in Es; contradiction|]
    end.
    rewrite bool_decide_eq_true_2 in Hall by lia.
    unfold header in Hall. cbn [req_headers] in Hall.
    rewrite lookup_empty in Hall. discriminate.
  - intros Hopen req.
    assert (He : users_of options = ∅).
    { unfold users_of. destruct Hopen as [Ha|[Hu|Hu]].
      - rewrite (bool_decide_eq_true_2 _ Ha). reflexivity.
      - rewrite Hu. destruct (bool_decide (authentication options <> Some false));
          destruct (bool_decide (authentication options = Some false)); reflexivity.
      - rewrite Hu. cbn [foldl].
        destruct (bool_decide (authentication options <> Some false));
          destruct (bool_decide (authentication options = Some false)); reflexivity. }
    rewrite He. unfold authenticate. rewrite map_size_empty. reflexivity.
Qed.

End AuthenticationFacts2.

Section AuthenticationWitnesses.
Import JS WebDAVServer WebDAVMethods.

Lemma authenticate_passes_iff_witness :
  authenticate decode_two {[js "admin" := js "changeme"]} (js "WebDAV Server")
    (request "/" [(js "authorization", js "Basic YWRtaW46Y2hhbmdlbWU=")] None [])
  = None.
Proof.
  assert (Hn : ({[js "admin" := js "changeme"]} : gmap jsstring jsstring) <> ∅)
    by apply map_non_empty_singleton.
  apply (proj1 (authenticate_passes_iff decode_two _ (js "WebDAV Server")
                  (request "/" [(js "authorization", js "Basic YWRtaW46Y2hhbmdlbWU=")]
                     None []) Hn)).
  exists (js "Basic YWRtaW46Y2hhbmdlbWU="), (js "admin"), (js "changeme"), [].
  split; [vm_compute; reflexivity|]. split; [vm_compute; reflexivity|].
  split; [vm_compute; reflexivity|]. split; [discriminate|]. split; [discriminate|].
  split; [apply (bool_decide_unpack _); vm_compute; exact I|].
  split; [apply (bool_decide_unpack _); vm_compute; exact I|].
  vm_compute. reflexivity.
Defined.

Lemma colon_password_locked_out_witness :
  authenticate decode_two {[js "bob" := js "a:b"]} (js "WebDAV Server")
    (request "/" [(js "authorization", js "Basic Ym9iOmE6Yg==")] None [])
  = Some (sendAuthChallenge (js "WebDAV Server")).
Proof.
  apply (colon_password_locked_out decode_two).
  apply (bool_decide_unpack _). vm_compute. exact I.
Defined.

End AuthenticationWitnesses.
